(** * Sequence-analysis engine of [main.py]: a shallow embedding and its properties

    The Python functions of [src/main.py] are transcribed as Rocq functions.

    - A Python [str] is a list of characters ([str := list ascii]).
    - A Python [int] is a [Z]; a loop counter produced by [enumerate] is a [nat].
    - [a / b] on integers is named by the exact quotient in [Q] (Python
      returns the double nearest to it) and raises [ZeroDivisionError] when
      [b = 0]; the statements about such a value only name it, compare it or
      bound it.
    - Arithmetic on floats ([reduce_avg]) goes through the interface
      [FloatArith]: the code is transcribed once, for any float type.
      [binary64] instantiates it with IEEE 754 doubles, which is what Python
      computes; [rational] instantiates it with exact rationals, for the
      records of quotients above.
    - A Python [dict] is an insertion-ordered association list with pairwise
      distinct keys ([Dict.t]); assigning to an existing key keeps its place,
      assigning to a new key appends it.
    - A raised exception is the [Raise] branch of [result]. *)

From Stdlib Require Import Floats.PrimFloat Floats.SpecFloat Floats.FloatOps.
From Stdlib Require Import Ascii String.
From Stdlib Require Import List ZArith QArith Bool Arith Lia.
From Stdlib Require Import Permutation Sorting.Sorted.
From Equations Require Import Equations.
Import ListNotations.

Set Implicit Arguments.
Set Warnings "-inexact-float".
Local Open Scope Z_scope.

(** ** Exceptions and the error monad *)

Inductive exn : Type :=
| IndexError
| KeyError
| ValueError
| ZeroDivisionError.

Inductive result (A : Type) : Type :=
| Ok (a : A)
| Raise (e : exn).

Arguments Ok {A} a.
Arguments Raise {A} e.

Definition bind {A B : Type} (c : result A) (k : A -> result B) : result B :=
  match c with
  | Ok a => k a
  | Raise e => Raise e
  end.

Notation "x <- c ;; k" := (bind c (fun x => k))
  (at level 61, c at next level, right associativity).

Definition raises {A : Type} (c : result A) : Prop := exists e, c = Raise e.

(** [for x in xs: acc = body(acc, x)], stopping at the first exception. *)
Fixpoint for_each {A S : Type} (body : S -> A -> result S) (xs : list A) (acc : S)
  : result S :=
  match xs with
  | [] => Ok acc
  | x :: rest => acc' <- body acc x ;; for_each body rest acc'
  end.

(** ** Strings, indexing, slicing, [range] *)

Definition str : Type := list ascii.

Definition str_of (s : String.string) : str := String.list_ascii_of_string s.
Arguments str_of s%_string.

Class EqDec (K : Type) : Type := eq_dec : forall x y : K, {x = y} + {x <> y}.

#[export] Instance ascii_EqDec : EqDec ascii := ascii_dec.
#[export] Instance str_EqDec : EqDec str := list_eq_dec ascii_dec.

Definition len {A : Type} (l : list A) : Z := Z.of_nat (length l).

(** Python clamps a slice bound: a negative bound counts from the end. *)
Definition clamp (n i : Z) : nat :=
  if i <? 0 then Z.to_nat (Z.max (i + n) 0) else Z.to_nat (Z.min i n).

(** [l[lo:hi]] *)
Definition py_slice {A : Type} (l : list A) (lo hi : Z) : list A :=
  let lo' := clamp (len l) lo in
  let hi' := clamp (len l) hi in
  firstn (hi' - lo') (skipn lo' l).

(** [l[i]] *)
Definition py_index {A : Type} (l : list A) (i : Z) : result A :=
  let j := if i <? 0 then i + len l else i in
  if j <? 0 then Raise IndexError
  else match nth_error l (Z.to_nat j) with
       | Some a => Ok a
       | None => Raise IndexError
       end.

(** [len(range(start, stop, step))] for [step <> 0]. *)
Definition range_len (start stop step : Z) : nat :=
  if 0 <? step then
    if start <? stop then Z.to_nat ((stop - start - 1) / step + 1) else 0%nat
  else
    if stop <? start then Z.to_nat ((start - stop - 1) / (- step) + 1) else 0%nat.

(** [range(start, stop, step)] *)
Definition py_range (start stop step : Z) : result (list Z) :=
  if step =? 0 then Raise ValueError
  else Ok (map (fun i => start + Z.of_nat i * step) (seq 0 (range_len start stop step))).

(** [a / b] on integers. *)
Definition truediv (a b : Z) : result Q :=
  if b =? 0 then Raise ZeroDivisionError else Ok (inject_Z a / inject_Z b)%Q.

(** [seq.count(c)] for a one-character [c]. *)
Definition str_count (sequence : str) (c : ascii) : Z :=
  len (filter (fun b => if eq_dec b c then true else false) sequence).

(** ** Insertion-ordered dictionaries *)

Module Dict.
Section Dict.
Context {K V : Type} `{EqDec K}.

Definition t : Type := list (K * V).

Definition empty : t := [].

Fixpoint get (d : t) (k : K) : option V :=
  match d with
  | [] => None
  | (k', v) :: rest => if eq_dec k k' then Some v else get rest k
  end.

(** [d[k]] *)
Definition getitem (d : t) (k : K) : result V :=
  match get d k with Some v => Ok v | None => Raise KeyError end.

(** [d[k] = v] *)
Fixpoint set (d : t) (k : K) (v : V) : t :=
  match d with
  | [] => [(k, v)]
  | (k', v') :: rest =>
      if eq_dec k k' then (k', v) :: rest else (k', v') :: set rest k v
  end.

Definition keys (d : t) : list K := map fst d.
Definition values (d : t) : list V := map snd d.
Definition items (d : t) : list (K * V) := d.

(** The invariant of every Python dict: no key occurs twice. *)
Definition wf (d : t) : Prop := NoDup (keys d).
End Dict.
Arguments t : clear implicits.
End Dict.

(** ** [substrings] *)

(** The body of the [for] loop of [substrings] over the indices of the range:
    the first window of the wrong length ends the generator. *)
Fixpoint substrings_loop (seq : str) (win_len : Z) (indices : list Z) : list str :=
  match indices with
  | [] => []
  | i :: rest =>
      let substring := py_slice seq i (i + win_len) in
      if len substring =? win_len then substring :: substrings_loop seq win_len rest
      else []
  end.

(** [substrings] (main.py, lines 9-27): the generator, as the list of what it
    yields; [range] raises [ValueError] for a zero [hop_len]. *)
Definition substrings (seq : str) (win_len hop_len : Z) : result (list str) :=
  let seq_len := len seq in
  indices <- py_range 0 seq_len hop_len ;;
  Ok (substrings_loop seq win_len indices).

(** [x in l] for a Python list [l]. *)
Definition py_in {K : Type} `{EqDec K} (x : K) (l : list K) : bool :=
  existsb (fun y => if eq_dec x y then true else false) l.

(** [sum(values)] over integers. *)
Definition py_sum (l : list Z) : Z := fold_left Z.add l 0.

(** [enumerate(l)] *)
Definition enumerate {A : Type} (l : list A) : list (nat * A) :=
  combine (seq 0 (length l)) l.

(** [{k: v for k, v in pairs}]: a later pair overwrites an earlier one with
    the same key. *)
Definition dict_of {K V : Type} `{EqDec K} (pairs : list (K * V)) : Dict.t K V :=
  fold_left (fun d (kv : K * V) => Dict.set d (fst kv) (snd kv)) pairs Dict.empty.

(** ** Settings and datasets *)

Module Settings.
Record t : Type := {
  valid_nucleobases : list str;
  min_basepair_len : Z;
  min_bases : Z;
  k_values : list Z;
  top_n : Z
}.
End Settings.

Record seq_object : Type := {
  num_sequences : Z;
  sequence_length : Z;
  sequences : list str
}.

(** A per-sequence stat record: field name to value. *)
Definition StatRecord : Type := Dict.t str Q.

(** ** [get_gc_stats] *)

(** [get_gc_stats] (main.py, lines 30-59); [None] is the default of
    [valid_nucleobases]. *)
Definition get_gc_stats (sequence : str) (valid_nucleobases : option (list str))
  : result StatRecord :=
  let total_valid :=
    match valid_nucleobases with
    | None => len sequence
    | Some valid =>
        let num_invalid :=
          len (filter (fun base => negb (py_in [base] valid)) sequence) in
        len sequence - num_invalid
    end in
  let num_c := str_count sequence "C"%char in
  let num_g := str_count sequence "G"%char in
  gc_distribution <- truediv (num_c + num_g) total_valid ;;
  gc_skew <- truediv (num_g - num_c) (num_g + num_c) ;;
  let gc_stats :=
    Dict.set (Dict.set Dict.empty (str_of "gc_distribution") gc_distribution)
             (str_of "gc_skew") gc_skew in
  Ok gc_stats.

(** ** [get_dinucleotide_freqs] *)

(** [if d in counts.keys(): counts[d] += 1] *)
Definition count_dinucleotide (counts : Dict.t str Z) (d : str)
  : result (Dict.t str Z) :=
  if py_in d (Dict.keys counts) then
    v <- Dict.getitem counts d ;; Ok (Dict.set counts d (v + 1))
  else Ok counts.

(** [get_dinucleotide_freqs] (main.py, lines 62-85); the global [SETTINGS]
    is passed as an argument. *)
Definition get_dinucleotide_freqs (SETTINGS : Settings.t) (sequence : str)
  : result (Dict.t str Q) :=
  let valid_dinucleotides : list str :=
    flat_map (fun i => map (fun j => i ++ j) (Settings.valid_nucleobases SETTINGS))
             (Settings.valid_nucleobases SETTINGS) in
  let dinucleotide_counts : Dict.t str Z :=
    fold_left (fun (counts : Dict.t str Z) (d : str) => Dict.set counts d 0)
              valid_dinucleotides Dict.empty in
  dinucleotides <- substrings sequence 2 2 ;;
  dinucleotide_counts <- for_each count_dinucleotide dinucleotides dinucleotide_counts ;;
  let total_dinucleotides := py_sum (Dict.values dinucleotide_counts) in
  for_each (fun frac (item : str * Z) =>
              let (d, count) := item in
              q <- truediv count total_dinucleotides ;; Ok (Dict.set frac d q))
           (Dict.items dinucleotide_counts) Dict.empty.

(** ** [find_invalid_bases] *)

Module Invalid.
Record t : Type := { pos : nat; base : ascii }.
End Invalid.

Record invalid_stats : Type := {
  num_invalid : Z;
  invalid_bases : list Invalid.t
}.

(** The body of the [for] loop of [find_invalid_bases]. *)
Definition note_invalid (SETTINGS : Settings.t) (invalid_dict : invalid_stats)
  (entry : nat * ascii) : invalid_stats :=
  let (pos, base) := entry in
  if negb (py_in [base] (Settings.valid_nucleobases SETTINGS)) then
    {| num_invalid := num_invalid invalid_dict + 1;
       invalid_bases := invalid_bases invalid_dict ++
                        [{| Invalid.pos := pos; Invalid.base := base |}] |}
  else invalid_dict.

(** [find_invalid_bases] (main.py, lines 88-103); the global [SETTINGS] is
    passed as an argument. Nothing in it can raise. *)
Definition find_invalid_bases (SETTINGS : Settings.t) (sequence : str)
  : invalid_stats :=
  fold_left (note_invalid SETTINGS) (enumerate sequence)
            {| num_invalid := 0; invalid_bases := [] |}.

(** ** [find_palindromes] *)

Module Palindrome.
Record t : Type := { pos : Z; length : Z }.
End Palindrome.

Record palindrome_stats : Type := {
  num_palindromes : Z;
  palindromes : list Palindrome.t
}.

(** [Counter(s)]: every element of [s] with its number of occurrences. *)
Definition Counter (s : str) : Dict.t ascii Z :=
  fold_left (fun counts c =>
               Dict.set counts c
                        match Dict.get counts c with
                        | Some n => n + 1
                        | None => 1
                        end) s Dict.empty.

(** [find_palindromes] (main.py, lines 106-149). The closure
    [expand_frontier] reads [sequence], [min_substring_len] and [min_bases]
    and updates [palindrome_stats], which is threaded through as state. *)
Section find_palindromes.
Variable sequence : str.
Variables min_substring_len min_bases : Z.

(** The body of the [while] loop of [expand_frontier], up to the update of
    [start] and [end]. *)
Definition record_palindrome (start end_ : Z) (stats : palindrome_stats)
  : palindrome_stats :=
  let substring := py_slice sequence start (end_ + 1) in
  if (min_substring_len <? len substring) && (min_bases <=? len (Counter substring))
  then {| num_palindromes := num_palindromes stats + 1;
          palindromes := palindromes stats ++
                         [{| Palindrome.pos := start;
                             Palindrome.length := len substring |}] |}
  else stats.

(** [end < len(sequence) and sequence[start] == sequence[end]] *)
Definition frontier_matches (start end_ : Z) : result bool :=
  if end_ <? len sequence then
    a <- py_index sequence start ;;
    b <- py_index sequence end_ ;;
    Ok (if eq_dec a b then true else false)
  else Ok false.

(** [while start >= 0 and end < len(sequence) and sequence[start] == sequence[end]];
    every round decreases [start], which bounds the loop. *)
Equations? expand_frontier (start end_ : Z) (stats : palindrome_stats)
  : result palindrome_stats by wf (Z.to_nat (start + 1)) lt :=
  expand_frontier start end_ stats with Z_le_dec 0 start := {
    | right _ := Ok stats
    | left _ with frontier_matches start end_ := {
        | Raise e := Raise e
        | Ok false := Ok stats
        | Ok true :=
            expand_frontier (start - 1) (end_ + 1)
                            (record_palindrome start end_ stats) } }.
Proof. lia. Qed.

(** [for i in range(len(sequence))]: odd centres, then even centres. *)
Definition find_palindromes : result palindrome_stats :=
  for_each (fun stats i =>
              stats <- expand_frontier i i stats ;;
              expand_frontier i (i + 1) stats)
           (map Z.of_nat (seq 0 (length sequence)))
           {| num_palindromes := 0; palindromes := [] |}.
End find_palindromes.

(** ** [find_k_mers] *)

(** The body of the [for] loop of [find_k_mers]. *)
Definition count_k_mer (k_mer_stats : Dict.t str Z) (substring : str)
  : result (Dict.t str Z) :=
  let k_mer_stats :=
    if negb (py_in substring (Dict.keys k_mer_stats))
    then Dict.set k_mer_stats substring 0
    else k_mer_stats in
  v <- Dict.getitem k_mer_stats substring ;;
  Ok (Dict.set k_mer_stats substring (v + 1)).

(** [find_k_mers] (main.py, lines 152-171). *)
Definition find_k_mers (sequence : str) (k : Z) : result (Dict.t str Z) :=
  windows <- substrings sequence k 1 ;;
  for_each count_k_mer windows Dict.empty.

(** ** [apply_foreach] *)

(** [apply_foreach] (main.py, lines 220-239); the keyword arguments are
    closed over by [analysis_func]. *)
Definition apply_foreach {A : Type} (seq_obj : seq_object)
  (analysis_func : str -> result A) : result (list A) :=
  for_each (fun stats seq =>
              seq_stats <- analysis_func seq ;; Ok (stats ++ [seq_stats]))
           (sequences seq_obj) [].

(** ** [find_top_k_mers] *)

(** [items.sort(key=lambda kv: kv[1], reverse=True)]: Python's sort is stable,
    also under [reverse=True], which fixes its result; it is rendered as the
    stable insertion sort. An item goes in front of the first item whose
    value is not larger than its own. *)
Fixpoint insert_by_value (kv : str * Z) (sorted : list (str * Z)) : list (str * Z) :=
  match sorted with
  | [] => [kv]
  | kv' :: rest =>
      if snd kv <? snd kv' then kv' :: insert_by_value kv rest
      else kv :: kv' :: rest
  end.

Definition sort_by_value_desc (items : list (str * Z)) : list (str * Z) :=
  fold_right insert_by_value [] items.

(** [get_top_values] (main.py, lines 195-200), a closure over [top]. *)
Definition get_top_values (top : Z) (d : Dict.t str Z) : list (str * Z) :=
  let items := Dict.items d in
  let items := sort_by_value_desc items in
  let top_n := py_slice items 0 top in
  top_n.

(** [if key not in aggregated.keys(): aggregated[key] = 0; aggregated[key] += value] *)
Definition aggregate_item (aggregated : Dict.t str Z) (item : str * Z)
  : result (Dict.t str Z) :=
  let (key, value) := item in
  let aggregated :=
    if negb (py_in key (Dict.keys aggregated))
    then Dict.set aggregated key 0
    else aggregated in
  v <- Dict.getitem aggregated key ;;
  Ok (Dict.set aggregated key (v + value)).

(** [find_top_k_mers] (main.py, lines 174-217). *)
Definition find_top_k_mers (seq_obj : seq_object) (top k : Z) (per_sequence : bool)
  : result (list (list (str * Z))) :=
  all_k_mer_stats <- apply_foreach seq_obj (fun seq => find_k_mers seq k) ;;
  let filtered := [] in
  if per_sequence then
    for_each (fun filtered seq_results =>
                let k_mer_stats := get_top_values top seq_results in
                Ok (filtered ++ [k_mer_stats]))
             all_k_mer_stats filtered
  else
    aggregated_k_mer_stats <-
      for_each (fun aggregated seq_results =>
                  for_each aggregate_item (Dict.items seq_results) aggregated)
               all_k_mer_stats Dict.empty ;;
    let k_mer_stats := get_top_values top aggregated_k_mer_stats in
    Ok (filtered ++ [k_mer_stats]).

(** ** [find_max], [find_min], [reduce_avg] *)

(** A float bound: a finite value or one of the two infinities. *)
Inductive bound : Type :=
| NegInf
| Finite (q : Q)
| PosInf.

Definition Qltb (x y : Q) : bool :=
  match (x ?= y)%Q with Lt => true | _ => false end.

(** [v > b] *)
Definition above (v : Q) (b : bound) : bool :=
  match b with
  | NegInf => true
  | Finite q => Qltb q v
  | PosInf => false
  end.

(** [v < b] *)
Definition below (v : Q) (b : bound) : bool :=
  match b with
  | NegInf => false
  | Finite q => Qltb v q
  | PosInf => true
  end.

(** The loop state of [find_max] and [find_min]:
    index, extreme value, record. *)
Definition extreme_state : Type := (nat * bound * StatRecord)%type.

(** The body of the [for] loop of [find_max] and [find_min]. *)
Definition extreme_step (better : Q -> bound -> bool) (stats : list StatRecord)
  (field : str) (state : extreme_state) (entry : nat * StatRecord)
  : result extreme_state :=
  let '(index, value, ret_dict) := state in
  let (i, stats_dict) := entry in
  v <- Dict.getitem stats_dict field ;;
  if better v value then
    ret_dict <- py_index stats (Z.of_nat i) ;;
    Ok (i, Finite v, ret_dict)
  else Ok (index, value, ret_dict).

(** [find_max] and [find_min] (main.py, lines 242-287) differ in the
    comparison and in the initial bound only. *)
Definition find_extreme (better : Q -> bound -> bool) (init : bound)
  (stats : list StatRecord) (field : str) : result (nat * StatRecord) :=
  let index := 0%nat in
  let value := init in
  ret_dict <- py_index stats 0 ;;
  final <- for_each (extreme_step better stats field) (enumerate stats)
                    (index, value, ret_dict) ;;
  let '(index, _, ret_dict) := final in
  Ok (index, ret_dict).

Definition find_max (stats : list StatRecord) (field : str)
  : result (nat * StatRecord) :=
  find_extreme above NegInf stats field.

Definition find_min (stats : list StatRecord) (field : str)
  : result (nat * StatRecord) :=
  find_extreme below PosInf stats field.

(** The float operations that [reduce_avg] uses: the literal [0.0], [+],
    [/], and the conversion of an [int] operand to a float. Nothing is
    assumed of them. *)
Class FloatArith (F : Type) : Type := {
  fzero : F;
  fadd : F -> F -> F;
  fdiv : F -> F -> F;
  of_int : Z -> F
}.

(** Python's floats: IEEE 754 binary64, every operation rounded to the
    nearest double, ties to even; an [int] operand becomes the nearest
    double. *)
#[export] Instance binary64 : FloatArith float := {|
  fzero := 0%float;
  fadd := PrimFloat.add;
  fdiv := PrimFloat.div;
  of_int := fun n => SF2Prim (binary_normalize prec emax n 0 false)
|}.

(** Exact arithmetic on the rationals, for the records of exact quotients. *)
#[export] Instance rational : FloatArith Q := {|
  fzero := 0%Q;
  fadd := Qplus;
  fdiv := Qdiv;
  of_int := inject_Z
|}.

(** [val / n] for a float [val] and an integer [n]. *)
Definition float_div {F : Type} `{FloatArith F} (val : F) (n : Z) : result F :=
  if n =? 0 then Raise ZeroDivisionError else Ok (fdiv val (of_int n)).

(** [aggregated[key] += value] *)
Definition accumulate {F : Type} `{FloatArith F} (aggregated : Dict.t str F)
  (item : str * F) : result (Dict.t str F) :=
  let (key, value) := item in
  v <- Dict.getitem aggregated key ;;
  Ok (Dict.set aggregated key (fadd v value)).

(** [reduce_avg] (main.py, lines 290-308). *)
Definition reduce_avg {F : Type} `{FloatArith F} (stats : list (Dict.t str F))
  : result (Dict.t str F) :=
  first <- py_index stats 0 ;;
  let aggregated : Dict.t str F :=
    fold_left (fun agg (item : str * F) => Dict.set agg (fst item) fzero)
              (Dict.items first) Dict.empty in
  aggregated <-
    for_each (fun aggregated stats_dict =>
                for_each accumulate (Dict.items stats_dict) aggregated)
             stats aggregated ;;
  for_each (fun averaged (item : str * F) =>
              let (key, val) := item in
              q <- float_div val (len stats) ;; Ok (Dict.set averaged key q))
           (Dict.items aggregated) Dict.empty.

(** ** [seq_to_img] (utils.py) *)

(** [colour_lookup] (utils.py, line 49): [zip] stops at the shorter list. *)
Definition colour_lookup {C : Type} (bases : list str) (colours : list C)
  : Dict.t str C :=
  dict_of (combine bases colours).

(** The nested list [rows] that [seq_to_img] builds (utils.py, lines 49-60)
    and hands to [np.array]. A colour is any value; an unknown base takes
    the colour of the reserved key [X]. *)
Definition seq_to_img_rows {C : Type} (sequences : list str) (colours : list C)
  (bases : list str) : result (list (list C)) :=
  let colour_lookup := colour_lookup bases colours in
  for_each (fun rows seq =>
              row <- for_each (fun row (base : ascii) =>
                                 match Dict.getitem colour_lookup [base] with
                                 | Ok colour => Ok (row ++ [colour])
                                 | Raise KeyError =>
                                     colour <- Dict.getitem colour_lookup (str_of "X") ;;
                                     Ok (row ++ [colour])
                                 | Raise e => Raise e
                                 end)
                              seq [] ;;
              Ok (rows ++ [row]))
           sequences [].

(** ** The script ([if __name__ == "__main__"]) *)

#[export] Instance nat_EqDec : EqDec nat := Nat.eq_dec.
#[export] Instance Z_EqDec : EqDec Z := Z.eq_dec.

(** The reports that the script computes from the settings and the dataset
    (main.py, lines 321-402), each up to the point where it is handed to
    [save_json]. The definitions carry the names of the script's variables. *)
Module Main.

(** [seq_dict] (main.py, lines 328-345): for every sequence with a
    palindrome, the palindromic substrings by start position. *)
Definition seq_dict (SETTINGS : Settings.t) (seq_obj : seq_object)
  : result (Dict.t nat (Dict.t Z str)) :=
  all_palindrome_stats <-
    apply_foreach seq_obj
      (fun seq => find_palindromes seq (Settings.min_basepair_len SETTINGS)
                                   (Settings.min_bases SETTINGS)) ;;
  for_each (fun (seq_dict : Dict.t nat (Dict.t Z str)) (entry : nat * palindrome_stats) =>
              let (i, stats) := entry in
              if 0 <? num_palindromes stats then
                palindromes <-
                  for_each (fun acc p =>
                              seq <- py_index (sequences seq_obj) (Z.of_nat i) ;;
                              Ok (acc ++ [(Palindrome.pos p,
                                           py_slice seq (Palindrome.pos p)
                                                    (Palindrome.pos p
                                                     + Palindrome.length p))]))
                           (palindromes stats) [] ;;
                let palindrome_dict := dict_of palindromes in
                Ok (Dict.set seq_dict i palindrome_dict)
              else Ok seq_dict)
           (enumerate all_palindrome_stats) Dict.empty.

(** [gc_dict] (main.py, lines 369-376); the entries of the dictionary
    display are evaluated from top to bottom. *)
Record gc_report : Type := {
  avg_gc : StatRecord;
  max_gc_dist : nat * StatRecord;
  max_gc_skew : nat * StatRecord;
  min_gc_dist : nat * StatRecord;
  min_gc_skew : nat * StatRecord
}.

Definition gc_dict (seq_obj : seq_object) : result gc_report :=
  all_gc_stats <- apply_foreach seq_obj (fun seq => get_gc_stats seq None) ;;
  avg_gc <- reduce_avg all_gc_stats ;;
  max_gc_dist <- find_max all_gc_stats (str_of "gc_distribution") ;;
  max_gc_skew <- find_max all_gc_stats (str_of "gc_skew") ;;
  min_gc_dist <- find_min all_gc_stats (str_of "gc_distribution") ;;
  min_gc_skew <- find_min all_gc_stats (str_of "gc_skew") ;;
  Ok {| avg_gc := avg_gc;
        max_gc_dist := max_gc_dist; max_gc_skew := max_gc_skew;
        min_gc_dist := min_gc_dist; min_gc_skew := min_gc_skew |}.

(** [dnt_dict] (main.py, lines 382-386). *)
Record dnt_report : Type := {
  all_dnt_stats : list StatRecord;
  avg_dnt : StatRecord
}.

Definition dnt_dict (SETTINGS : Settings.t) (seq_obj : seq_object)
  : result dnt_report :=
  all_dinucleotide_stats <- apply_foreach seq_obj (get_dinucleotide_freqs SETTINGS) ;;
  avg_dnt <- reduce_avg all_dinucleotide_stats ;;
  Ok {| all_dnt_stats := all_dinucleotide_stats; avg_dnt := avg_dnt |}.

(** [invalid_dict] (main.py, lines 392-400): for every sequence with an
    invalid base, the invalid bases by position. *)
Definition invalid_dict (SETTINGS : Settings.t) (seq_obj : seq_object)
  : result (Dict.t nat (Dict.t nat ascii)) :=
  all_invalid_stats <-
    apply_foreach seq_obj (fun seq => Ok (find_invalid_bases SETTINGS seq)) ;;
  for_each (fun (invalid_dict : Dict.t nat (Dict.t nat ascii))
                (entry : nat * invalid_stats) =>
              let (i, stat) := entry in
              if 0 <? num_invalid stat then
                invalid_bases <-
                  for_each (fun acc s =>
                              seq <- py_index (sequences seq_obj) (Z.of_nat i) ;;
                              invalid_base <- py_index seq (Z.of_nat (Invalid.pos s)) ;;
                              Ok (acc ++ [(Invalid.pos s, invalid_base)]))
                           (invalid_bases stat) [] ;;
                Ok (Dict.set invalid_dict i (dict_of invalid_bases))
              else Ok invalid_dict)
           (enumerate all_invalid_stats) Dict.empty.
End Main.

(** ** Notions used in the statements *)

(** *** Windows *)

(** The window of [w] elements of [s] at offset [off]. *)
Definition window {A : Type} (s : list A) (off w : nat) : list A :=
  firstn w (skipn off s).

(** The number of windows of [w] characters, [h] apart, that lie fully within [s]. *)
Definition num_windows (s : str) (w h : Z) : nat :=
  if len s <? w then 0%nat else Z.to_nat ((len s - w) / h + 1).

(** [sub] occurs in [s] as a contiguous substring. *)
Definition occurs_in (sub s : str) : Prop :=
  exists pre post, s = pre ++ sub ++ post.

(** *** Counts *)

(** [sum] of a list of integers, by structural recursion. *)
Fixpoint Zsum (l : list Z) : Z :=
  match l with
  | [] => 0
  | x :: rest => x + Zsum rest
  end.

(** The count of key [k] in a k-mer mapping, [0] when [k] is absent. *)
Definition count_of (d : Dict.t str Z) (k : str) : Z :=
  match Dict.get d k with Some n => n | None => 0 end.

(** What one round of the loop of [find_k_mers] does to the mapping. *)
Definition count_up (d : Dict.t str Z) (sub : str) : Dict.t str Z :=
  Dict.set d sub (count_of d sub + 1).

(** What one round of the inner loop of the aggregation does to the combined
    mapping. *)
Definition add_item (aggregated : Dict.t str Z) (item : str * Z) : Dict.t str Z :=
  Dict.set aggregated (fst item) (count_of aggregated (fst item) + snd item).

(** What one round of the loop of [get_dinucleotide_freqs] does to the counts. *)
Definition count_if_key (counts : Dict.t str Z) (d : str) : Dict.t str Z :=
  if py_in d (Dict.keys counts)
  then Dict.set counts d (count_of counts d + 1)
  else counts.

(** [item] is the entry of [key]. *)
Definition has_key {V : Type} (key : str) (item : str * V) : bool :=
  if eq_dec (fst item) key then true else false.

(** *** Ranking *)

(** The position at which [x] is first met in [l] ([length l] if never). *)
Fixpoint first_index {K : Type} `{EqDec K} (x : K) (l : list K) : nat :=
  match l with
  | [] => 0%nat
  | y :: rest => if eq_dec x y then 0%nat else S (first_index x rest)
  end.

(** The keys in the order in which the aggregation of [find_top_k_mers] meets
    them: dataset order, then each mapping's insertion order. *)
Definition encounter_order (all_k_mer_stats : list (Dict.t str Z)) : list str :=
  concat (map Dict.keys all_k_mer_stats).

(** The sum of the counts of [key] across the per-sequence mappings. *)
Definition total_count (all_k_mer_stats : list (Dict.t str Z)) (key : str) : Z :=
  Zsum (map (fun d => count_of d key) all_k_mer_stats).

(** The ranking order: larger count first; among equal counts, the key with
    the smaller position [pos] first. *)
Definition ranks_before (pos : str -> nat) (a b : str * Z) : Prop :=
  snd b < snd a \/ (snd a = snd b /\ (pos (fst a) < pos (fst b))%nat).

(** [l] is a ranking of k-mers of the dataset: every entry carries the sum of
    its key's counts across all sequences, counts do not increase along [l],
    and of two entries with equal counts the one whose key was met first
    comes first. *)
Definition ranked_by_count (all_k_mer_stats : list (Dict.t str Z))
  (l : list (str * Z)) : Prop :=
  (forall key count, In (key, count) l -> count = total_count all_k_mer_stats key)
  /\ StronglySorted (fun a b => snd b <= snd a) l
  /\ (forall (i j : nat) (a b : str * Z),
         (i < j)%nat -> nth_error l i = Some a -> nth_error l j = Some b ->
         snd a = snd b ->
         (first_index (fst a) (encounter_order all_k_mer_stats)
          < first_index (fst b) (encounter_order all_k_mer_stats))%nat).

(** *** Palindromes *)

(** The number of distinct characters of [s]. *)
Definition distinct_chars (s : str) : nat := length (nodup ascii_dec s).

(** Every pair of positions strictly between [lo] and [hi] that mirror each
    other about their middle holds the same character. *)
Definition mirrored (s : str) (lo hi : Z) : Prop :=
  forall a b : nat,
    lo < Z.of_nat a -> (a <= b)%nat -> Z.of_nat b < hi ->
    Z.of_nat a + Z.of_nat b = lo + hi ->
    nth_error s a = nth_error s b.

(** What a palindrome record promises about the sequence it was found in. *)
Definition qualifies (s : str) (min_substring_len min_bases : Z) (r : Palindrome.t)
  : Prop :=
  let start := Palindrome.pos r in
  let length := Palindrome.length r in
  let substring := window s (Z.to_nat start) (Z.to_nat length) in
  0 <= start /\ 1 <= length /\ start + length <= len s
  /\ substring = rev substring
  /\ min_substring_len < length
  /\ min_bases <= Z.of_nat (distinct_chars substring).

(** *** Stat records *)

(** [sum] of a list of rationals. *)
Fixpoint Qsum (l : list Q) : Q :=
  match l with
  | [] => 0%Q
  | x :: rest => (x + Qsum rest)%Q
  end.

(** All records carry the same set of field names. *)
Definition same_schema {V : Type} (stats : list (Dict.t str V)) : Prop :=
  forall r r', In r stats -> In r' stats ->
  forall key, In key (Dict.keys r) <-> In key (Dict.keys r').

(** [field] is one of the field names of the records. *)
Definition schema_has {V : Type} (stats : list (Dict.t str V)) (field : str) : Prop :=
  exists r, In r stats /\ In field (Dict.keys r).

(** [i] is the first index at which [field] takes its maximum over [stats],
    and [r] is the record at that index. *)
Definition first_max (stats : list StatRecord) (field : str)
  (i : nat) (r : StatRecord) : Prop :=
  exists v, nth_error stats i = Some r /\ Dict.get r field = Some v
    /\ forall j r' v', nth_error stats j = Some r' -> Dict.get r' field = Some v' ->
                       (v' <= v)%Q /\ ((j < i)%nat -> (v' < v)%Q).

(** [i] is the first index at which [field] takes its minimum over [stats],
    and [r] is the record at that index. *)
Definition first_min (stats : list StatRecord) (field : str)
  (i : nat) (r : StatRecord) : Prop :=
  exists v, nth_error stats i = Some r /\ Dict.get r field = Some v
    /\ forall j r' v', nth_error stats j = Some r' -> Dict.get r' field = Some v' ->
                       (v <= v')%Q /\ ((j < i)%nat -> (v < v')%Q).

(** What the loop state of [find_max] and [find_min] says once the records
    [pre] have been visited; [lt v' v] reads: [v] is the better value. *)
Definition extreme_inv (lt : Q -> Q -> Prop) (init : bound) (field : str)
  (pre : list StatRecord) (state : extreme_state) : Prop :=
  match pre with
  | [] => exists r0, state = (0%nat, init, r0)
  | _ :: _ =>
      let '(i, value, r) := state in
      exists v, value = Finite v
        /\ nth_error pre i = Some r /\ Dict.get r field = Some v
        /\ forall j r' v', nth_error pre j = Some r' -> Dict.get r' field = Some v' ->
                           ~ lt v v' /\ ((j < i)%nat -> lt v' v)
  end.

(** *** Composition and dinucleotides *)

(** The number of valid characters of a sequence: its length when no alphabet
    is given, else the number of its characters that are in the alphabet. *)
Definition total_valid (sequence : str) (valid_nucleobases : option (list str)) : Z :=
  match valid_nucleobases with
  | None => len sequence
  | Some valid => len (filter (fun base => py_in [base] valid) sequence)
  end.

(** The key space of the dinucleotide analyzer: all pairs of the alphabet. *)
Definition dinucleotide_keys (alphabet : list str) : list str :=
  flat_map (fun i => map (fun j => i ++ j) alphabet) alphabet.

(** The non-overlapping two-character windows of a sequence. *)
Definition dinucleotide_windows (sequence : str) : list str :=
  map (fun i => window sequence (2 * i) 2) (seq 0 (length sequence / 2)).

(** The number of windows of [sequence] that are keys of the key space. *)
Definition matched_total (alphabet : list str) (sequence : str) : Z :=
  len (filter (fun w => py_in w (dinucleotide_keys alphabet))
              (dinucleotide_windows sequence)).

(** The number of windows of [sequence] that read [key]. *)
Definition matched (sequence : str) (key : str) : Z :=
  Z.of_nat (count_occ eq_dec (dinucleotide_windows sequence) key).

(** *** Sample inputs *)

(** The dataset of the test suite. *)
Definition toy_dataset : seq_object :=
  {| num_sequences := 5;
     sequence_length := 10;
     sequences := [ str_of "AAAAAAAAAA"; str_of "ABBBBBBBBB"; str_of "CCCCCCCCCX";
                    str_of "ABCABCABCA"; str_of "ABACACBBCA" ] |}.

(** The alphabet of the test suite: it has no [G]. *)
Definition abc_alphabet : list str := [str_of "A"; str_of "B"; str_of "C"].

(** A setting without any valid nucleobase. *)
Definition empty_alphabet : Settings.t :=
  {| Settings.valid_nucleobases := [];
     Settings.min_basepair_len := 20;
     Settings.min_bases := 3;
     Settings.k_values := [];
     Settings.top_n := 0 |}.

(** Three records over the schema [{x}]; the maximum of [x] is met twice. *)
Definition example_records : list StatRecord :=
  [ [(str_of "x", 2%Q)]; [(str_of "x", 4%Q)]; [(str_of "x", 4%Q)] ].

(** Two records of doubles whose schemas differ: the second lacks the
    field [y]. *)
Definition uneven_records : list (Dict.t str float) :=
  [ [(str_of "x", 2%float); (str_of "y", 1%float)]; [(str_of "x", 4%float)] ].

(** Three records of doubles with [x = 0.1]. *)
Definition tenth_records : list (Dict.t str float) :=
  [ [(str_of "x", 0.1%float)]; [(str_of "x", 0.1%float)]; [(str_of "x", 0.1%float)] ].

(** A setting with the alphabet [A, C]. *)
Definition ac_settings : Settings.t :=
  {| Settings.valid_nucleobases := [str_of "A"; str_of "C"];
     Settings.min_basepair_len := 20;
     Settings.min_bases := 3;
     Settings.k_values := [];
     Settings.top_n := 0 |}.

(** *** Invalid bases *)

(** The characters of [l] outside the alphabet, each with its position, the
    first character of [l] standing at position [offset]. *)
Fixpoint invalid_from (alphabet : list str) (offset : nat) (l : str)
  : list Invalid.t :=
  match l with
  | [] => []
  | b :: rest =>
      if py_in [b] alphabet then invalid_from alphabet (S offset) rest
      else {| Invalid.pos := offset; Invalid.base := b |}
           :: invalid_from alphabet (S offset) rest
  end.

(** *** Occurrences and rankings within one mapping *)

(** The number of offsets at which [sub] occurs in [s]. *)
Definition occurrences (sub s : str) : nat :=
  length (filter (fun off => if eq_dec (window s off (length sub)) sub then true else false)
                 (seq 0 (length s + 1 - length sub))).


(** The float sum of [vs] as [reduce_avg] forms it: from [0.0], adding the
    values from left to right. *)
Definition fsum {F : Type} `{FloatArith F} (vs : list F) : F :=
  fold_left fadd vs fzero.

(** The values of [key], in order, in the records that carry it. *)
Definition present_values {V : Type} (key : str) (stats : list (Dict.t str V))
  : list V :=
  flat_map (fun r => match Dict.get r key with Some v => [v] | None => [] end) stats.

(** The order in which the detector meets palindromes: by centre from left
    to right ([2 * pos + length] is twice the centre, plus one), and about
    one centre from the inside out. *)
Definition centre_before (r1 r2 : Palindrome.t) : Prop :=
  let c1 := 2 * Palindrome.pos r1 + Palindrome.length r1 in
  let c2 := 2 * Palindrome.pos r2 + Palindrome.length r2 in
  c1 < c2 \/ (c1 = c2 /\ Palindrome.length r1 < Palindrome.length r2).

(** All records so far lie before the frontier [(start, end_)]. *)
Definition behind_frontier (start end_ : Z) (stats : palindrome_stats) : Prop :=
  StronglySorted centre_before (palindromes stats)
  /\ Forall (fun r => centre_before r {| Palindrome.pos := start;
                                         Palindrome.length := end_ - start + 1 |})
            (palindromes stats).

(** [w] is the longest qualifying palindromic substring of [s] that starts
    at position [p]. *)
Definition longest_palindrome_at (SETTINGS : Settings.t) (s : str) (p : Z) (w : str)
  : Prop :=
  let ok (n : Z) :=
    qualifies s (Settings.min_basepair_len SETTINGS) (Settings.min_bases SETTINGS)
              {| Palindrome.pos := p; Palindrome.length := n |} in
  w = window s (Z.to_nat p) (length w)
  /\ ok (len w)
  /\ forall n, ok n -> n <= len w.

(** The pixel that the image has for [base]: its colour, or the colour of
    the reserved key [X] when [base] has none. *)
Definition pixel_of {C : Type} (lookup : Dict.t str C) (base : ascii) (colour : C)
  : Prop :=
  Dict.get lookup [base] = Some colour
  \/ (Dict.get lookup [base] = None /\ Dict.get lookup (str_of "X") = Some colour).

(** [sequence] can be normalised: some two-character window of it is a key,
    or there is no key at all. *)
Definition has_pair (SETTINGS : Settings.t) (sequence : str) : Prop :=
  dinucleotide_keys (Settings.valid_nucleobases SETTINGS) = []
  \/ 0 < matched_total (Settings.valid_nucleobases SETTINGS) sequence.

(** * Properties *)

(** ** The error monad *)

Lemma bind_Ok {A B : Type} (c : result A) (k : A -> result B) (b : B) :
  bind c k = Ok b -> exists a, c = Ok a /\ k a = Ok b.
Proof. destruct c as [a|e]; simpl; [eauto | discriminate]. Qed.

Lemma for_each_app {A S : Type} (body : S -> A -> result S) (xs ys : list A) (acc : S) :
  for_each body (xs ++ ys) acc = (acc' <- for_each body xs acc ;; for_each body ys acc').
Proof.
  revert acc; induction xs as [|x xs IH]; intros acc; simpl; [reflexivity|].
  destruct (body acc x); simpl; auto.
Qed.

(** A loop whose body never raises is a left fold. *)
Lemma for_each_total {A S : Type} (body : S -> A -> result S) (f : S -> A -> S)
  (xs : list A) (acc : S) :
  (forall s a, body s a = Ok (f s a)) ->
  for_each body xs acc = Ok (fold_left f xs acc).
Proof.
  intros Hb; revert acc; induction xs as [|x xs IH]; intros acc; simpl; auto.
  rewrite Hb; simpl; auto.
Qed.

(** Loop invariant rule for [for_each]. *)
Lemma for_each_inv {A S : Type} (P : S -> Prop) (body : S -> A -> result S)
  (xs : list A) (acc : S) :
  P acc ->
  (forall s a, In a xs -> P s -> exists s', body s a = Ok s' /\ P s') ->
  exists s', for_each body xs acc = Ok s' /\ P s'.
Proof.
  revert acc; induction xs as [|x xs IH]; intros acc Hacc Hstep; simpl.
  - eauto.
  - destruct (Hstep acc x (or_introl eq_refl) Hacc) as (s' & -> & Hs'); simpl.
    apply IH; auto. intros s a Ha; apply Hstep; right; exact Ha.
Qed.

(** ** Slices and ranges *)

Lemma len_nonneg {A : Type} (l : list A) : 0 <= len l.
Proof. unfold len; lia. Qed.

Lemma py_slice_window {A : Type} (s : list A) (lo hi : Z) :
  0 <= lo <= hi ->
  py_slice s lo hi = window s (Z.to_nat lo) (Z.to_nat hi - Z.to_nat lo).
Proof.
  intros Hlo. unfold py_slice, window, clamp, len.
  destruct (Z.ltb_spec lo 0); [lia|]. destruct (Z.ltb_spec hi 0); [lia|].
  destruct (Z_le_gt_dec (Z.of_nat (length s)) lo) as [Hge|Hlt].
  - rewrite !skipn_all2 by lia. now rewrite !firstn_nil.
  - rewrite (Z.min_l lo) by lia.
    destruct (Z_le_gt_dec hi (Z.of_nat (length s))).
    + rewrite Z.min_l by lia. reflexivity.
    + rewrite Z.min_r by lia. rewrite Nat2Z.id.
      rewrite !firstn_all2; auto; rewrite length_skipn; lia.
Qed.

Lemma window_length {A : Type} (s : list A) (off w : nat) :
  length (window s off w) = Nat.min w (length s - off).
Proof. unfold window. now rewrite length_firstn, length_skipn. Qed.

Lemma py_range_pos (stop step : Z) :
  1 <= step ->
  py_range 0 stop step =
  Ok (map (fun i => Z.of_nat i * step)
          (seq 0 (if 0 <? stop then Z.to_nat ((stop - 1) / step + 1) else 0%nat))).
Proof.
  intros Hs. unfold py_range, range_len.
  destruct (Z.eqb_spec step 0); [lia|].
  destruct (Z.ltb_spec 0 step); [|lia].
  rewrite Z.sub_0_r. reflexivity.
Qed.

(** ** The window scanner *)

Section substrings_facts.
Variable s : str.
Variables w h : Z.
Hypothesis Hw : 1 <= w.
Hypothesis Hh : 1 <= h.

Lemma num_windows_fits (i : nat) :
  (i < num_windows s w h)%nat <-> Z.of_nat i * h + w <= len s.
Proof.
  unfold num_windows. pose proof (len_nonneg s) as Hn.
  destruct (Z.ltb_spec (len s) w) as [Hlt|Hge].
  - split; [lia|]. intros Hfit. assert (0 <= Z.of_nat i * h) by nia. lia.
  - assert (Hq : 0 <= (len s - w) / h) by (apply Z.div_pos; lia).
    split; intros Hi.
    + assert (Z.of_nat i <= (len s - w) / h) by lia.
      assert (h * ((len s - w) / h) <= len s - w)
        by (apply Z.mul_div_le; lia).
      nia.
    + assert (Z.of_nat i <= (len s - w) / h)
        by (apply Z.div_le_lower_bound; lia).
      lia.
Qed.

Lemma slice_fits (i : nat) :
  Z.of_nat i * h + w <= len s ->
  py_slice s (Z.of_nat i * h) (Z.of_nat i * h + w)
  = window s (i * Z.to_nat h) (Z.to_nat w)
  /\ len (window s (i * Z.to_nat h) (Z.to_nat w)) = w.
Proof.
  intros Hfit. rewrite py_slice_window by nia.
  replace (Z.to_nat (Z.of_nat i * h)) with (i * Z.to_nat h)%nat by nia.
  replace (Z.to_nat (Z.of_nat i * h + w) - i * Z.to_nat h)%nat
    with (Z.to_nat w) by nia.
  split; [reflexivity|].
  unfold len in *. rewrite window_length. nia.
Qed.

Lemma slice_overshoots (i : nat) :
  len s < Z.of_nat i * h + w ->
  len (py_slice s (Z.of_nat i * h) (Z.of_nat i * h + w)) <> w.
Proof.
  intros Hover. rewrite py_slice_window by nia.
  unfold len in *. rewrite window_length. nia.
Qed.

(** The loop yields every window up to the first one that overshoots. *)
Lemma substrings_loop_spec (m a : nat) :
  (a <= num_windows s w h)%nat ->
  substrings_loop s w (map (fun i => Z.of_nat i * h) (seq a m))
  = map (fun i => window s (i * Z.to_nat h) (Z.to_nat w))
        (seq a (Nat.min m (num_windows s w h - a))).
Proof.
  revert a; induction m as [|m IH]; intros a Ha; simpl; [reflexivity|].
  destruct (Nat.eq_dec a (num_windows s w h)) as [->|Hne].
  - rewrite Nat.sub_diag; simpl.
    destruct (Z.eqb_spec
                (len (py_slice s (Z.of_nat (num_windows s w h) * h)
                               (Z.of_nat (num_windows s w h) * h + w))) w) as [Heq|];
      [|reflexivity].
    exfalso. revert Heq. apply slice_overshoots.
    pose proof (num_windows_fits (num_windows s w h)). lia.
  - assert (Hfit : Z.of_nat a * h + w <= len s)
      by (apply num_windows_fits; lia).
    destruct (slice_fits a Hfit) as [-> Hlen]. rewrite Hlen, Z.eqb_refl.
    destruct (num_windows s w h - a)%nat as [|r] eqn:Hr; [lia|]. simpl.
    rewrite IH by lia.
    replace (num_windows s w h - S a)%nat with r by lia. reflexivity.
Qed.

Lemma num_windows_le_range :
  (num_windows s w h
   <= (if (0 <? len s)%Z then Z.to_nat ((len s - 1) / h + 1) else 0))%nat.
Proof.
  unfold num_windows. pose proof (len_nonneg s).
  destruct (Z.ltb_spec (len s) w); [lia|].
  destruct (Z.ltb_spec 0 (len s)); [|lia].
  assert ((len s - w) / h <= (len s - 1) / h) by (apply Z.div_le_mono; lia).
  assert (0 <= (len s - w) / h) by (apply Z.div_pos; lia).
  lia.
Qed.

Lemma substrings_eq :
  substrings s w h
  = Ok (map (fun i => window s (i * Z.to_nat h) (Z.to_nat w)) (seq 0 (num_windows s w h))).
Proof.
  unfold substrings. rewrite py_range_pos by exact Hh. simpl.
  rewrite substrings_loop_spec by lia.
  rewrite Nat.sub_0_r, Nat.min_r by exact num_windows_le_range.
  reflexivity.
Qed.
End substrings_facts.

(** C7: for [window_len >= 1] and [hop_len >= 1] the scanner yields, in order,
    exactly the windows [sequence[i*hop_len .. i*hop_len + window_len)] for
    [i = 0, 1, 2, ...] as long as the window lies fully within the sequence
    ([i < n] exactly when window [i] fits); every yielded substring has length
    [window_len], so no partial window is yielded. *)
Theorem substrings_yields_full_windows (sequence : str) (window_len hop_len : Z) :
  1 <= window_len -> 1 <= hop_len ->
  exists n : nat,
    substrings sequence window_len hop_len
    = Ok (map (fun i => window sequence (i * Z.to_nat hop_len) (Z.to_nat window_len))
              (seq 0 n))
    /\ (forall i : nat,
           (i < n)%nat <-> Z.of_nat i * hop_len + window_len <= len sequence)
    /\ (forall i : nat, (i < n)%nat ->
           len (window sequence (i * Z.to_nat hop_len) (Z.to_nat window_len))
           = window_len).
Proof.
  intros Hw Hh. exists (num_windows sequence window_len hop_len).
  split; [apply substrings_eq; assumption|].
  split; [intros i; apply num_windows_fits; assumption|].
  intros i Hi. apply slice_fits; try assumption.
  apply num_windows_fits; assumption.
Qed.

Lemma substrings_yields_full_windows_witness :
  1 <= 3 /\ 1 <= 2 /\
  exists n : nat,
    substrings (str_of "ABCDEFG") 3 2
    = Ok (map (fun i => window (str_of "ABCDEFG") (i * Z.to_nat 2) (Z.to_nat 3))
              (seq 0 n))
    /\ (forall i : nat, (i < n)%nat <-> Z.of_nat i * 2 + 3 <= len (str_of "ABCDEFG"))
    /\ (forall i : nat, (i < n)%nat ->
           len (window (str_of "ABCDEFG") (i * Z.to_nat 2) (Z.to_nat 3)) = 3).
Proof.
  split; [lia|]. split; [lia|].
  apply (@substrings_yields_full_windows (str_of "ABCDEFG") 3 2); lia.
Defined.

(** ** Dictionaries *)

Section Dict_facts.
Context {K V : Type} `{EqDec K}.
Implicit Types (d : Dict.t K V) (k : K) (v : V).

Lemma py_in_spec (x : K) (l : list K) : py_in x l = true <-> In x l.
Proof.
  unfold py_in. rewrite existsb_exists. split.
  - intros (y & Hy & Heq). destruct (eq_dec x y); [subst; auto|discriminate].
  - intros Hx. exists x. split; auto. destruct (eq_dec x x); congruence.
Qed.

Lemma py_in_false (x : K) (l : list K) : py_in x l = false <-> ~ In x l.
Proof. rewrite <- py_in_spec. destruct (py_in x l); intuition congruence. Qed.

Lemma get_None d k : Dict.get d k = None <-> ~ In k (Dict.keys d).
Proof.
  induction d as [|[k' v'] d IH]; simpl; [tauto|].
  destruct (eq_dec k k'); [subst|]; split; intros Hn.
  - discriminate.
  - exfalso; auto.
  - intros [->|Hin]; [congruence|]. now apply IH in Hn.
  - apply IH. tauto.
Qed.

Lemma get_Some_in d k v : Dict.get d k = Some v -> In (k, v) d.
Proof.
  induction d as [|[k' v'] d IH]; simpl; [discriminate|].
  destruct (eq_dec k k'); [intros [= ->]; subst; auto|auto].
Qed.

Lemma in_keys_get d k : In k (Dict.keys d) -> exists v, Dict.get d k = Some v.
Proof.
  intros Hin. destruct (Dict.get d k) as [v|] eqn:Hg; [eauto|].
  now apply get_None in Hg.
Qed.

Lemma in_wf_get d k v : Dict.wf d -> In (k, v) d -> Dict.get d k = Some v.
Proof.
  unfold Dict.wf. induction d as [|[k' v'] d IH]; simpl; [tauto|].
  intros Hnd [[= -> ->]|Hin].
  - destruct (eq_dec k k); congruence.
  - inversion Hnd; subst. destruct (eq_dec k k') as [->|]; auto.
    exfalso. match goal with Hn : ~ In _ _ |- _ => apply Hn end.
    change k' with (fst (k', v)). now apply in_map.
Qed.

Lemma get_set_same d k v : Dict.get (Dict.set d k v) k = Some v.
Proof.
  induction d as [|[k' v'] d IH]; simpl.
  - destruct (eq_dec k k); congruence.
  - destruct (eq_dec k k') as [->|Hne]; simpl.
    + destruct (eq_dec k' k'); congruence.
    + destruct (eq_dec k k'); congruence.
Qed.

Lemma get_set_other d k k' v : k' <> k -> Dict.get (Dict.set d k v) k' = Dict.get d k'.
Proof.
  intros Hne. induction d as [|[k0 v0] d IH]; simpl.
  - destruct (eq_dec k' k); congruence.
  - destruct (eq_dec k k0) as [->|]; simpl.
    + destruct (eq_dec k' k0); congruence.
    + destruct (eq_dec k' k0); auto.
Qed.

Lemma set_present d k v : In k (Dict.keys d) -> Dict.keys (Dict.set d k v) = Dict.keys d.
Proof.
  induction d as [|[k' v'] d IH]; simpl; [tauto|].
  intros Hin. destruct (eq_dec k k') as [->|Hne]; simpl; [reflexivity|].
  f_equal. apply IH. destruct Hin; congruence.
Qed.

Lemma set_absent d k v : ~ In k (Dict.keys d) -> Dict.set d k v = d ++ [(k, v)].
Proof.
  induction d as [|[k' v'] d IH]; simpl; [reflexivity|].
  intros Hn. destruct (eq_dec k k') as [->|Hne]; [tauto|].
  f_equal. apply IH. tauto.
Qed.

Lemma set_set d k v v' : Dict.set (Dict.set d k v) k v' = Dict.set d k v'.
Proof.
  induction d as [|[k' v0] d IH]; simpl.
  - destruct (eq_dec k k); congruence.
  - destruct (eq_dec k k') as [->|Hne]; simpl.
    + destruct (eq_dec k' k'); congruence.
    + destruct (eq_dec k k'); congruence.
Qed.

Lemma in_keys_set d k k' v :
  In k' (Dict.keys (Dict.set d k v)) <-> k' = k \/ In k' (Dict.keys d).
Proof.
  destruct (in_dec eq_dec k (Dict.keys d)) as [Hin|Hn].
  - rewrite set_present by assumption. intuition congruence.
  - rewrite set_absent by assumption. unfold Dict.keys.
    rewrite map_app, in_app_iff. simpl. intuition congruence.
Qed.

Lemma wf_set d k v : Dict.wf d -> Dict.wf (Dict.set d k v).
Proof.
  unfold Dict.wf. intros Hwf.
  destruct (in_dec eq_dec k (Dict.keys d)) as [Hin|Hn].
  - now rewrite set_present.
  - rewrite set_absent by assumption. unfold Dict.keys in *.
    rewrite map_app. simpl.
    apply NoDup_app; [assumption|repeat constructor; simpl; tauto|].
    intros x Hx [<-|[]]. contradiction.
Qed.

Lemma in_values_set d k v (x : V) :
  In x (Dict.values (Dict.set d k v)) -> x = v \/ In x (Dict.values d).
Proof.
  induction d as [|[k' v'] d IH]; simpl; [intuition|].
  destruct (eq_dec k k'); simpl; intuition.
Qed.

(** Assigning to the keys [ws] in turn adds exactly these keys. *)
Section fold_set.
Variable g : Dict.t K V -> K -> V.

Lemma fold_set_keys (ws : list K) d k :
  In k (Dict.keys (fold_left (fun d k => Dict.set d k (g d k)) ws d)) <-> In k (Dict.keys d) \/ In k ws.
Proof.
  revert d; induction ws as [|x ws IH]; intros d; simpl; [tauto|].
  rewrite IH, in_keys_set. intuition congruence.
Qed.

Lemma fold_set_wf (ws : list K) d : Dict.wf d -> Dict.wf (fold_left (fun d k => Dict.set d k (g d k)) ws d).
Proof.
  revert d; induction ws as [|x ws IH]; intros d Hwf; simpl; [assumption|].
  apply IH. now apply wf_set.
Qed.
End fold_set.
End Dict_facts.

Lemma Zsum_values_set (d : Dict.t str Z) (k : str) (v : Z) :
  Zsum (Dict.values (Dict.set d k v)) = Zsum (Dict.values d) - count_of d k + v.
Proof.
  unfold count_of. induction d as [|[k' v'] d IH]; simpl; [lia|].
  destruct (eq_dec k k'); simpl; [lia|]. rewrite IH. lia.
Qed.

Lemma py_sum_Zsum (l : list Z) : py_sum l = Zsum l.
Proof.
  unfold py_sum. enough (forall a, fold_left Z.add l a = a + Zsum l) as -> by lia.
  induction l as [|x l IH]; intros a; simpl; [lia|]. rewrite IH. lia.
Qed.

(** ** The k-mer counter *)

Lemma count_k_mer_eq (d : Dict.t str Z) (sub : str) :
  count_k_mer d sub = Ok (Dict.set d sub (count_of d sub + 1)).
Proof.
  unfold count_k_mer, count_of, Dict.getitem.
  destruct (py_in sub (Dict.keys d)) eqn:Hin; simpl.
  - apply py_in_spec, in_keys_get in Hin. destruct Hin as [v ->]. reflexivity.
  - apply py_in_false, get_None in Hin. rewrite Hin, get_set_same. simpl.
    now rewrite set_set.
Qed.

Lemma for_each_count_k_mer (ws : list str) (d : Dict.t str Z) :
  for_each count_k_mer ws d = Ok (fold_left count_up ws d).
Proof. apply for_each_total. intros; apply count_k_mer_eq. Qed.

Lemma counted_sum (ws : list str) (d : Dict.t str Z) :
  Zsum (Dict.values (fold_left count_up ws d)) = Zsum (Dict.values d) + len ws.
Proof.
  revert d; induction ws as [|x ws IH]; intros d; unfold len in *; simpl; [lia|].
  rewrite IH. unfold count_up. rewrite Zsum_values_set. lia.
Qed.

Lemma counted_keys (ws : list str) (d : Dict.t str Z) (key : str) :
  In key (Dict.keys (fold_left count_up ws d)) <-> In key (Dict.keys d) \/ In key ws.
Proof. apply fold_set_keys. Qed.

Lemma counted_wf (ws : list str) (d : Dict.t str Z) :
  Dict.wf d -> Dict.wf (fold_left count_up ws d).
Proof. apply fold_set_wf. Qed.

Lemma count_of_nonneg (d : Dict.t str Z) (key : str) :
  Forall (fun v => 1 <= v) (Dict.values d) -> 0 <= count_of d key.
Proof.
  intros Hall. unfold count_of. destruct (Dict.get d key) as [v|] eqn:Hg; [|lia].
  apply get_Some_in in Hg. rewrite Forall_forall in Hall.
  assert (1 <= v); [|lia]. apply Hall. change v with (snd (key, v)).
  now apply in_map.
Qed.

Lemma counted_positive (ws : list str) (d : Dict.t str Z) :
  Forall (fun v => 1 <= v) (Dict.values d) ->
  Forall (fun v => 1 <= v) (Dict.values (fold_left count_up ws d)).
Proof.
  revert d; induction ws as [|x ws IH]; intros d Hall; simpl; [assumption|].
  apply IH. rewrite Forall_forall. intros v Hv.
  apply in_values_set in Hv. destruct Hv as [->|Hv].
  - pose proof (@count_of_nonneg d x Hall). lia.
  - rewrite Forall_forall in Hall. auto.
Qed.

Lemma counted_count (ws : list str) (d : Dict.t str Z) (key : str) :
  count_of (fold_left count_up ws d) key
  = count_of d key + Z.of_nat (count_occ eq_dec ws key).
Proof.
  revert d; induction ws as [|x ws IH]; intros d; simpl; [lia|].
  rewrite IH. unfold count_up, count_of at 1.
  destruct (eq_dec x key) as [->|Hne].
  - rewrite get_set_same. lia.
  - rewrite get_set_other by congruence. fold (count_of d key). lia.
Qed.

(** [find_k_mers] never raises: it counts the windows of the scanner. *)
Lemma find_k_mers_windows (sequence : str) (k : Z) :
  1 <= k ->
  find_k_mers sequence k
  = Ok (fold_left count_up
                  (map (fun i => window sequence i (Z.to_nat k))
                       (seq 0 (num_windows sequence k 1)))
                  Dict.empty).
Proof.
  intros Hk. unfold find_k_mers. rewrite substrings_eq by lia. simpl.
  rewrite for_each_count_k_mer. do 2 f_equal.
  apply map_ext. intros i. f_equal. simpl. lia.
Qed.

Lemma num_windows_hop1 (s : str) (k : Z) :
  1 <= k ->
  Z.of_nat (num_windows s k 1) = if len s <? k then 0 else len s - k + 1.
Proof.
  intros Hk. unfold num_windows. destruct (Z.ltb_spec (len s) k); [reflexivity|].
  rewrite Z.div_1_r. lia.
Qed.

(** C5: for [k >= 1], the counts returned by [find_k_mers] add up to
    [len(sequence) - k + 1] when [k <= len(sequence)], and the returned
    mapping is empty otherwise. *)
Theorem find_k_mers_total_count (sequence : str) (k : Z) :
  1 <= k ->
  exists d : Dict.t str Z,
    find_k_mers sequence k = Ok d
    /\ (k <= len sequence -> Zsum (Dict.values d) = len sequence - k + 1)
    /\ (len sequence < k -> d = Dict.empty).
Proof.
  intros Hk. eexists. split; [apply find_k_mers_windows; assumption|].
  pose proof (num_windows_hop1 sequence Hk) as Hn. split; intros Hlen.
  - rewrite counted_sum. unfold len at 1. rewrite length_map, length_seq, Hn.
    destruct (Z.ltb_spec (len sequence) k); simpl; lia.
  - destruct (Z.ltb_spec (len sequence) k); [|lia].
    replace (num_windows sequence k 1) with 0%nat by lia. reflexivity.
Qed.

Lemma find_k_mers_total_count_witness :
  1 <= 2 /\
  exists d : Dict.t str Z,
    find_k_mers (str_of "ABAB") 2 = Ok d
    /\ (2 <= len (str_of "ABAB") -> Zsum (Dict.values d) = len (str_of "ABAB") - 2 + 1)
    /\ (len (str_of "ABAB") < 2 -> d = Dict.empty).
Proof. split; [lia | apply (@find_k_mers_total_count (str_of "ABAB") 2); lia]. Defined.

Lemma occurs_in_window (sub s : str) :
  occurs_in sub s <->
  exists off : nat, (off + length sub <= length s)%nat /\ window s off (length sub) = sub.
Proof.
  unfold occurs_in, window. split.
  - intros (pre & post & ->). exists (length pre). split.
    + rewrite !length_app. lia.
    + rewrite skipn_app, skipn_all, Nat.sub_diag. simpl.
      rewrite firstn_app, firstn_all, Nat.sub_diag. simpl. apply app_nil_r.
  - intros (off & Hle & Hw). exists (firstn off s), (skipn (length sub) (skipn off s)).
    rewrite <- Hw at 1. now rewrite !firstn_skipn.
Qed.

(** C10: for [k >= 1], every count in the mapping returned by [find_k_mers] is
    at least 1, and its keys (pairwise distinct) are exactly the strings of
    length [k] that occur in the sequence. *)
Theorem find_k_mers_keys (sequence : str) (k : Z) :
  1 <= k ->
  exists d : Dict.t str Z,
    find_k_mers sequence k = Ok d
    /\ Forall (fun count => 1 <= count) (Dict.values d)
    /\ NoDup (Dict.keys d)
    /\ (forall key : str,
           In key (Dict.keys d) <-> len key = k /\ occurs_in key sequence).
Proof.
  intros Hk. eexists. split; [apply find_k_mers_windows; assumption|].
  split; [apply counted_positive; constructor|].
  split; [apply counted_wf; constructor|].
  intros key. rewrite counted_keys, in_map_iff, occurs_in_window. simpl.
  split.
  - intros [[]|(i & <- & Hi)]. apply in_seq in Hi.
    assert (Hfit : Z.of_nat i * 1 + k <= len sequence)
      by (apply num_windows_fits; lia).
    assert (Hlen : length (window sequence i (Z.to_nat k)) = Z.to_nat k)
      by (rewrite window_length; unfold len in *; lia).
    split; [unfold len; lia|].
    exists i. rewrite Hlen. unfold len in *. split; [lia|reflexivity].
  - intros (Hlen & off & Hoff & Hwin). right. exists off.
    unfold len in *. replace (Z.to_nat k) with (length key) by lia.
    split; [assumption|]. apply in_seq.
    assert (off < num_windows sequence k 1)%nat; [|lia].
    apply num_windows_fits; unfold len; lia.
Qed.

Lemma find_k_mers_keys_witness :
  1 <= 2 /\
  exists d : Dict.t str Z,
    find_k_mers (str_of "ABAB") 2 = Ok d
    /\ Forall (fun count => 1 <= count) (Dict.values d)
    /\ NoDup (Dict.keys d)
    /\ (forall key : str,
           In key (Dict.keys d) <-> len key = 2 /\ occurs_in key (str_of "ABAB")).
Proof. split; [lia | apply (@find_k_mers_keys (str_of "ABAB") 2); lia]. Defined.

(** ** The palindrome detector *)

Lemma py_index_in_range {A : Type} (l : list A) (i : Z) :
  0 <= i < len l -> exists a, py_index l i = Ok a /\ nth_error l (Z.to_nat i) = Some a.
Proof.
  intros Hi. unfold py_index, len in *.
  destruct (Z.ltb_spec i 0); [lia|]. destruct (Z.ltb_spec i 0); [lia|].
  destruct (nth_error l (Z.to_nat i)) as [a|] eqn:Hn; [eauto|].
  apply nth_error_None in Hn. lia.
Qed.

Lemma Counter_len (s : str) : len (Counter s) = Z.of_nat (distinct_chars s).
Proof.
  unfold len, distinct_chars, Counter. f_equal.
  set (d := fold_left _ s Dict.empty).
  assert (Hwf : NoDup (Dict.keys d)) by (apply fold_set_wf; constructor).
  assert (Hin : forall c, In c (Dict.keys d) <-> In c s).
  { intros c. unfold d. rewrite fold_set_keys. simpl. tauto. }
  replace (length d) with (length (Dict.keys d)) by apply length_map.
  apply Nat.le_antisymm; apply NoDup_incl_length;
    auto using NoDup_nodup; intros c Hc.
  - apply nodup_In, Hin, Hc.
  - apply Hin. eapply nodup_In, Hc.
Qed.

Lemma mirrored_palindrome (s : str) (start n : nat) :
  (start + n <= length s)%nat ->
  mirrored s (Z.of_nat start - 1) (Z.of_nat (start + n)) ->
  window s start n = rev (window s start n).
Proof.
  intros Hfit Hm. apply nth_error_ext. intros i.
  rewrite nth_error_rev, window_length, Nat.min_l by lia.
  unfold window. rewrite !nth_error_firstn, !nth_error_skipn.
  destruct (Nat.ltb_spec i n) as [Hi|Hi]; [|reflexivity].
  destruct (Nat.ltb_spec (n - S i) n); [|lia].
  destruct (Nat.le_gt_cases (start + i) (start + (n - S i))).
  - apply Hm; lia.
  - symmetry. apply Hm; lia.
Qed.

Section palindrome_facts.
Variable sequence : str.
Variables min_substring_len min_bases : Z.

Local Abbreviation expand := (expand_frontier sequence min_substring_len min_bases).
Local Abbreviation record := (record_palindrome sequence min_substring_len min_bases).

Lemma frontier_matches_total (start end_ : Z) :
  0 <= start <= end_ -> exists b, frontier_matches sequence start end_ = Ok b.
Proof.
  intros Hr. unfold frontier_matches.
  destruct (Z.ltb_spec end_ (len sequence)); [|eauto].
  destruct (@py_index_in_range _ sequence start) as (a & -> & _); [lia|].
  destruct (@py_index_in_range _ sequence end_) as (b & -> & _); [lia|].
  simpl. eauto.
Qed.

Lemma frontier_matches_true (start end_ : Z) :
  0 <= start <= end_ ->
  frontier_matches sequence start end_ = Ok true ->
  end_ < len sequence
  /\ nth_error sequence (Z.to_nat start) = nth_error sequence (Z.to_nat end_).
Proof.
  intros Hr. unfold frontier_matches.
  destruct (Z.ltb_spec end_ (len sequence)); [|discriminate].
  destruct (@py_index_in_range _ sequence start) as (a & -> & ->); [lia|].
  destruct (@py_index_in_range _ sequence end_) as (b & -> & ->); [lia|].
  simpl. destruct (eq_dec a b); [subst; auto|discriminate].
Qed.

Lemma mirrored_step (start end_ : Z) :
  0 <= start <= end_ ->
  mirrored sequence start end_ ->
  nth_error sequence (Z.to_nat start) = nth_error sequence (Z.to_nat end_) ->
  mirrored sequence (start - 1) (end_ + 1).
Proof.
  intros Hr Hm Heq a b Ha Hab Hb Hsum.
  destruct (Z.eq_dec (Z.of_nat a) start) as [Has|Has].
  - replace a with (Z.to_nat start) by lia.
    replace b with (Z.to_nat end_) by lia. exact Heq.
  - apply Hm; lia.
Qed.

(** Hoare rule for the [while] loop of [expand_frontier]: an invariant of the
    loop body, run on a matching frontier, holds of the final statistics;
    the loop never raises. *)
Lemma expand_frontier_rule (P : palindrome_stats -> Prop) :
  (forall start end_ stats,
      0 <= start <= end_ -> end_ < len sequence ->
      mirrored sequence (start - 1) (end_ + 1) ->
      P stats -> P (record start end_ stats)) ->
  forall start end_ stats,
    start <= end_ -> mirrored sequence start end_ -> P stats ->
    exists stats', expand start end_ stats = Ok stats' /\ P stats'.
Proof.
  intros Hbody start end_ stats.
  funelim (expand start end_ stats); intros Hle Hm HP; try solve [eauto].
  - destruct (@frontier_matches_true start end_) as [Hend Hsame]; [lia|assumption|].
    assert (Hm' : mirrored sequence (start - 1) (end_ + 1))
      by (apply mirrored_step; auto; lia).
    match goal with IH : forall P : _ -> Prop, _ |- _ => apply IH end;
      [assumption|lia|assumption|]. apply Hbody; auto; lia.
  - destruct (@frontier_matches_total start end_) as [b Hb]; [lia|]. congruence.
Qed.

(** The rule, lifted to the [for] loop over the centres. *)
Lemma find_palindromes_rule (P : palindrome_stats -> Prop) :
  (forall start end_ stats,
      0 <= start <= end_ -> end_ < len sequence ->
      mirrored sequence (start - 1) (end_ + 1) ->
      P stats -> P (record start end_ stats)) ->
  P {| num_palindromes := 0; palindromes := [] |} ->
  exists stats,
    find_palindromes sequence min_substring_len min_bases = Ok stats /\ P stats.
Proof.
  intros Hbody Hinit. unfold find_palindromes.
  apply for_each_inv; [assumption|].
  intros stats i _ HP.
  destruct (@expand_frontier_rule P Hbody i i stats) as (s1 & -> & HP1);
    [lia | intros a b; lia | assumption |]. simpl.
  apply expand_frontier_rule; auto; [lia | intros a b; lia].
Qed.
End palindrome_facts.

(** C9: the counter [num_palindromes] of the result of [find_palindromes]
    equals the length of its [palindromes] list. *)
Theorem find_palindromes_counter_consistent
  (sequence : str) (min_substring_len min_bases : Z) :
  exists stats : palindrome_stats,
    find_palindromes sequence min_substring_len min_bases = Ok stats
    /\ num_palindromes stats = len (palindromes stats).
Proof.
  apply find_palindromes_rule with
    (P := fun stats => num_palindromes stats = len (palindromes stats));
    [|reflexivity].
  intros start end_ stats _ _ _ HP. unfold record_palindrome.
  destruct (_ && _); [|assumption]. simpl.
  unfold len in *. rewrite length_app. simpl. lia.
Qed.

(** C3: every record [(start, length)] emitted by [find_palindromes] lies
    within the sequence, its substring [sequence[start .. start+length)]
    equals its own reverse, [length > min_substring_len], and the substring
    has at least [min_bases] distinct characters. *)
Theorem find_palindromes_records_qualify
  (sequence : str) (min_substring_len min_bases : Z) :
  exists stats : palindrome_stats,
    find_palindromes sequence min_substring_len min_bases = Ok stats
    /\ Forall (qualifies sequence min_substring_len min_bases) (palindromes stats).
Proof.
  apply find_palindromes_rule with
    (P := fun stats =>
            Forall (qualifies sequence min_substring_len min_bases) (palindromes stats));
    [|constructor].
  intros start end_ stats Hr Hend Hm HP. unfold record_palindrome.
  rewrite py_slice_window by lia.
  set (sub := window sequence _ _).
  destruct (Z.ltb_spec min_substring_len (len sub)); simpl; [|assumption].
  destruct (Z.leb_spec min_bases (len (Counter sub))); simpl; [|assumption].
  apply Forall_app; split; [assumption|]. constructor; [|constructor].
  assert (Hlen : len sub = end_ - start + 1)
    by (unfold sub, len in *; rewrite window_length; lia).
  unfold qualifies; simpl. rewrite Hlen.
  replace (Z.to_nat (end_ - start + 1))
    with (Z.to_nat (end_ + 1) - Z.to_nat start)%nat by lia.
  fold sub. rewrite <- Counter_len.
  repeat split; try lia.
  unfold sub. apply mirrored_palindrome; [unfold len in *; lia|].
  replace (Z.of_nat (Z.to_nat start) - 1) with (start - 1) by lia.
  replace (Z.of_nat (Z.to_nat start + (Z.to_nat (end_ + 1) - Z.to_nat start)))
    with (end_ + 1) by lia.
  assumption.
Qed.

(** ** Ranking: the stable sort and the first-encounter order *)

Lemma in_firstn {A : Type} (n : nat) (l : list A) (x : A) :
  In x (firstn n l) -> In x l.
Proof.
  revert n; induction l as [|y l IH]; intros [|n]; simpl; try tauto.
  intros [->|Hin]; eauto.
Qed.

Section first_index_facts.
Context {K : Type} `{EqDec K}.

Lemma first_index_lt (x : K) (l : list K) : In x l -> (first_index x l < length l)%nat.
Proof.
  induction l as [|y l IH]; simpl; [tauto|].
  intros Hin. destruct (eq_dec x y); [lia|].
  assert (In x l) by (destruct Hin; congruence). specialize (IH ltac:(assumption)). lia.
Qed.

Lemma first_index_app_in (x : K) (l l' : list K) :
  In x l -> first_index x (l ++ l') = first_index x l.
Proof.
  induction l as [|y l IH]; simpl; [tauto|].
  intros Hin. destruct (eq_dec x y); [reflexivity|].
  f_equal. apply IH. destruct Hin; congruence.
Qed.

Lemma first_index_app_notin (x : K) (l l' : list K) :
  ~ In x l -> first_index x (l ++ l') = (length l + first_index x l')%nat.
Proof.
  induction l as [|y l IH]; simpl; [reflexivity|].
  intros Hn. destruct (eq_dec x y); [subst; tauto|].
  f_equal. apply IH. tauto.
Qed.
End first_index_facts.

Section sorted_facts.
Context {A : Type} (R : A -> A -> Prop).

Lemma StronglySorted_snoc (l : list A) (x : A) :
  StronglySorted R l -> Forall (fun y => R y x) l -> StronglySorted R (l ++ [x]).
Proof.
  induction 1 as [|y l Hs IH Hy]; intros Hall; simpl.
  - repeat constructor.
  - inversion Hall; subst. constructor; [auto|].
    apply Forall_app. split; [assumption|]. repeat constructor. assumption.
Qed.

Lemma StronglySorted_firstn (n : nat) (l : list A) :
  StronglySorted R l -> StronglySorted R (firstn n l).
Proof.
  intros Hs; revert n; induction Hs as [|y l Hs IH Hy]; intros [|n]; simpl;
    try constructor; auto.
  rewrite Forall_forall in *. intros z Hz. apply Hy. eapply in_firstn, Hz.
Qed.

Lemma StronglySorted_nth (l : list A) (i j : nat) (a b : A) :
  StronglySorted R l -> (i < j)%nat ->
  nth_error l i = Some a -> nth_error l j = Some b -> R a b.
Proof.
  intros Hs; revert i j; induction Hs as [|y l Hs IH Hy]; intros i j Hij Hi Hj.
  - destruct i; discriminate.
  - destruct j as [|j]; [lia|]. destruct i as [|i]; simpl in *.
    + injection Hi as <-. rewrite Forall_forall in Hy.
      eapply Hy, nth_error_In, Hj.
    + apply (IH i j); [lia|assumption|assumption].
Qed.

Lemma StronglySorted_weaken (R' : A -> A -> Prop) (l : list A) :
  (forall a b, R a b -> R' a b) -> StronglySorted R l -> StronglySorted R' l.
Proof.
  intros Himp. induction 1 as [|y l Hs IH Hy]; constructor; auto.
  eapply Forall_impl; [|exact Hy]. auto.
Qed.
End sorted_facts.

Lemma in_insert_by_value (x z : str * Z) (l : list (str * Z)) :
  In z (insert_by_value x l) <-> z = x \/ In z l.
Proof.
  induction l as [|y l IH]; simpl; [intuition|].
  destruct (snd x <? snd y); simpl; rewrite ?IH; intuition.
Qed.

Lemma in_sort_by_value_desc (z : str * Z) (l : list (str * Z)) :
  In z (sort_by_value_desc l) <-> In z l.
Proof.
  induction l as [|x l IH]; simpl; [tauto|].
  rewrite in_insert_by_value, IH. intuition.
Qed.

Lemma NoDup_keys_insert (x : str * Z) (l : list (str * Z)) :
  NoDup (map fst (x :: l)) -> NoDup (map fst (insert_by_value x l)).
Proof.
  induction l as [|y l IH]; simpl; [auto|].
  intros Hnd. destruct (snd x <? snd y); simpl; [|assumption].
  inversion Hnd as [|? ? Hx Hyl]; subst. inversion Hyl as [|? ? Hy Hl]; subst.
  simpl in Hx. constructor.
  - rewrite in_map_iff. intros (z & Hfz & Hz).
    apply in_insert_by_value in Hz. destruct Hz as [->|Hz]; [intuition congruence|].
    apply Hy. rewrite <- Hfz. now apply in_map.
  - apply IH. simpl. constructor; [tauto|assumption].
Qed.

Lemma NoDup_keys_sort (l : list (str * Z)) :
  NoDup (map fst l) -> NoDup (map fst (sort_by_value_desc l)).
Proof.
  induction l as [|x l IH]; simpl; [auto|].
  intros Hnd. inversion Hnd as [|? ? Hx Hl]; subst.
  apply NoDup_keys_insert. simpl.
  constructor; [|apply IH; assumption]. rewrite in_map_iff. intros (z & Hfz & Hz).
  rewrite in_sort_by_value_desc in Hz.
  apply Hx. rewrite <- Hfz. now apply in_map.
Qed.

Section stable_sort.
Variable pos : str -> nat.

(** An item that was met before every item of a ranked list is inserted
    at its rank. *)
Lemma insert_by_value_ranked (x : str * Z) (l : list (str * Z)) :
  StronglySorted (ranks_before pos) l ->
  Forall (fun y => (pos (fst x) < pos (fst y))%nat) l ->
  StronglySorted (ranks_before pos) (insert_by_value x l).
Proof.
  induction 1 as [|y l Hs IH Hy]; intros Hpos; simpl.
  - repeat constructor.
  - inversion Hpos as [|? ? Hxy Hxl]; subst.
    destruct (Z.ltb_spec (snd x) (snd y)) as [Hlt|Hge].
    + constructor; [auto|]. rewrite Forall_forall in *. intros z Hz.
      apply in_insert_by_value in Hz. destruct Hz as [->|Hz]; [|auto].
      left. assumption.
    + constructor; [constructor; assumption|].
      rewrite Forall_forall in *. intros z [<-|Hz].
      * unfold ranks_before. destruct (Z.eq_dec (snd x) (snd y)); [right|left]; auto; lia.
      * specialize (Hy z Hz). specialize (Hxl z Hz). unfold ranks_before in *.
        destruct (Z.eq_dec (snd x) (snd z)); [right|left]; auto; lia.
Qed.

(** Sorting items that stand in the order in which they were met ranks
    them: by value, and among equal values by first encounter. *)
Lemma sort_by_value_desc_ranked (l : list (str * Z)) :
  StronglySorted (fun a b => (pos (fst a) < pos (fst b))%nat) l ->
  StronglySorted (ranks_before pos) (sort_by_value_desc l).
Proof.
  induction 1 as [|x l Hs IH Hx]; simpl; [constructor|].
  apply insert_by_value_ranked; [assumption|].
  rewrite Forall_forall in *. intros y Hy. apply Hx.
  now apply in_sort_by_value_desc.
Qed.
End stable_sort.

(** ** The top-N aggregator *)

Lemma StronglySorted_impl_in {A : Type} (R R' : A -> A -> Prop) (l : list A) :
  (forall a b, In a l -> In b l -> R a b -> R' a b) ->
  StronglySorted R l -> StronglySorted R' l.
Proof.
  intros Himp Hs. induction Hs as [|y l Hs IH Hy]; constructor.
  - apply IH. intros a b Ha Hb. apply Himp; right; assumption.
  - rewrite Forall_forall in *. intros z Hz.
    apply Himp; [left; reflexivity | right; assumption | auto].
Qed.

Lemma StronglySorted_map {A B : Type} (f : A -> B) (R : B -> B -> Prop) (l : list A) :
  StronglySorted R (map f l) -> StronglySorted (fun a b => R (f a) (f b)) l.
Proof.
  induction l as [|x l IH]; simpl; intros Hs; [constructor|].
  inversion Hs as [|? ? Hl Hx]; subst. constructor; [auto|].
  rewrite Forall_forall in *. intros z Hz. apply Hx. now apply in_map.
Qed.

Lemma for_each_concat {A S : Type} (body : S -> A -> result S)
  (xss : list (list A)) (acc : S) :
  for_each (fun acc xs => for_each body xs acc) xss acc
  = for_each body (concat xss) acc.
Proof.
  revert acc; induction xss as [|xs xss IH]; intros acc; simpl; [reflexivity|].
  rewrite for_each_app. destruct (for_each body xs acc); simpl; auto.
Qed.

Lemma aggregate_item_eq (aggregated : Dict.t str Z) (item : str * Z) :
  aggregate_item aggregated item
  = Ok (Dict.set aggregated (fst item) (count_of aggregated (fst item) + snd item)).
Proof.
  destruct item as [key value]. unfold aggregate_item, count_of, Dict.getitem. simpl.
  destruct (py_in key (Dict.keys aggregated)) eqn:Hin; simpl.
  - apply py_in_spec, in_keys_get in Hin. destruct Hin as [v ->]. reflexivity.
  - apply py_in_false, get_None in Hin. rewrite Hin, get_set_same. simpl.
    now rewrite set_set.
Qed.

Lemma for_each_aggregate_item (items : list (str * Z)) (d : Dict.t str Z) :
  for_each aggregate_item items d = Ok (fold_left add_item items d).
Proof. apply for_each_total. intros; apply aggregate_item_eq. Qed.

Lemma aggregated_keys (items : list (str * Z)) (d : Dict.t str Z) (key : str) :
  In key (Dict.keys (fold_left add_item items d))
  <-> In key (Dict.keys d) \/ In key (map fst items).
Proof.
  revert d; induction items as [|x items IH]; intros d; simpl; [tauto|].
  rewrite IH. unfold add_item. rewrite in_keys_set. intuition congruence.
Qed.

Lemma aggregated_wf (items : list (str * Z)) (d : Dict.t str Z) :
  Dict.wf d -> Dict.wf (fold_left add_item items d).
Proof.
  revert d; induction items as [|x items IH]; intros d Hwf; simpl; [assumption|].
  apply IH. now apply wf_set.
Qed.

Lemma aggregated_count (items : list (str * Z)) (d : Dict.t str Z) (key : str) :
  count_of (fold_left add_item items d) key
  = count_of d key + Zsum (map snd (filter (has_key key) items)).
Proof.
  revert d; induction items as [|x items IH]; intros d; simpl; [lia|].
  rewrite IH. unfold add_item, has_key, count_of at 1.
  destruct (eq_dec (fst x) key) as [<-|Hne]; simpl.
  - rewrite get_set_same. lia.
  - rewrite get_set_other by congruence. fold (count_of d key). lia.
Qed.

(** The keys of the combined mapping stand in first-encounter order. *)
Lemma aggregated_order (items : list (str * Z)) :
  StronglySorted
    (fun a b => (first_index a (map fst items) < first_index b (map fst items))%nat)
    (Dict.keys (fold_left add_item items Dict.empty)).
Proof.
  induction items as [|x items IH] using rev_ind; [constructor|].
  rewrite fold_left_app, map_app. simpl.
  set (agg := fold_left add_item items Dict.empty) in *.
  assert (Hkeys : forall key, In key (Dict.keys agg) <-> In key (map fst items)).
  { intros key. unfold agg. rewrite aggregated_keys. simpl. tauto. }
  assert (Hold : StronglySorted
                   (fun a b => (first_index a (map fst items ++ [fst x])
                                < first_index b (map fst items ++ [fst x]))%nat)
                   (Dict.keys agg)).
  { eapply StronglySorted_impl_in; [|exact IH]. simpl. intros a b Ha Hb Hab.
    rewrite !first_index_app_in by (apply Hkeys; assumption). exact Hab. }
  unfold add_item. destruct (in_dec eq_dec (fst x) (Dict.keys agg)) as [Hin|Hn].
  - rewrite set_present by assumption. exact Hold.
  - rewrite set_absent by assumption. unfold Dict.keys at 1. rewrite map_app. simpl.
    apply StronglySorted_snoc; [exact Hold|].
    rewrite Forall_forall. intros y Hy.
    rewrite first_index_app_in by (apply Hkeys; assumption).
    rewrite first_index_app_notin by (rewrite <- Hkeys; assumption). simpl.
    destruct (eq_dec (fst x) (fst x)); [|congruence].
    pose proof (first_index_lt y (map fst items) (proj1 (Hkeys y) Hy)). lia.
Qed.

Lemma wf_count_of (d : Dict.t str Z) (key : str) :
  Dict.wf d -> Zsum (map snd (filter (has_key key) d)) = count_of d key.
Proof.
  unfold Dict.wf, count_of, has_key. induction d as [|[k v] d IH]; simpl; [reflexivity|].
  intros Hnd. inversion Hnd as [|? ? Hk Hd]; subst.
  destruct (eq_dec k key) as [->|Hne]; simpl.
  - destruct (eq_dec key key); [|congruence].
    rewrite IH by assumption. apply get_None in Hk. rewrite Hk. lia.
  - destruct (eq_dec key k); [congruence|]. auto.
Qed.

Lemma concat_count (ds : list (Dict.t str Z)) (key : str) :
  Forall Dict.wf ds ->
  Zsum (map snd (filter (has_key key) (concat ds))) = total_count ds key.
Proof.
  unfold total_count. induction 1 as [|d ds Hd Hds IH]; simpl; [reflexivity|].
  rewrite filter_app, map_app, <- IH, <- (wf_count_of key Hd).
  generalize (map snd (filter (has_key key) d)) as l.
  induction l as [|z l IHl]; simpl; lia.
Qed.

Lemma find_k_mers_ok (sequence : str) (k : Z) :
  exists d, find_k_mers sequence k = Ok d /\ Dict.wf d.
Proof.
  unfold find_k_mers, substrings, py_range. simpl.
  rewrite for_each_count_k_mer. eexists. split; [reflexivity|].
  apply counted_wf. constructor.
Qed.

Lemma apply_foreach_total {A : Type} (seq_obj : seq_object)
  (analysis_func : str -> result A) (P : A -> Prop) :
  (forall s, exists a, analysis_func s = Ok a /\ P a) ->
  exists stats,
    apply_foreach seq_obj analysis_func = Ok stats
    /\ Forall2 (fun s a => analysis_func s = Ok a) (sequences seq_obj) stats
    /\ Forall P stats.
Proof.
  intros Hf. unfold apply_foreach.
  enough (forall acc, Forall P acc ->
            exists stats,
              for_each (fun stats seq => seq_stats <- analysis_func seq ;;
                                         Ok (stats ++ [seq_stats]))
                       (sequences seq_obj) acc = Ok (acc ++ stats)
              /\ Forall2 (fun s a => analysis_func s = Ok a) (sequences seq_obj) stats
              /\ Forall P stats) as Hgen.
  { destruct (Hgen [] (Forall_nil _)) as (stats & Heq & H2 & HP). eauto. }
  induction (sequences seq_obj) as [|s l IH]; intros acc Hacc; simpl.
  - exists []. rewrite app_nil_r. auto.
  - destruct (Hf s) as (a & Ha & HPa). rewrite Ha. simpl.
    destruct (IH (acc ++ [a])) as (stats & Heq & H2 & HP).
    { apply Forall_app. auto. }
    exists (a :: stats). rewrite Heq, <- app_assoc. simpl. auto.
Qed.

Lemma ranked_by_count_intro (stats : list (Dict.t str Z)) (l : list (str * Z)) :
  (forall key count, In (key, count) l -> count = total_count stats key) ->
  StronglySorted
    (ranks_before (fun key => first_index key (encounter_order stats))) l ->
  ranked_by_count stats l.
Proof.
  intros Hsum Hs. split; [assumption|]. split.
  - eapply StronglySorted_weaken; [|exact Hs].
    unfold ranks_before. intros a b [Hlt|[Heq _]]; lia.
  - intros i j a b Hij Hi Hj Heq.
    destruct (StronglySorted_nth Hs Hij Hi Hj) as [Hlt|[_ Hpos]]; [lia|exact Hpos].
Qed.

(** C4: in combined mode [find_top_k_mers] returns a one-element list holding
    one ranked list of at most [N] entries. The ranked list is the first [N]
    entries of a ranking of all keys met in the dataset (each once): every
    entry carries the sum of its key's counts across all sequences, counts do
    not increase, and equal counts stand in first-encounter order (dataset
    order, then each sequence's key insertion order). [N] is a number of
    entries, a natural number. *)
Theorem find_top_k_mers_combined (seq_obj : seq_object) (N : nat) (k : Z) :
  exists (all_k_mer_stats : list (Dict.t str Z)) (ranking : list (str * Z)),
    Forall2 (fun s d => find_k_mers s k = Ok d) (sequences seq_obj) all_k_mer_stats
    /\ find_top_k_mers seq_obj (Z.of_nat N) k false = Ok [firstn N ranking]
    /\ (length (firstn N ranking) <= N)%nat
    /\ ranked_by_count all_k_mer_stats (firstn N ranking)
    /\ ranked_by_count all_k_mer_stats ranking
    /\ NoDup (map fst ranking)
    /\ (forall key,
           In key (map fst ranking) <-> In key (encounter_order all_k_mer_stats)).
Proof.
  destruct (@apply_foreach_total _ seq_obj (fun s => find_k_mers s k) Dict.wf)
    as (stats & Heq & Hall & Hwf); [intros s; apply find_k_mers_ok|].
  set (agg := fold_left add_item (concat stats) Dict.empty).
  assert (Hagg_wf : Dict.wf agg) by (apply aggregated_wf; constructor).
  assert (HE : encounter_order stats = map fst (concat stats))
    by (unfold encounter_order; now rewrite concat_map).
  assert (Hsum : forall key count,
             In (key, count) (sort_by_value_desc agg) ->
             count = total_count stats key).
  { intros key count Hin. rewrite in_sort_by_value_desc in Hin.
    apply in_wf_get in Hin; [|assumption].
    assert (Hc : count_of agg key = count) by (unfold count_of; now rewrite Hin).
    rewrite <- Hc. unfold agg. rewrite aggregated_count.
    rewrite concat_count by assumption. reflexivity. }
  assert (Hrank : StronglySorted
                    (ranks_before (fun key => first_index key (encounter_order stats)))
                    (sort_by_value_desc agg)).
  { apply sort_by_value_desc_ranked.
    apply (@StronglySorted_map _ _ fst
             (fun a b => (first_index a (encounter_order stats)
                          < first_index b (encounter_order stats))%nat)).
    rewrite HE. apply aggregated_order. }
  exists stats, (sort_by_value_desc agg).
  split; [exact Hall|]. split.
  { assert (Hfold : for_each (fun aggregated seq_results : Dict.t str Z =>
                                for_each aggregate_item seq_results aggregated)
                             stats Dict.empty = Ok agg).
    { etransitivity; [apply (@for_each_concat (str * Z))|].
      apply for_each_aggregate_item. }
    unfold find_top_k_mers. rewrite Heq. simpl. unfold Dict.items.
    rewrite Hfold. simpl.
    unfold get_top_values, Dict.items.
    rewrite py_slice_window by lia. unfold window. simpl.
    rewrite Nat.sub_0_r, Nat2Z.id. reflexivity. }
  split; [apply firstn_le_length|].
  split.
  { apply ranked_by_count_intro.
    - intros key count Hin. apply Hsum. eapply in_firstn, Hin.
    - apply StronglySorted_firstn, Hrank. }
  split; [apply ranked_by_count_intro; assumption|].
  split; [apply NoDup_keys_sort; exact Hagg_wf|].
  intros key. rewrite HE. split.
  - rewrite in_map_iff. intros ([key' count] & <- & Hin).
    rewrite in_sort_by_value_desc in Hin.
    assert (Hk : In key' (Dict.keys agg))
      by (change key' with (fst (key', count)); now apply in_map).
    apply (proj1 (aggregated_keys _ _ _)) in Hk. simpl in Hk. tauto.
  - intros Hin.
    assert (Hk : In key (Dict.keys agg))
      by (apply aggregated_keys; auto).
    unfold Dict.keys in Hk. rewrite in_map_iff in *.
    destruct Hk as (item & Hf & Hitem). exists item. split; [assumption|].
    now rewrite in_sort_by_value_desc.
Qed.

(** ** The dataset reducers: [find_max] and [find_min] *)

Lemma Qltb_spec (x y : Q) : Qltb x y = true <-> (x < y)%Q.
Proof.
  unfold Qltb. rewrite Qlt_alt. destruct (x ?= y)%Q; intuition congruence.
Qed.

Lemma extreme_inv_cons (lt : Q -> Q -> Prop) (init : bound) (field : str)
  (pre : list StatRecord) (i : nat) (value : bound) (r : StatRecord) :
  pre <> [] ->
  extreme_inv lt init field pre (i, value, r) <->
  exists v, value = Finite v
    /\ nth_error pre i = Some r /\ Dict.get r field = Some v
    /\ forall j r' v', nth_error pre j = Some r' -> Dict.get r' field = Some v' ->
                       ~ lt v v' /\ ((j < i)%nat -> lt v' v).
Proof. destruct pre; [congruence|reflexivity]. Qed.

Section extreme.
Variable better : Q -> bound -> bool.
Variable init : bound.
Variable lt : Q -> Q -> Prop.
Hypothesis better_init : forall v, better v init = true.
Hypothesis better_finite : forall v m, better v (Finite m) = true <-> lt m v.
Hypothesis lt_irrefl : forall v, ~ lt v v.
Hypothesis lt_trans : forall a b c, lt a b -> lt b c -> lt a c.
Hypothesis lt_neg : forall v a b, ~ lt v a -> lt v b -> lt a b.

Variable stats : list StatRecord.
Variable field : str.
Hypothesis has_field : forall r, In r stats -> In field (Dict.keys r).

Local Abbreviation extreme_inv := (extreme_inv lt init field).

Lemma extreme_loop (post pre : list StatRecord) (state : extreme_state) :
  stats = pre ++ post ->
  extreme_inv pre state ->
  exists state',
    for_each (extreme_step better stats field)
             (combine (seq (length pre) (length post)) post) state = Ok state'
    /\ extreme_inv stats state'.
Proof.
  revert pre state; induction post as [|x post IH]; intros pre state Hsplit Hinv.
  - rewrite app_nil_r in Hsplit. subst pre. simpl. eauto.
  - simpl. destruct state as [[index value] ret_dict].
    assert (Hx : In x stats) by (rewrite Hsplit; apply in_elt).
    destruct (in_keys_get _ _ (has_field x Hx)) as [v' Hv'].
    unfold extreme_step at 1, Dict.getitem. rewrite Hv'. cbn [bind].
    assert (Hnth : nth_error stats (length pre) = Some x)
      by (rewrite Hsplit, nth_error_app2, Nat.sub_diag by lia; reflexivity).
    assert (Hidx : py_index stats (Z.of_nat (length pre)) = Ok x).
    { destruct (@py_index_in_range _ stats (Z.of_nat (length pre))) as (a & Ha & Hn).
      - unfold len. rewrite Hsplit, length_app. simpl. lia.
      - rewrite Nat2Z.id, Hnth in Hn. congruence. }
    assert (Hnew : forall state1,
               extreme_inv (pre ++ [x]) state1 ->
               exists state',
                 for_each (extreme_step better stats field)
                          (combine (seq (S (length pre)) (length post)) post) state1
                 = Ok state' /\ extreme_inv stats state').
    { intros state1 Hinv1.
      replace (S (length pre)) with (length (pre ++ [x]))
        by (rewrite length_app; simpl; lia).
      apply IH; [rewrite <- app_assoc; exact Hsplit | exact Hinv1]. }
    assert (Hlast : nth_error (pre ++ [x]) (length pre) = Some x)
      by (rewrite nth_error_app2, Nat.sub_diag by lia; reflexivity).
    assert (Hcases : forall j r', nth_error (pre ++ [x]) j = Some r' ->
                       (j < length pre)%nat /\ nth_error pre j = Some r'
                       \/ j = length pre /\ r' = x).
    { intros j r' Hj. destruct (Nat.lt_ge_cases j (length pre)) as [Hlt|Hge].
      - left. rewrite nth_error_app1 in Hj by assumption. auto.
      - right. rewrite nth_error_app2 in Hj by assumption.
        destruct (j - length pre)%nat as [|d] eqn:Hd; simpl in Hj.
        + split; [lia|congruence].
        + destruct d; discriminate. }
    assert (Hfresh : (forall j r' w, nth_error pre j = Some r' ->
                                     Dict.get r' field = Some w -> lt w v') ->
                     extreme_inv (pre ++ [x]) (length pre, Finite v', x)).
    { intros Hall. apply extreme_inv_cons; [destruct pre; discriminate|].
      exists v'. split; [reflexivity|]. split; [exact Hlast|]. split; [exact Hv'|].
      intros j r' w Hj Hg. destruct (Hcases j r' Hj) as [[Hlt Hpre]|[-> ->]].
      - pose proof (Hall j r' w Hpre Hg) as Hw. split; [|auto].
        intros Hc. apply (lt_irrefl (lt_trans Hw Hc)).
      - assert (w = v') by congruence. subst w. split; [apply lt_irrefl|lia]. }
    destruct pre as [|p pre'].
    + destruct Hinv as [r0 [= -> -> ->]]. rewrite better_init, Hidx. cbn [bind].
      apply Hnew, Hfresh. intros [|j] r' w Hj; discriminate.
    + destruct Hinv as (v & -> & Hi & Hv & Hbest).
      assert (Hilt : (index < length (p :: pre'))%nat)
        by (apply nth_error_Some; congruence).
      destruct (better v' (Finite v)) eqn:Hb.
      * apply better_finite in Hb. rewrite Hidx. cbn [bind].
        apply Hnew, Hfresh. intros j r' w Hj Hg.
        destruct (Hbest j r' w Hj Hg) as [Hle _]. exact (lt_neg Hle Hb).
      * assert (Hnb : ~ lt v v').
        { intros Hc. apply better_finite in Hc. congruence. }
        apply Hnew. apply extreme_inv_cons; [discriminate|].
        exists v. split; [reflexivity|].
        split; [rewrite nth_error_app1 by assumption; exact Hi|].
        split; [exact Hv|].
        intros j r' w Hj Hg. destruct (Hcases j r' Hj) as [[Hlt Hpre]|[-> ->]].
        -- apply (Hbest j r' w Hpre Hg).
        -- assert (w = v') by congruence. subst w. split; [assumption|lia].
Qed.

Lemma find_extreme_spec :
  stats <> [] ->
  exists i r v,
    find_extreme better init stats field = Ok (i, r)
    /\ nth_error stats i = Some r /\ Dict.get r field = Some v
    /\ forall j r' v', nth_error stats j = Some r' -> Dict.get r' field = Some v' ->
                       ~ lt v v' /\ ((j < i)%nat -> lt v' v).
Proof.
  intros Hne. unfold find_extreme, enumerate.
  destruct (@py_index_in_range _ stats 0) as (r0 & -> & _).
  { assert (length stats <> 0%nat)
      by (intros Hl; apply length_zero_iff_nil in Hl; contradiction).
    unfold len. lia. }
  cbn [bind].
  destruct (@extreme_loop stats [] (0%nat, init, r0)) as (state' & Hloop & Hinv);
    [reflexivity | simpl; eauto |].
  simpl in Hloop. rewrite Hloop. cbn [bind].
  destruct state' as [[i value] r].
  apply extreme_inv_cons in Hinv; [|assumption].
  destruct Hinv as (v & _ & Hi & Hv & Hbest).
  exists i, r, v. auto.
Qed.
End extreme.

Lemma find_max_first (stats : list StatRecord) (field : str) :
  stats <> [] -> (forall r, In r stats -> In field (Dict.keys r)) ->
  exists i r, find_max stats field = Ok (i, r) /\ first_max stats field i r.
Proof.
  intros Hne Hfield.
  destruct (@find_extreme_spec above NegInf Qlt) with (stats := stats) (field := field)
    as (i & r & v & Heq & Hi & Hv & Hbest); auto.
  - intros v m. apply Qltb_spec.
  - intros v. apply Qlt_irrefl.
  - intros a b c. apply Qlt_trans.
  - intros v a b Hn Hb. apply Qnot_lt_le in Hn. eapply Qle_lt_trans; eassumption.
  - exists i, r. split; [exact Heq|]. exists v. repeat split; auto.
    + apply Qnot_lt_le. eapply Hbest; eassumption.
    + eapply Hbest; eassumption.
Qed.

Lemma find_min_first (stats : list StatRecord) (field : str) :
  stats <> [] -> (forall r, In r stats -> In field (Dict.keys r)) ->
  exists i r, find_min stats field = Ok (i, r) /\ first_min stats field i r.
Proof.
  intros Hne Hfield.
  destruct (@find_extreme_spec below PosInf (fun m v => (v < m)%Q))
    with (stats := stats) (field := field)
    as (i & r & v & Heq & Hi & Hv & Hbest); auto.
  - intros v m. apply Qltb_spec.
  - intros v. apply Qlt_irrefl.
  - intros a b c Hab Hbc. eapply Qlt_trans; eassumption.
  - intros v a b Hn Hb. apply Qnot_lt_le in Hn. eapply Qlt_le_trans; eassumption.
  - exists i, r. split; [exact Heq|]. exists v. repeat split; auto.
    + apply Qnot_lt_le. eapply Hbest; eassumption.
    + eapply Hbest; eassumption.
Qed.

Lemma find_extreme_missing_field (better : Q -> bound -> bool) (init : bound)
  (stats : list StatRecord) (field : str) :
  stats <> [] -> ~ schema_has stats field ->
  find_extreme better init stats field = Raise KeyError.
Proof.
  intros Hne Hno. destruct stats as [|r0 rest]; [congruence|].
  assert (Hget : Dict.get r0 field = None).
  { apply get_None. intros Hin. apply Hno. exists r0. simpl. auto. }
  unfold find_extreme, enumerate. simpl.
  unfold Dict.getitem. rewrite Hget. reflexivity.
Qed.

(** C8: on a non-empty list of records sharing one schema, [find_max] returns
    the first index at which the field takes its maximum, with the record at
    that index; [find_min] returns the first index at which it takes its
    minimum (strict comparison), with the record at that index; each raises
    [KeyError] when the field is not in the records' schema. *)
Theorem find_max_min_first_extreme (stats : list StatRecord) (field : str) :
  stats <> [] -> same_schema stats ->
  (schema_has stats field ->
   (exists i r, find_max stats field = Ok (i, r) /\ first_max stats field i r)
   /\ (exists i r, find_min stats field = Ok (i, r) /\ first_min stats field i r))
  /\ (~ schema_has stats field ->
      find_max stats field = Raise KeyError /\ find_min stats field = Raise KeyError).
Proof.
  intros Hne Hschema. split.
  - intros (r0 & Hr0 & Hfield).
    assert (Hall : forall r, In r stats -> In field (Dict.keys r)).
    { intros r Hr. apply (Hschema r0 r Hr0 Hr). exact Hfield. }
    split; [apply find_max_first | apply find_min_first]; assumption.
  - intros Hno. split; apply find_extreme_missing_field; assumption.
Qed.

Lemma find_max_min_first_extreme_witness :
  example_records <> [] /\ same_schema example_records /\
  ((schema_has example_records (str_of "x") ->
    (exists i r, find_max example_records (str_of "x") = Ok (i, r)
                 /\ first_max example_records (str_of "x") i r)
    /\ (exists i r, find_min example_records (str_of "x") = Ok (i, r)
                    /\ first_min example_records (str_of "x") i r))
   /\ (~ schema_has example_records (str_of "x") ->
       find_max example_records (str_of "x") = Raise KeyError
       /\ find_min example_records (str_of "x") = Raise KeyError)).
Proof.
  assert (Hne : example_records <> []) by discriminate.
  assert (Hs : same_schema example_records).
  { intros r r' Hr Hr' key. simpl in Hr, Hr'.
    destruct Hr as [<-|[<-|[<-|[]]]]; destruct Hr' as [<-|[<-|[<-|[]]]];
      reflexivity. }
  split; [exact Hne|]. split; [exact Hs|].
  apply (@find_max_min_first_extreme example_records (str_of "x") Hne Hs).
Defined.

(** ** The dataset reducers: [reduce_avg] *)

Section fold_set_fresh.
Context {K V W : Type} `{EqDec K}.
Variable f : K * W -> V.

(** Assigning to pairwise distinct new keys appends them in order. *)
Lemma fold_set_fresh (l : list (K * W)) (d : Dict.t K V) :
  NoDup (map fst l) ->
  (forall k, In k (map fst l) -> ~ In k (Dict.keys d)) ->
  fold_left (fun d kv => Dict.set d (fst kv) (f kv)) l d
  = d ++ map (fun kv => (fst kv, f kv)) l.
Proof.
  revert d; induction l as [|kv l IH]; intros d Hnd Hfresh; simpl.
  - now rewrite app_nil_r.
  - inversion Hnd as [|? ? Hk Hl]; subst.
    rewrite set_absent by (apply Hfresh; simpl; auto).
    rewrite IH; [now rewrite <- app_assoc | assumption |].
    intros k Hin. unfold Dict.keys. rewrite map_app, in_app_iff. simpl.
    intros [Hd|[<-|[]]]; [|contradiction].
    apply (Hfresh k); simpl; auto.
Qed.
End fold_set_fresh.

Lemma filter_key_wf {V : Type} (d : Dict.t str V) (key : str) :
  Dict.wf d ->
  map snd (filter (has_key key) d)
  = match Dict.get d key with Some v => [v] | None => [] end.
Proof.
  unfold Dict.wf, has_key. induction d as [|[k v] d IH]; simpl; [reflexivity|].
  intros Hnd. inversion Hnd as [|? ? Hk Hd]; subst.
  destruct (eq_dec k key) as [->|Hne]; simpl.
  - destruct (eq_dec key key); [|congruence].
    rewrite IH by assumption. apply get_None in Hk. now rewrite Hk.
  - destruct (eq_dec key k); [congruence|]. auto.
Qed.

Lemma get_map_values {V W : Type} (g : W -> V) (d : Dict.t str W) (key : str) :
  Dict.get (map (fun kv => (fst kv, g (snd kv))) d) key
  = option_map g (Dict.get d key).
Proof.
  induction d as [|[k w] d IH]; simpl; [reflexivity|].
  destruct (eq_dec key k); [reflexivity|exact IH].
Qed.

Section reduce_avg_facts.
Context {F : Type} `{FloatArith F}.

Lemma accumulate_present (aggregated : Dict.t str F) (item : str * F) :
  In (fst item) (Dict.keys aggregated) ->
  exists v, Dict.get aggregated (fst item) = Some v
    /\ accumulate aggregated item
       = Ok (Dict.set aggregated (fst item) (fadd v (snd item))).
Proof.
  intros Hin. destruct (in_keys_get _ _ Hin) as [v Hv]. exists v.
  split; [exact Hv|]. destruct item as [key value]. simpl in *.
  unfold Dict.getitem. now rewrite Hv.
Qed.

Lemma accumulate_absent (aggregated : Dict.t str F) (item : str * F) :
  ~ In (fst item) (Dict.keys aggregated) ->
  accumulate aggregated item = Raise KeyError.
Proof.
  intros Hn. apply get_None in Hn. destruct item as [key value]. simpl in *.
  unfold Dict.getitem. now rewrite Hn.
Qed.

(** Accumulating items whose keys are all present keeps the keys and adds,
    to every field, the values of the items of that field, one after the
    other. *)
Lemma accumulate_all (items : list (str * F)) (aggregated : Dict.t str F) :
  Forall (fun item => In (fst item) (Dict.keys aggregated)) items ->
  exists aggregated',
    for_each accumulate items aggregated = Ok aggregated'
    /\ Dict.keys aggregated' = Dict.keys aggregated
    /\ forall key v0, Dict.get aggregated key = Some v0 ->
         Dict.get aggregated' key
         = Some (fold_left fadd (map snd (filter (has_key key) items)) v0).
Proof.
  revert aggregated; induction items as [|item items IH]; intros agg Hall; simpl.
  - exists agg. repeat split; auto.
  - inversion Hall as [|? ? Hitem Hrest]; subst.
    destruct (accumulate_present agg item Hitem) as (v & Hv & ->). simpl.
    set (agg1 := Dict.set agg (fst item) (fadd v (snd item))).
    assert (Hkeys : Dict.keys agg1 = Dict.keys agg) by (apply set_present; assumption).
    destruct (IH agg1) as (agg' & Heq & Hk' & Hvals); [now rewrite Hkeys|].
    exists agg'. split; [exact Heq|]. split; [congruence|].
    intros key v0 Hg. unfold has_key at 1.
    destruct (eq_dec (fst item) key) as [Hk|Hne]; simpl.
    + subst key. assert (v0 = v) by congruence. subst v0.
      apply Hvals. unfold agg1. apply get_set_same.
    + apply Hvals. unfold agg1. rewrite get_set_other by congruence. exact Hg.
Qed.

(** Accumulating an item whose key is not present raises [KeyError]. *)
Lemma accumulate_some_absent (items : list (str * F)) (aggregated : Dict.t str F) :
  Exists (fun item => ~ In (fst item) (Dict.keys aggregated)) items ->
  for_each accumulate items aggregated = Raise KeyError.
Proof.
  revert aggregated; induction items as [|item items IH]; intros agg Hex; simpl.
  - inversion Hex.
  - destruct (in_dec eq_dec (fst item) (Dict.keys agg)) as [Hin|Hn].
    + destruct (accumulate_present agg item Hin) as (v & Hv & ->). simpl.
      apply IH. rewrite (set_present _ _ _ Hin).
      inversion Hex; subst; [contradiction|assumption].
    + now rewrite accumulate_absent.
Qed.

(** The three phases of [reduce_avg] on a non-empty list. *)
Lemma reduce_avg_cons (first : Dict.t str F) (rest : list (Dict.t str F)) :
  Dict.wf first ->
  reduce_avg (first :: rest)
  = (aggregated <- for_each accumulate (concat (first :: rest))
                            (map (fun kv => (fst kv, fzero)) first) ;;
     for_each (fun averaged (item : str * F) =>
                 let (key, val) := item in
                 q <- float_div val (len (first :: rest)) ;;
                 Ok (Dict.set averaged key q))
              aggregated Dict.empty).
Proof.
  intros Hwf. unfold reduce_avg.
  change (py_index (first :: rest) 0) with (Ok first). cbn [bind]. unfold Dict.items.
  set (aggregated := fold_left _ first Dict.empty).
  assert (Hinit : aggregated = map (fun kv => (fst kv, fzero)) first).
  { apply (fold_set_fresh (fun _ : str * F => fzero) first Dict.empty Hwf).
    intros k _ []. }
  rewrite Hinit. apply f_equal2; [|reflexivity]. apply (@for_each_concat (str * F)).
Qed.

Lemma average_loop (n : Z) (aggregated : Dict.t str F) :
  n <> 0 -> Dict.wf aggregated ->
  for_each (fun averaged (item : str * F) =>
              let (key, val) := item in
              q <- float_div val n ;; Ok (Dict.set averaged key q))
           aggregated Dict.empty
  = Ok (map (fun kv => (fst kv, fdiv (snd kv) (of_int n))) aggregated).
Proof.
  intros Hn Hwf.
  rewrite for_each_total
    with (f := fun (d : Dict.t str F) (kv : str * F) =>
                 Dict.set d (fst kv) (fdiv (snd kv) (of_int n))).
  - rewrite (fold_set_fresh (fun kv : str * F => fdiv (snd kv) (of_int n))
                            aggregated Dict.empty Hwf) by (intros k _ []).
    reflexivity.
  - intros d [key val]. unfold float_div. destruct (Z.eqb_spec n 0); [contradiction|].
    reflexivity.
Qed.

(** [reduce_avg] on a non-empty list: either every field of every record is
    a field of the first record and the averages are returned, or some
    record brings a field the first record lacks and [KeyError] is raised. *)
Lemma reduce_avg_cases (first : Dict.t str F) (rest : list (Dict.t str F)) :
  Dict.wf first ->
  (Forall (fun item => In (fst item) (Dict.keys first)) (concat (first :: rest))
   /\ exists averaged,
       reduce_avg (first :: rest) = Ok averaged
       /\ Dict.keys averaged = Dict.keys first
       /\ forall key, In key (Dict.keys first) ->
            Dict.get averaged key
            = Some (fdiv (fsum (map snd (filter (has_key key)
                                                (concat (first :: rest)))))
                         (of_int (len (first :: rest)))))
  \/ (Exists (fun item => ~ In (fst item) (Dict.keys first)) (concat (first :: rest))
      /\ reduce_avg (first :: rest) = Raise KeyError).
Proof.
  intros Hwf. rewrite reduce_avg_cons by assumption.
  set (agg0 := map (fun kv : str * F => (fst kv, fzero)) first).
  assert (Hkeys0 : Dict.keys agg0 = Dict.keys first).
  { unfold agg0, Dict.keys. rewrite map_map. reflexivity. }
  destruct (Forall_Exists_dec (fun item : str * F => In (fst item) (Dict.keys first))
              (fun item => in_dec eq_dec (fst item) (Dict.keys first))
              (concat (first :: rest))) as [Hall|Hex].
  - left. split; [exact Hall|].
    destruct (@accumulate_all (concat (first :: rest)) agg0)
      as (agg' & -> & Hk' & Hvals); [now rewrite Hkeys0|].
    cbn [bind].
    rewrite average_loop;
      [|unfold len; simpl; lia|unfold Dict.wf; rewrite Hk', Hkeys0; exact Hwf].
    eexists. split; [reflexivity|]. split.
    + unfold Dict.keys in *. rewrite map_map. cbn [fst].
      etransitivity; [exact Hk'|exact Hkeys0].
    + intros key Hkey.
      destruct (in_keys_get first key Hkey) as [w Hw].
      rewrite (get_map_values (fun v : F => fdiv v (of_int (len (first :: rest))))
                              agg' key).
      rewrite (Hvals key fzero); [reflexivity|].
      unfold agg0. rewrite (get_map_values (fun _ : F => fzero) first key), Hw.
      reflexivity.
  - right. split; [exact Hex|].
    rewrite accumulate_some_absent; [reflexivity|now rewrite Hkeys0].
Qed.

(** The items of a field across records are the values of the records that
    carry it. *)
Lemma field_present (stats : list (Dict.t str F)) (key : str) :
  Forall Dict.wf stats ->
  map snd (filter (has_key key) (concat stats)) = present_values key stats.
Proof.
  induction 1 as [|r stats Hr Hstats IH]; simpl; [reflexivity|].
  rewrite filter_app, map_app, IH, (filter_key_wf key Hr). reflexivity.
Qed.

(** The values of a field that every record carries. *)
Lemma field_values (stats : list (Dict.t str F)) (key : str) :
  (forall r, In r stats -> In key (Dict.keys r)) ->
  exists vs,
    Forall2 (fun r v => Dict.get r key = Some v) stats vs
    /\ present_values key stats = vs.
Proof.
  induction stats as [|r stats IH]; intros Hkey; simpl.
  - exists []. split; [constructor|reflexivity].
  - destruct IH as (vs & Hvs & Hsum); [intros r' Hr'; apply Hkey; simpl; auto|].
    destruct (in_keys_get r key) as [v Hv]; [apply Hkey; simpl; auto|].
    exists (v :: vs). split; [constructor; assumption|].
    rewrite Hv, Hsum. reflexivity.
Qed.

Lemma in_record_in_concat (stats : list (Dict.t str F)) (r : Dict.t str F) (key : str) :
  In r stats -> In key (Dict.keys r) ->
  exists item, In item (concat stats) /\ fst item = key.
Proof.
  intros Hr Hkey. unfold Dict.keys in Hkey. apply in_map_iff in Hkey.
  destruct Hkey as (item & Hf & Hitem). exists item. split; [|exact Hf].
  apply in_concat. exists r. auto.
Qed.

(** Records whose fields are all fields of the first record are averaged:
    per field, the sum of the values that are there, over the number of all
    records. *)
Lemma reduce_avg_subset (first : Dict.t str F) (rest : list (Dict.t str F)) :
  Forall Dict.wf (first :: rest) ->
  (forall r key, In r (first :: rest) -> In key (Dict.keys r) ->
                 In key (Dict.keys first)) ->
  exists averaged,
    reduce_avg (first :: rest) = Ok averaged
    /\ Dict.keys averaged = Dict.keys first
    /\ forall key, In key (Dict.keys first) ->
         Dict.get averaged key
         = Some (fdiv (fsum (present_values key (first :: rest)))
                      (of_int (len (first :: rest)))).
Proof.
  intros Hwf Hsub.
  assert (Hwf1 : Dict.wf first) by (inversion Hwf; assumption).
  destruct (reduce_avg_cases rest Hwf1)
    as [(_ & averaged & Heq & Hkeys & Hvals)|(Hex & _)].
  - exists averaged. split; [exact Heq|]. split; [exact Hkeys|].
    intros key Hkey. rewrite (Hvals key Hkey), (field_present key Hwf). reflexivity.
  - exfalso. apply Exists_exists in Hex. destruct Hex as (item & Hitem & Hmiss).
    apply in_concat in Hitem. destruct Hitem as (r & Hr & Hitem).
    apply Hmiss. apply (Hsub r (fst item) Hr). unfold Dict.keys. now apply in_map.
Qed.

(** A field that the first record lacks makes [reduce_avg] raise [KeyError]. *)
Lemma reduce_avg_extra_field (first : Dict.t str F) (rest : list (Dict.t str F))
  (r : Dict.t str F) (key : str) :
  Dict.wf first ->
  In r (first :: rest) -> In key (Dict.keys r) -> ~ In key (Dict.keys first) ->
  reduce_avg (first :: rest) = Raise KeyError.
Proof.
  intros Hwf Hr Hkey Hmiss.
  destruct (reduce_avg_cases rest Hwf) as [(Hall & _)|(_ & Heq)]; [|exact Heq].
  exfalso. rewrite Forall_forall in Hall.
  destruct (in_record_in_concat _ _ _ Hr Hkey) as (item & Hitem & <-). auto.
Qed.
End reduce_avg_facts.

(** C2, as the code has it. [reduce_avg] raises [IndexError] on the empty
    list and [KeyError] when some record has a field that the first record
    lacks, and it fails in no other case. Over a non-empty list of records
    sharing one schema it returns, for every field of the schema, the float
    sum of that field over all records (from [0.0], left to right) divided
    by the number of records: the arithmetic mean as floats compute it. This
    holds for every float arithmetic, so for the doubles of Python. *)
Theorem reduce_avg_mean_or_failure {F : Type} `{FloatArith F}
  (stats : list (Dict.t str F)) :
  Forall Dict.wf stats ->
  (stats = [] -> reduce_avg stats = Raise IndexError)
  /\ ((exists r key, In r stats /\ In key (Dict.keys r)
                     /\ ~ In key (Dict.keys (hd Dict.empty stats))) ->
      reduce_avg stats = Raise KeyError)
  /\ (raises (reduce_avg stats) ->
      stats = []
      \/ exists r key, In r stats /\ In key (Dict.keys r)
                       /\ ~ In key (Dict.keys (hd Dict.empty stats)))
  /\ (stats <> [] -> same_schema stats ->
      exists averaged,
        reduce_avg stats = Ok averaged
        /\ Dict.keys averaged = Dict.keys (hd Dict.empty stats)
        /\ forall key, schema_has stats key ->
             exists vs,
               Forall2 (fun r v => Dict.get r key = Some v) stats vs
               /\ Dict.get averaged key
                  = Some (fdiv (fsum vs) (of_int (len stats)))).
Proof.
  intros Hwf. destruct stats as [|first rest].
  { split; [reflexivity|]. split; [intros (r & _ & [] & _)|].
    split; [auto|congruence]. }
  inversion Hwf as [|? ? Hwf1 Hwfrest]; subst. simpl hd.
  split; [discriminate|]. split.
  { intros (r & key & Hr & Hkey & Hmiss).
    apply (@reduce_avg_extra_field _ _ first rest r key Hwf1 Hr Hkey Hmiss). }
  split.
  - intros [e He]. right.
    destruct (@reduce_avg_cases _ _ first rest Hwf1) as [(_ & averaged & Heq & _)|(Hex & _)];
      [congruence|].
    apply Exists_exists in Hex. destruct Hex as (item & Hitem & Hmiss).
    apply in_concat in Hitem. destruct Hitem as (r & Hr & Hitem).
    exists r, (fst item). split; [exact Hr|]. split; [|exact Hmiss].
    unfold Dict.keys. now apply in_map.
  - intros _ Hschema.
    destruct (@reduce_avg_subset _ _ first rest Hwf) as (averaged & Heq & Hkeys & Hvals).
    { intros r key Hr Hkey. apply (Hschema r first Hr (or_introl eq_refl)). exact Hkey. }
    exists averaged. split; [exact Heq|]. split; [exact Hkeys|].
    intros key (r0 & Hr0 & Hkey0).
    assert (Hevery : forall r, In r (first :: rest) -> In key (Dict.keys r)).
    { intros r Hr. apply (Hschema r0 r Hr0 Hr). exact Hkey0. }
    destruct (@field_values _ (first :: rest) key Hevery) as (vs & Hvs & Hpresent).
    exists vs. split; [exact Hvs|].
    rewrite (Hvals key (Hevery first (or_introl eq_refl))), Hpresent. reflexivity.
Qed.

Lemma reduce_avg_mean_or_failure_witness :
  Forall Dict.wf tenth_records /\
  ((tenth_records = [] -> reduce_avg tenth_records = Raise IndexError)
   /\ ((exists r key, In r tenth_records /\ In key (Dict.keys r)
                      /\ ~ In key (Dict.keys (hd Dict.empty tenth_records))) ->
       reduce_avg tenth_records = Raise KeyError)
   /\ (raises (reduce_avg tenth_records) ->
       tenth_records = []
       \/ exists r key, In r tenth_records /\ In key (Dict.keys r)
                        /\ ~ In key (Dict.keys (hd Dict.empty tenth_records)))
   /\ (tenth_records <> [] -> same_schema tenth_records ->
       exists averaged,
         reduce_avg tenth_records = Ok averaged
         /\ Dict.keys averaged = Dict.keys (hd Dict.empty tenth_records)
         /\ forall key, schema_has tenth_records key ->
              exists vs,
                Forall2 (fun r v => Dict.get r key = Some v) tenth_records vs
                /\ Dict.get averaged key
                   = Some (fdiv (fsum vs) (of_int (len tenth_records))))).
Proof.
  assert (Hwf : Forall Dict.wf tenth_records).
  { repeat constructor; simpl; tauto. }
  split; [exact Hwf | exact (@reduce_avg_mean_or_failure float binary64 tenth_records Hwf)].
Defined.

(** C2 as stated fails: the schemas of [uneven_records] differ, yet
    [reduce_avg] returns a record instead of failing. *)
Lemma reduce_avg_uneven_schemas :
  ~ same_schema uneven_records
  /\ reduce_avg uneven_records = Ok [(str_of "x", 3%float); (str_of "y", 0.5%float)].
Proof.
  split; [|reflexivity].
  intros Hs.
  assert (Hy : In (str_of "y") (Dict.keys [(str_of "x", 4%float)])).
  { apply (Hs [(str_of "x", 2%float); (str_of "y", 1%float)] [(str_of "x", 4%float)]);
      simpl; auto. }
  simpl in Hy. destruct Hy as [Hy|[]]. discriminate Hy.
Qed.

(** The example of the specification: the mean of [{x: 2.0}] and [{x: 4.0}]
    is [{x: 3.0}], in doubles. *)
Example reduce_avg_two_records :
  reduce_avg [ [(str_of "x", 2%float)]; [(str_of "x", 4%float)] ]
  = Ok [(str_of "x", 3%float)].
Proof. reflexivity. Qed.

(** In doubles the result is the rounded quotient of the rounded sum, not the
    rounded mean: three records with [x = 0.1] average to
    [0.10000000000000002]. *)
Example reduce_avg_three_tenths :
  reduce_avg tenth_records = Ok [(str_of "x", 0.10000000000000002%float)].
Proof. reflexivity. Qed.

(** In exact arithmetic the float sum is the sum, and the result the mean. *)
Lemma fsum_exact (vs : list Q) : (fsum vs == Qsum vs)%Q.
Proof.
  unfold fsum. cbn [fadd fzero rational].
  enough (Hgen : forall acc, (fold_left Qplus vs acc == acc + Qsum vs)%Q).
  { rewrite Hgen. ring. }
  induction vs as [|v vs IH]; intros acc; simpl; [ring|]. rewrite IH. ring.
Qed.

(** ** The composition analyzer *)

Lemma filter_negb_length {A : Type} (p : A -> bool) (l : list A) :
  len l - len (filter (fun x => negb (p x)) l) = len (filter p l).
Proof.
  unfold len.
  enough (length l = length (filter p l) + length (filter (fun x => negb (p x)) l))%nat
    by lia.
  induction l as [|x l IH]; simpl; [reflexivity|].
  destruct (p x); simpl; lia.
Qed.

(** [total_valid] is the divisor that [get_gc_stats] computes. *)
Lemma get_gc_stats_eq (sequence : str) (valid_nucleobases : option (list str)) :
  get_gc_stats sequence valid_nucleobases
  = (gc_distribution <-
       truediv (str_count sequence "C" + str_count sequence "G")
               (total_valid sequence valid_nucleobases) ;;
     gc_skew <-
       truediv (str_count sequence "G" - str_count sequence "C")
               (str_count sequence "G" + str_count sequence "C") ;;
     Ok [(str_of "gc_distribution", gc_distribution); (str_of "gc_skew", gc_skew)]).
Proof.
  unfold get_gc_stats, total_valid.
  destruct valid_nucleobases as [valid|]; [rewrite filter_negb_length|]; reflexivity.
Qed.

Lemma filter_length_mono {A : Type} (p q : A -> bool) (l : list A) :
  (forall x, p x = true -> q x = true) ->
  (length (filter p l) <= length (filter q l))%nat.
Proof.
  intros Himp. induction l as [|x l IH]; simpl; [lia|].
  destruct (p x) eqn:Hp; [rewrite (Himp x Hp); simpl; lia|].
  destruct (q x); simpl; lia.
Qed.

Lemma filter_length_disjoint {A : Type} (p q : A -> bool) (l : list A) :
  (forall x, p x = true -> q x = false) ->
  (length (filter p l) + length (filter q l)
   = length (filter (fun x => p x || q x) l))%nat.
Proof.
  intros Hdis. induction l as [|x l IH]; simpl; [lia|].
  destruct (p x) eqn:Hp; [rewrite (Hdis x Hp); simpl; lia|].
  destruct (q x); simpl; lia.
Qed.

Lemma gc_count_le_valid (sequence : str) (valid_nucleobases : option (list str)) :
  match valid_nucleobases with
  | None => True
  | Some valid => In (str_of "C") valid /\ In (str_of "G") valid
  end ->
  0 <= str_count sequence "C" + str_count sequence "G"
    <= total_valid sequence valid_nucleobases.
Proof.
  intros Hvalid. unfold str_count, total_valid, len.
  rewrite <- Nat2Z.inj_add, filter_length_disjoint.
  2:{ intros x. destruct (eq_dec x "C"%char) as [->|]; [|discriminate].
      intros _. destruct (eq_dec "C"%char "G"%char); [discriminate|reflexivity]. }
  split; [lia|].
  destruct valid_nucleobases as [valid|]; apply inj_le.
  - destruct Hvalid as [HC HG]. apply py_in_spec in HC, HG.
    apply filter_length_mono. intros x.
    destruct (eq_dec x "C"%char) as [->|]; [intros _; exact HC|].
    destruct (eq_dec x "G"%char) as [->|]; [intros _; exact HG|discriminate].
  - apply filter_length_le.
Qed.

(** Where the fraction is one: with no alphabet, or with an alphabet that
    holds both [C] and [G], the GC distribution lies in [[0, 1]]. *)
Lemma gc_distribution_in_unit_interval
  (sequence : str) (valid_nucleobases : option (list str)) (gc_stats : StatRecord) :
  match valid_nucleobases with
  | None => True
  | Some valid => In (str_of "C") valid /\ In (str_of "G") valid
  end ->
  get_gc_stats sequence valid_nucleobases = Ok gc_stats ->
  exists q, Dict.get gc_stats (str_of "gc_distribution") = Some q /\ (0 <= q <= 1)%Q.
Proof.
  intros Hvalid. rewrite get_gc_stats_eq.
  pose proof (gc_count_le_valid sequence valid_nucleobases Hvalid) as Hle.
  unfold truediv at 1.
  destruct (Z.eqb_spec (total_valid sequence valid_nucleobases) 0) as [|Hnz];
    [discriminate|]. cbn [bind].
  destruct (truediv _ _) as [skew|]; [|discriminate]. cbn [bind].
  intros [= <-]. eexists. split; [reflexivity|].
  set (a := str_count sequence "C" + str_count sequence "G") in *.
  set (b := total_valid sequence valid_nucleobases) in *.
  assert (Hb : (0 < inject_Z b)%Q)
    by (change (inject_Z 0 < inject_Z b)%Q; rewrite <- Zlt_Qlt; lia).
  split.
  - apply Qle_shift_div_l; [exact Hb|]. rewrite Qmult_0_l.
    change (inject_Z 0 <= inject_Z a)%Q. rewrite <- Zle_Qle. lia.
  - apply Qle_shift_div_r; [exact Hb|]. rewrite Qmult_1_l.
    rewrite <- Zle_Qle. lia.
Qed.

(** C1, at the failing input: with the alphabet [A, B, C] the sequence [GGA]
    has one valid character, yet [get_gc_stats] counts its two [G]s and
    returns a GC distribution of 2. *)
Theorem get_gc_stats_counts_invalid_bases :
  total_valid (str_of "GGA") (Some abc_alphabet) = 1
  /\ get_gc_stats (str_of "GGA") (Some abc_alphabet)
     = Ok [(str_of "gc_distribution", 2 # 1); (str_of "gc_skew", 2 # 2)]
  /\ ~ (2 # 1 <= 1)%Q.
Proof.
  split; [reflexivity|]. split; [reflexivity|]. unfold Qle. simpl. lia.
Qed.

(** ** The dinucleotide analyzer *)

Lemma substrings_dinucleotides (sequence : str) :
  substrings sequence 2 2 = Ok (dinucleotide_windows sequence).
Proof.
  assert (Hn : num_windows sequence 2 2 = (length sequence / 2)%nat).
  { unfold num_windows, len.
    destruct (Z.ltb_spec (Z.of_nat (length sequence)) 2) as [Hlt|Hge].
    - destruct (length sequence) as [|[|n]]; [reflexivity|reflexivity|lia].
    - replace (Z.of_nat (length sequence) - 2)
        with (Z.of_nat (length sequence) + (-1) * 2) by lia.
      rewrite Z.div_add by lia.
      change 2 with (Z.of_nat 2) at 1.
      rewrite <- Nat2Z.inj_div. lia. }
  rewrite substrings_eq by lia. rewrite Hn. unfold dinucleotide_windows.
  apply f_equal, map_ext. intros i. apply f_equal2; simpl; lia.
Qed.

Lemma count_dinucleotide_eq (counts : Dict.t str Z) (d : str) :
  count_dinucleotide counts d
  = Ok (if py_in d (Dict.keys counts)
        then Dict.set counts d (count_of counts d + 1)
        else counts).
Proof.
  unfold count_dinucleotide, count_of, Dict.getitem.
  destruct (py_in d (Dict.keys counts)) eqn:Hin; [|reflexivity].
  apply py_in_spec, in_keys_get in Hin. destruct Hin as [v ->]. reflexivity.
Qed.

Lemma for_each_count_dinucleotide (ws : list str) (counts : Dict.t str Z) :
  for_each count_dinucleotide ws counts = Ok (fold_left count_if_key ws counts).
Proof. apply for_each_total. intros; apply count_dinucleotide_eq. Qed.

Lemma step_keys (counts : Dict.t str Z) (d : str) :
  Dict.keys (count_if_key counts d) = Dict.keys counts.
Proof.
  unfold count_if_key. destruct (py_in d (Dict.keys counts)) eqn:Hin; [|reflexivity].
  apply set_present. now apply py_in_spec.
Qed.

Lemma counted_dinucleotide_keys (ws : list str) (counts : Dict.t str Z) :
  Dict.keys (fold_left count_if_key ws counts) = Dict.keys counts.
Proof.
  revert counts; induction ws as [|w ws IH]; intros counts; simpl; [reflexivity|].
  now rewrite IH, step_keys.
Qed.

(** Only the windows that are keys are counted. *)
Lemma counted_dinucleotide_sum (ws : list str) (counts : Dict.t str Z) :
  Zsum (Dict.values (fold_left count_if_key ws counts))
  = Zsum (Dict.values counts)
    + len (filter (fun w => py_in w (Dict.keys counts)) ws).
Proof.
  revert counts; induction ws as [|w ws IH]; intros counts; unfold len in *; simpl;
    [lia|].
  rewrite IH, step_keys. unfold count_if_key.
  destruct (py_in w (Dict.keys counts)); simpl length;
    [rewrite Zsum_values_set|]; lia.
Qed.

Lemma counted_dinucleotide_count (ws : list str) (counts : Dict.t str Z) (key : str) :
  In key (Dict.keys counts) ->
  count_of (fold_left count_if_key ws counts) key
  = count_of counts key + Z.of_nat (count_occ eq_dec ws key).
Proof.
  revert counts; induction ws as [|w ws IH]; intros counts Hkey; simpl; [lia|].
  rewrite IH by (rewrite step_keys; exact Hkey). unfold count_if_key.
  destruct (eq_dec w key) as [->|Hne].
  - apply py_in_spec in Hkey. rewrite Hkey. unfold count_of at 1.
    rewrite get_set_same. lia.
  - destruct (py_in w (Dict.keys counts)); [|lia].
    unfold count_of at 1. rewrite get_set_other by congruence.
    fold (count_of counts key). lia.
Qed.

Lemma zero_counts_values (keys : list str) (d : Dict.t str Z) :
  Forall (fun v => v = 0) (Dict.values d) ->
  Forall (fun v => v = 0)
         (Dict.values (fold_left (fun counts k => Dict.set counts k 0) keys d)).
Proof.
  revert d; induction keys as [|k keys IH]; intros d Hd; simpl; [exact Hd|].
  apply IH. rewrite Forall_forall in *. intros v Hv.
  apply in_values_set in Hv. destruct Hv; auto.
Qed.

(** The initial mapping: every pair of the alphabet, each once, at zero. *)
Lemma zero_counts (keys : list str) :
  let counts := fold_left (fun counts d => Dict.set counts d 0) keys Dict.empty in
  Dict.wf counts
  /\ (forall key, In key (Dict.keys counts) <-> In key keys)
  /\ Forall (fun v => v = 0) (Dict.values counts).
Proof.
  intros counts. split; [|split].
  - apply (fold_set_wf (fun (_ : Dict.t str Z) (_ : str) => 0)). constructor.
  - intros key. unfold counts.
    rewrite (fold_set_keys (fun (_ : Dict.t str Z) (_ : str) => 0)). simpl. tauto.
  - apply zero_counts_values. constructor.
Qed.

Lemma Zsum_zero (l : list Z) : Forall (fun v => v = 0) l -> Zsum l = 0.
Proof. induction 1; simpl; lia. Qed.

Lemma normalize_loop (total : Z) (counts : Dict.t str Z) :
  Dict.wf counts ->
  for_each (fun frac (item : str * Z) =>
              let (d, count) := item in
              q <- truediv count total ;; Ok (Dict.set frac d q))
           counts Dict.empty
  = if total =? 0
    then match counts with [] => Ok Dict.empty | _ :: _ => Raise ZeroDivisionError end
    else Ok (map (fun kv => (fst kv, (inject_Z (snd kv) / inject_Z total)%Q)) counts).
Proof.
  intros Hwf. destruct (Z.eqb_spec total 0) as [->|Hnz].
  - destruct counts as [|[d count] counts]; reflexivity.
  - rewrite for_each_total
      with (f := fun (frac : Dict.t str Q) (kv : str * Z) =>
                   Dict.set frac (fst kv) (inject_Z (snd kv) / inject_Z total)%Q).
    + rewrite (fold_set_fresh
                 (fun kv : str * Z => (inject_Z (snd kv) / inject_Z total)%Q)
                 counts Dict.empty Hwf) by (intros k _ []).
      reflexivity.
    + intros frac [d count]. unfold truediv.
      destruct (Z.eqb_spec total 0); [contradiction|reflexivity].
Qed.

Lemma py_in_ext {K : Type} `{EqDec K} (x : K) (l l' : list K) :
  (forall y, In y l <-> In y l') -> py_in x l = py_in x l'.
Proof.
  intros Hext. destruct (py_in x l') eqn:Hl'.
  - apply py_in_spec, Hext, py_in_spec, Hl'.
  - apply py_in_false. intros Hin. apply py_in_false in Hl'. apply Hl', Hext, Hin.
Qed.

Lemma dinucleotide_keys_nil (alphabet : list str) :
  dinucleotide_keys alphabet = [] <-> alphabet = [].
Proof.
  split; [|intros ->; reflexivity].
  destruct alphabet as [|a rest]; [reflexivity|discriminate].
Qed.

(** C6, as the code has it: the analyzer counts exactly the non-overlapping
    two-character windows that are keys (other windows are dropped without
    failing) and divides each count by the total of counted windows; it
    fails, with [ZeroDivisionError], exactly when that total is zero and the
    alphabet is not empty. With an empty alphabet it returns the empty
    mapping. *)
Theorem get_dinucleotide_freqs_normalized (SETTINGS : Settings.t) (sequence : str) :
  let alphabet := Settings.valid_nucleobases SETTINGS in
  let total := matched_total alphabet sequence in
  match get_dinucleotide_freqs SETTINGS sequence with
  | Raise e => e = ZeroDivisionError /\ total = 0 /\ alphabet <> []
  | Ok freqs =>
      (total <> 0 \/ alphabet = [])
      /\ NoDup (Dict.keys freqs)
      /\ (forall key, In key (Dict.keys freqs) <-> In key (dinucleotide_keys alphabet))
      /\ (forall key, In key (dinucleotide_keys alphabet) ->
            Dict.get freqs key
            = Some (inject_Z (matched sequence key) / inject_Z total)%Q)
  end.
Proof.
  intros alphabet total. unfold get_dinucleotide_freqs.
  fold alphabet. fold (dinucleotide_keys alphabet).
  rewrite substrings_dinucleotides. cbn [bind].
  rewrite for_each_count_dinucleotide. cbn [bind].
  destruct (zero_counts (dinucleotide_keys alphabet)) as (Hwf0 & Hkeys0 & Hzero).
  set (counts0 := fold_left _ (dinucleotide_keys alphabet) Dict.empty) in *.
  set (counts := fold_left _ (dinucleotide_windows sequence) counts0).
  assert (Hkeys : Dict.keys counts = Dict.keys counts0)
    by apply counted_dinucleotide_keys.
  assert (Hwf : Dict.wf counts) by (unfold Dict.wf; rewrite Hkeys; exact Hwf0).
  assert (Htotal : py_sum (Dict.values counts) = total).
  { rewrite py_sum_Zsum. unfold counts. rewrite counted_dinucleotide_sum.
    rewrite (Zsum_zero Hzero). unfold total, matched_total.
    rewrite (filter_ext _ (fun w => py_in w (dinucleotide_keys alphabet)));
      [reflexivity|]. intros w. apply py_in_ext, Hkeys0. }
  rewrite Htotal. unfold Dict.items. rewrite normalize_loop by exact Hwf.
  assert (Hempty : counts = [] <-> alphabet = []).
  { rewrite <- dinucleotide_keys_nil. split; intros Hnil.
    - destruct (dinucleotide_keys alphabet) as [|k ks]; [reflexivity|].
      assert (Hin : In k (Dict.keys counts)) by (rewrite Hkeys; apply Hkeys0; left; auto).
      rewrite Hnil in Hin. destruct Hin.
    - destruct counts as [|[k v] rest]; [reflexivity|].
      assert (Hin : In k (dinucleotide_keys alphabet))
        by (apply Hkeys0; rewrite <- Hkeys; left; reflexivity).
      rewrite Hnil in Hin. destruct Hin. }
  destruct (Z.eqb_spec total 0) as [Hz|Hnz].
  - destruct counts as [|item rest] eqn:Hcounts.
    + assert (Ha : alphabet = []) by (apply Hempty; reflexivity).
      split; [right; exact Ha|]. split; [constructor|]. 
      apply dinucleotide_keys_nil in Ha. rewrite Ha. simpl. split; tauto.
    + split; [reflexivity|]. split; [exact Hz|].
      intros Ha. apply Hempty in Ha. discriminate Ha.
  - split; [left; exact Hnz|].
    assert (Hmap : Dict.keys (map (fun kv : str * Z =>
                                     (fst kv, (inject_Z (snd kv) / inject_Z total)%Q))
                                  counts) = Dict.keys counts).
    { unfold Dict.keys. rewrite map_map. reflexivity. }
    rewrite Hmap. split; [exact Hwf|]. split.
    + intros key. rewrite Hkeys. apply Hkeys0.
    + intros key Hkey.
      rewrite (get_map_values (fun v : Z => (inject_Z v / inject_Z total)%Q) counts key).
      assert (Hin0 : In key (Dict.keys counts0)) by (apply Hkeys0; exact Hkey).
      assert (Hc : count_of counts key = matched sequence key).
      { unfold counts. rewrite counted_dinucleotide_count by exact Hin0.
        destruct (in_keys_get _ _ Hin0) as [v Hv]. unfold count_of at 1. rewrite Hv.
        assert (v = 0); [|subst v; reflexivity].
        rewrite Forall_forall in Hzero. apply Hzero.
        apply get_Some_in in Hv. change v with (snd (key, v)). now apply in_map. }
      destruct (in_keys_get counts key) as [v Hv]; [rewrite Hkeys; exact Hin0|].
      unfold count_of in Hc. rewrite Hv in Hc. rewrite Hv. simpl. now subst v.
Qed.

(** C6 as stated fails: with an empty alphabet no window is counted, the
    total is zero, and the analyzer returns the empty mapping instead of
    failing. *)
Lemma get_dinucleotide_freqs_empty_alphabet :
  matched_total (Settings.valid_nucleobases empty_alphabet) (str_of "ACGT") = 0
  /\ get_dinucleotide_freqs empty_alphabet (str_of "ACGT") = Ok Dict.empty.
Proof. split; reflexivity. Qed.

(** ** Scenarios of the test suite *)

(** One base only: long palindromes, none diverse enough. *)
Example scenario_no_diversity :
  find_palindromes (str_of "AAAAAAAAAA") 2 2
  = Ok {| num_palindromes := 0; palindromes := [] |}.
Proof. reflexivity. Qed.

(** Three palindromes of odd length and two of even length. *)
Example scenario_odd_and_even :
  find_palindromes (str_of "ABACACBBCA") 2 2
  = Ok {| num_palindromes := 5;
          palindromes := [ {| Palindrome.pos := 0; Palindrome.length := 3 |};
                           {| Palindrome.pos := 2; Palindrome.length := 3 |};
                           {| Palindrome.pos := 3; Palindrome.length := 3 |};
                           {| Palindrome.pos := 5; Palindrome.length := 4 |};
                           {| Palindrome.pos := 4; Palindrome.length := 6 |} ] |}.
Proof. reflexivity. Qed.

(** The top three 5-mers of the toy dataset, in aggregate mode. *)
Example scenario_top_5_mers :
  find_top_k_mers toy_dataset 3 5 false
  = Ok [ [ (str_of "AAAAA", 6); (str_of "BBBBB", 5); (str_of "CCCCC", 5) ] ].
Proof. reflexivity. Qed.

(** * Further properties *)

(** ** The window scanner outside its precondition, and tiling *)

Lemma py_range_neg (stop step : Z) :
  0 <= stop -> step < 0 -> py_range 0 stop step = Ok [].
Proof.
  intros Hstop Hstep. unfold py_range, range_len.
  destruct (Z.eqb_spec step 0); [lia|].
  destruct (Z.ltb_spec 0 step); [lia|].
  destruct (Z.ltb_spec stop 0); [lia|]. reflexivity.
Qed.

Lemma py_slice_length_nonneg {A : Type} (l : list A) (lo hi : Z) :
  0 <= len (py_slice l lo hi).
Proof. apply len_nonneg. Qed.

Lemma substrings_loop_negative (s : str) (w : Z) (indices : list Z) :
  w < 0 -> substrings_loop s w indices = [].
Proof.
  intros Hw. destruct indices as [|i rest]; simpl; [reflexivity|].
  destruct (Z.eqb_spec (len (py_slice s i (i + w))) w) as [Heq|]; [|reflexivity].
  pose proof (py_slice_length_nonneg s i (i + w)). lia.
Qed.

Lemma substrings_loop_zero (s : str) (indices : list Z) :
  Forall (fun i => 0 <= i) indices ->
  substrings_loop s 0 indices = repeat [] (length indices).
Proof.
  induction 1 as [|i rest Hi Hrest IH]; simpl; [reflexivity|].
  rewrite Z.add_0_r, py_slice_window by lia.
  unfold window. rewrite Nat.sub_diag. simpl. now rewrite IH.
Qed.

(** X1: outside the precondition of the scanner. A zero [hop_len] raises
    [ValueError]; a negative [hop_len] or a negative [win_len] yields
    nothing; a zero [win_len] yields one empty string per offset
    [0, hop_len, 2*hop_len, ...] below the length of the sequence. *)
Theorem substrings_degenerate (sequence : str) (win_len hop_len : Z) :
  (hop_len = 0 -> substrings sequence win_len hop_len = Raise ValueError)
  /\ (hop_len < 0 -> substrings sequence win_len hop_len = Ok [])
  /\ (1 <= hop_len -> win_len < 0 -> substrings sequence win_len hop_len = Ok [])
  /\ (1 <= hop_len -> win_len = 0 ->
      substrings sequence win_len hop_len
      = Ok (repeat [] (Z.to_nat ((len sequence + hop_len - 1) / hop_len)))).
Proof.
  pose proof (len_nonneg sequence) as Hlen.
  split; [intros ->; reflexivity|].
  split; [intros Hh; unfold substrings; now rewrite py_range_neg|].
  split.
  - intros Hh Hw. unfold substrings. rewrite py_range_pos by assumption.
    simpl. now rewrite substrings_loop_negative.
  - intros Hh ->. unfold substrings. rewrite py_range_pos by assumption.
    cbn [bind]. rewrite substrings_loop_zero.
    + rewrite length_map, length_seq. apply f_equal, f_equal.
      destruct (Z.ltb_spec 0 (len sequence)) as [Hpos|Hzero].
      * replace (len sequence + hop_len - 1) with (len sequence - 1 + 1 * hop_len) by lia.
        rewrite Z.div_add by lia. reflexivity.
      * replace (len sequence) with 0 by lia. simpl.
        rewrite Z.div_small by lia. reflexivity.
    + apply Forall_forall. intros i Hi. apply in_map_iff in Hi.
      destruct Hi as (n & <- & _). nia.
Qed.

Lemma firstn_plus {A : Type} (a b : nat) (l : list A) :
  firstn (a + b) l = firstn a l ++ firstn b (skipn a l).
Proof.
  revert l; induction a as [|a IH]; intros l; simpl; [reflexivity|].
  destruct l as [|x l]; simpl; [now rewrite firstn_nil|]. now rewrite IH.
Qed.

Lemma concat_windows (s : str) (w n : nat) :
  concat (map (fun i => window s (i * w) w) (seq 0 n)) = firstn (n * w) s.
Proof.
  induction n as [|n IH]; [reflexivity|].
  rewrite seq_S, map_app, concat_app, IH. simpl.
  rewrite app_nil_r. replace (w + n * w)%nat with (n * w + w)%nat by lia.
  now rewrite firstn_plus.
Qed.

(** X2: with the hop equal to the window length (as the dinucleotide
    analyzer uses the scanner) the yielded windows tile the sequence: put
    together they are the sequence without a tail shorter than one window. *)
Theorem substrings_tile (sequence : str) (win_len : Z) :
  1 <= win_len ->
  exists windows tail,
    substrings sequence win_len win_len = Ok windows
    /\ sequence = concat windows ++ tail
    /\ len tail < win_len
    /\ len windows = len sequence / win_len.
Proof.
  intros Hw. set (n := num_windows sequence win_len win_len).
  exists (map (fun i => window sequence (i * Z.to_nat win_len) (Z.to_nat win_len))
              (seq 0 n)),
         (skipn (n * Z.to_nat win_len) sequence).
  split; [apply substrings_eq; assumption|].
  rewrite concat_windows. split; [now rewrite firstn_skipn|].
  assert (Hn : Z.of_nat n = len sequence / win_len).
  { unfold n, num_windows. pose proof (len_nonneg sequence).
    destruct (Z.ltb_spec (len sequence) win_len).
    - rewrite Z.div_small by lia. reflexivity.
    - replace (len sequence - win_len) with (len sequence + (-1) * win_len) by lia.
      rewrite Z.div_add by lia.
      assert (0 <= len sequence / win_len) by (apply Z.div_pos; lia). lia. }
  split.
  - unfold len in *. rewrite length_skipn.
    pose proof (Z.mod_pos_bound (Z.of_nat (length sequence)) win_len ltac:(lia)).
    pose proof (Z.div_mod (Z.of_nat (length sequence)) win_len ltac:(lia)). nia.
  - unfold len at 1. now rewrite length_map, length_seq.
Qed.

Lemma substrings_tile_witness :
  1 <= 2 /\
  exists windows tail,
    substrings (str_of "ACGTA") 2 2 = Ok windows
    /\ str_of "ACGTA" = concat windows ++ tail
    /\ len tail < 2
    /\ len windows = len (str_of "ACGTA") / 2.
Proof. split; [lia | apply (@substrings_tile (str_of "ACGTA") 2); lia]. Defined.

(** ** The composition analyzer: skew and failure *)

Lemma str_count_nonneg (sequence : str) (c : ascii) : 0 <= str_count sequence c.
Proof. apply len_nonneg. Qed.

Lemma total_valid_nonneg (sequence : str) (valid_nucleobases : option (list str)) :
  0 <= total_valid sequence valid_nucleobases.
Proof. destruct valid_nucleobases; apply len_nonneg. Qed.

Lemma truediv_Ok (a b : Z) (q : Q) :
  truediv a b = Ok q <-> b <> 0 /\ q = (inject_Z a / inject_Z b)%Q.
Proof.
  unfold truediv. destruct (Z.eqb_spec b 0); split.
  - discriminate.
  - intros [Hb _]. contradiction.
  - intros [= <-]. auto.
  - intros [_ ->]. reflexivity.
Qed.

Lemma Qdiv_bounds (a b lo hi : Z) :
  0 < b -> lo * b <= a <= hi * b ->
  (inject_Z lo <= inject_Z a / inject_Z b <= inject_Z hi)%Q.
Proof.
  intros Hb [Hlo Hhi].
  assert (HbQ : (0 < inject_Z b)%Q)
    by (change (inject_Z 0 < inject_Z b)%Q; rewrite <- Zlt_Qlt; lia).
  split.
  - apply Qle_shift_div_l; [exact HbQ|].
    rewrite <- inject_Z_mult, <- Zle_Qle. exact Hlo.
  - apply Qle_shift_div_r; [exact HbQ|].
    rewrite <- inject_Z_mult, <- Zle_Qle. exact Hhi.
Qed.

(** X3: whenever [get_gc_stats] returns, with or without an alphabet, the GC
    skew lies in [[-1, 1]] and the GC distribution is strictly positive: a
    sequence without any [C] or [G] never gets a distribution of 0, it makes
    the skew's division fail. *)
Theorem get_gc_stats_returns
  (sequence : str) (valid_nucleobases : option (list str)) (gc_stats : StatRecord) :
  get_gc_stats sequence valid_nucleobases = Ok gc_stats ->
  exists gc_distribution gc_skew,
    gc_stats = [(str_of "gc_distribution", gc_distribution); (str_of "gc_skew", gc_skew)]
    /\ (0 < gc_distribution)%Q
    /\ (-1 <= gc_skew <= 1)%Q.
Proof.
  rewrite get_gc_stats_eq. intros Hrun.
  apply bind_Ok in Hrun. destruct Hrun as (dist & Hdist & Hrun).
  apply bind_Ok in Hrun. destruct Hrun as (skew & Hskew & [= <-]).
  apply truediv_Ok in Hdist, Hskew.
  destruct Hdist as [Htv ->]. destruct Hskew as [Hgc ->].
  pose proof (str_count_nonneg sequence "C") as Hc.
  pose proof (str_count_nonneg sequence "G") as Hg.
  pose proof (total_valid_nonneg sequence valid_nucleobases) as Ht.
  do 2 eexists. split; [reflexivity|]. split.
  - apply Qlt_shift_div_l.
    + change (inject_Z 0 < inject_Z (total_valid sequence valid_nucleobases))%Q.
      rewrite <- Zlt_Qlt. lia.
    + rewrite Qmult_0_l. change (inject_Z 0 < inject_Z (str_count sequence "C"
                                                        + str_count sequence "G"))%Q.
      rewrite <- Zlt_Qlt. lia.
  - apply (@Qdiv_bounds (str_count sequence "G" - str_count sequence "C")
                       (str_count sequence "G" + str_count sequence "C") (-1) 1); lia.
Qed.

Lemma get_gc_stats_returns_witness :
  get_gc_stats (str_of "GGCA") None
  = Ok [(str_of "gc_distribution", 3 # 4); (str_of "gc_skew", 1 # 3)] /\
  exists gc_distribution gc_skew,
    [(str_of "gc_distribution", 3 # 4); (str_of "gc_skew", 1 # 3)]
    = [(str_of "gc_distribution", gc_distribution); (str_of "gc_skew", gc_skew)]
    /\ (0 < gc_distribution)%Q
    /\ (-1 <= gc_skew <= 1)%Q.
Proof.
  split; [reflexivity|].
  apply (@get_gc_stats_returns (str_of "GGCA") None). reflexivity.
Defined.

(** X4: [get_gc_stats] fails exactly when there is no valid character or no
    [C] and no [G] in the sequence, and then with [ZeroDivisionError]; with
    no alphabet that is: exactly when the sequence holds no [C] and no [G]. *)
Theorem get_gc_stats_failure (sequence : str) (valid_nucleobases : option (list str)) :
  (raises (get_gc_stats sequence valid_nucleobases) <->
   total_valid sequence valid_nucleobases = 0
   \/ str_count sequence "C" + str_count sequence "G" = 0)
  /\ (forall e, get_gc_stats sequence valid_nucleobases = Raise e ->
                e = ZeroDivisionError)
  /\ (raises (get_gc_stats sequence None) <->
      str_count sequence "C" + str_count sequence "G" = 0).
Proof.
  assert (Hgen : forall valid,
             (raises (get_gc_stats sequence valid) <->
              total_valid sequence valid = 0
              \/ str_count sequence "C" + str_count sequence "G" = 0)
             /\ (forall e, get_gc_stats sequence valid = Raise e ->
                           e = ZeroDivisionError)).
  { intros valid. rewrite get_gc_stats_eq. unfold truediv, raises.
    destruct (Z.eqb_spec (total_valid sequence valid) 0) as [Htv|Htv]; cbn [bind].
    - split; [split; eauto|]. intros e [= <-]. reflexivity.
    - destruct (Z.eqb_spec (str_count sequence "G" + str_count sequence "C") 0)
        as [Hgc|Hgc]; cbn [bind].
      + split; [split; [right; lia|eauto]|]. intros e [= <-]. reflexivity.
      + split; [|discriminate]. split; [intros [e He]; discriminate|].
        intros [H|H]; [contradiction|lia]. }
  split; [apply Hgen|]. split; [apply Hgen|].
  rewrite (proj1 (Hgen None)). split; [|auto].
  intros [Hempty|H]; [|exact H].
  pose proof (@gc_count_le_valid sequence None I). lia.
Qed.

(** ** The invalid-base scanner *)

Lemma find_invalid_bases_fold (SETTINGS : Settings.t) (l : str) (offset : nat)
  (acc : invalid_stats) :
  fold_left (note_invalid SETTINGS) (combine (seq offset (length l)) l) acc
  = {| num_invalid :=
         num_invalid acc
         + len (invalid_from (Settings.valid_nucleobases SETTINGS) offset l);
       invalid_bases :=
         invalid_bases acc
         ++ invalid_from (Settings.valid_nucleobases SETTINGS) offset l |}.
Proof.
  revert offset acc; induction l as [|b l IH]; intros offset acc; simpl.
  - rewrite Z.add_0_r, app_nil_r. now destruct acc.
  - rewrite IH. unfold note_invalid.
    destruct (py_in [b] (Settings.valid_nucleobases SETTINGS)); simpl; [reflexivity|].
    rewrite <- app_assoc. simpl. f_equal. unfold len. simpl length. lia.
Qed.

Lemma find_invalid_bases_eq (SETTINGS : Settings.t) (sequence : str) :
  find_invalid_bases SETTINGS sequence
  = {| num_invalid := len (invalid_from (Settings.valid_nucleobases SETTINGS) 0 sequence);
       invalid_bases := invalid_from (Settings.valid_nucleobases SETTINGS) 0 sequence |}.
Proof. unfold find_invalid_bases, enumerate. now rewrite find_invalid_bases_fold. Qed.

Lemma in_invalid_from (alphabet : list str) (l : str) (offset : nat) (entry : Invalid.t) :
  In entry (invalid_from alphabet offset l) <->
  (offset <= Invalid.pos entry)%nat
  /\ nth_error l (Invalid.pos entry - offset) = Some (Invalid.base entry)
  /\ ~ In [Invalid.base entry] alphabet.
Proof.
  revert offset; induction l as [|b l IH]; intros offset; simpl.
  - split; [tauto|]. intros (_ & Hnth & _). destruct (Invalid.pos entry - offset)%nat;
      discriminate.
  - assert (Hstep : In entry (invalid_from alphabet (S offset) l) <->
                    (offset < Invalid.pos entry)%nat
                    /\ nth_error (b :: l) (Invalid.pos entry - offset)
                       = Some (Invalid.base entry)
                    /\ ~ In [Invalid.base entry] alphabet).
    { rewrite IH. split; intros (Hle & Hnth & Hbad); (split; [lia|]); (split; [|exact Hbad]).
      - replace (Invalid.pos entry - offset)%nat with (S (Invalid.pos entry - S offset))
          by lia. exact Hnth.
      - replace (Invalid.pos entry - offset)%nat with (S (Invalid.pos entry - S offset))
          in Hnth by lia. exact Hnth. }
    assert (Hhead : forall Hle : (offset <= Invalid.pos entry)%nat,
               ~ (offset < Invalid.pos entry)%nat ->
               nth_error (b :: l) (Invalid.pos entry - offset) = Some b).
    { intros Hle Hn. replace (Invalid.pos entry - offset)%nat with 0%nat by lia.
      reflexivity. }
    destruct (py_in [b] alphabet) eqn:Hb.
    + rewrite Hstep. apply py_in_spec in Hb. split.
      * intros (Hlt & Hnth & Hbad). split; [lia|auto].
      * intros (Hle & Hnth & Hbad). split; [|auto].
        destruct (Nat.eq_dec offset (Invalid.pos entry)) as [Heq|]; [|lia].
        exfalso. rewrite (Hhead Hle) in Hnth by lia. injection Hnth as ->. auto.
    + apply py_in_false in Hb. simpl. rewrite Hstep. split.
      * intros [<-|(Hlt & Hnth & Hbad)]; simpl.
        -- rewrite Nat.sub_diag. auto.
        -- split; [lia|auto].
      * intros (Hle & Hnth & Hbad).
        destruct (Nat.eq_dec offset (Invalid.pos entry)) as [Heq|]; [|right; split; [lia|auto]].
        left. rewrite (Hhead Hle) in Hnth by lia. injection Hnth as Hbase.
        destruct entry as [p c]. simpl in *. now subst.
Qed.

Lemma invalid_from_sorted (alphabet : list str) (l : str) (offset : nat) :
  StronglySorted (fun a b => (Invalid.pos a < Invalid.pos b)%nat)
                 (invalid_from alphabet offset l).
Proof.
  revert offset; induction l as [|b l IH]; intros offset; simpl; [constructor|].
  destruct (py_in [b] alphabet); [apply IH|].
  constructor; [apply IH|]. apply Forall_forall. intros entry Hin.
  apply in_invalid_from in Hin. simpl. lia.
Qed.

Lemma invalid_from_length (alphabet : list str) (l : str) (offset : nat) :
  len (invalid_from alphabet offset l)
  = len (filter (fun base => negb (py_in [base] alphabet)) l).
Proof.
  unfold len. f_equal. revert offset; induction l as [|b l IH]; intros offset; simpl;
    [reflexivity|].
  destruct (py_in [b] alphabet); simpl; auto.
Qed.

(** X5: [find_invalid_bases] reports exactly the invalid characters: an
    entry [(pos, base)] is in the report if and only if [base] is the
    character of the sequence at [pos] and is not in the alphabet. *)
Theorem find_invalid_bases_exact (SETTINGS : Settings.t) (sequence : str)
  (pos : nat) (base : ascii) :
  In {| Invalid.pos := pos; Invalid.base := base |}
     (invalid_bases (find_invalid_bases SETTINGS sequence))
  <-> nth_error sequence pos = Some base
      /\ ~ In [base] (Settings.valid_nucleobases SETTINGS).
Proof.
  rewrite find_invalid_bases_eq. simpl. rewrite in_invalid_from. simpl.
  rewrite Nat.sub_0_r. split; [tauto|]. intros [Hnth Hbad]. split; [lia|auto].
Qed.

(** X6: the report is in left-to-right order, no position occurs twice, and
    [num_invalid] is the number of its entries. *)
Theorem find_invalid_bases_ordered (SETTINGS : Settings.t) (sequence : str) :
  let report := find_invalid_bases SETTINGS sequence in
  StronglySorted (fun a b => (Invalid.pos a < Invalid.pos b)%nat) (invalid_bases report)
  /\ NoDup (map Invalid.pos (invalid_bases report))
  /\ num_invalid report = len (invalid_bases report).
Proof.
  intros report. unfold report. rewrite find_invalid_bases_eq. simpl.
  pose proof (invalid_from_sorted (Settings.valid_nucleobases SETTINGS) sequence 0) as Hs.
  split; [exact Hs|]. split; [|reflexivity].
  induction Hs as [|a l Hl IH Ha]; simpl; constructor; [|exact IH].
  rewrite in_map_iff. intros (b & Hpos & Hb). rewrite Forall_forall in Ha.
  specialize (Ha b Hb). lia.
Qed.

(** X7: every character of a sequence is either reported by
    [find_invalid_bases] or counted as valid by [get_gc_stats] under the same
    alphabet: [num_invalid] and [total_valid] add up to the length. So a
    sequence whose characters are all reported makes [get_gc_stats] fail with
    [ZeroDivisionError]. *)
Theorem find_invalid_bases_complement (SETTINGS : Settings.t) (sequence : str) :
  let alphabet := Settings.valid_nucleobases SETTINGS in
  num_invalid (find_invalid_bases SETTINGS sequence) + total_valid sequence (Some alphabet)
  = len sequence
  /\ (num_invalid (find_invalid_bases SETTINGS sequence) = len sequence ->
      get_gc_stats sequence (Some alphabet) = Raise ZeroDivisionError).
Proof.
  intros alphabet.
  assert (Hsum : num_invalid (find_invalid_bases SETTINGS sequence)
                 + total_valid sequence (Some alphabet) = len sequence).
  { rewrite find_invalid_bases_eq. simpl. rewrite invalid_from_length.
    rewrite <- (filter_negb_length (fun base => py_in [base] alphabet) sequence).
    unfold alphabet. lia. }
  split; [exact Hsum|]. intros Hall.
  rewrite get_gc_stats_eq. unfold truediv at 1.
  replace (total_valid sequence (Some alphabet)) with 0 by lia. reflexivity.
Qed.

(** ** The k-mer counter: occurrences, insertion order, degenerate [k] *)

Lemma count_occ_map_filter {A : Type} (f : A -> str) (l : list A) (key : str) :
  count_occ eq_dec (map f l) key
  = length (filter (fun x => if eq_dec (f x) key then true else false) l).
Proof.
  induction l as [|x l IH]; simpl; [reflexivity|].
  destruct (eq_dec (f x) key); simpl; auto.
Qed.

(** [find_k_mers] counts the windows of the scanner, whatever [k] is. *)
Lemma find_k_mers_run (sequence : str) (k : Z) :
  exists windows,
    substrings sequence k 1 = Ok windows
    /\ find_k_mers sequence k = Ok (fold_left count_up windows Dict.empty).
Proof.
  unfold find_k_mers. destruct (substrings sequence k 1) as [windows|e] eqn:Hs.
  - exists windows. split; [reflexivity|]. cbn [bind]. apply for_each_count_k_mer.
  - unfold substrings, py_range in Hs. discriminate Hs.
Qed.

(** X8: for [k >= 1] the count that [find_k_mers] gives a string of length
    [k] is the number of offsets at which it occurs in the sequence
    (overlapping occurrences included); a string that does not occur has no
    entry. *)
Theorem find_k_mers_counts_occurrences (sequence : str) (k : Z) :
  1 <= k ->
  exists d : Dict.t str Z,
    find_k_mers sequence k = Ok d
    /\ forall key : str,
         len key = k ->
         Dict.get d key
         = if (occurrences key sequence =? 0)%nat then None
           else Some (Z.of_nat (occurrences key sequence)).
Proof.
  intros Hk. eexists. split; [apply find_k_mers_windows; assumption|].
  intros key Hlen.
  set (windows := map (fun i => window sequence i (Z.to_nat k))
                      (seq 0 (num_windows sequence k 1))).
  assert (Hocc : count_occ (@eq_dec str _) windows key = occurrences key sequence).
  { unfold windows, occurrences. rewrite count_occ_map_filter.
    replace (Z.to_nat k) with (length key) by (unfold len in Hlen; lia).
    do 3 f_equal. pose proof (num_windows_hop1 sequence Hk) as Hn.
    unfold len in *. destruct (Z.ltb_spec (Z.of_nat (length sequence)) k); lia. }
  pose proof (counted_count windows Dict.empty key) as Hcount.
  rewrite Hocc in Hcount. unfold count_of in Hcount. simpl in Hcount.
  destruct (Dict.get (fold_left count_up windows Dict.empty) key) as [v|] eqn:Hget.
  - assert (Hin : In key windows).
    { assert (Hkeys : In key (Dict.keys (fold_left count_up windows Dict.empty))).
      { apply get_Some_in in Hget. change key with (fst (key, v)). now apply in_map. }
      apply counted_keys in Hkeys. destruct Hkeys as [[]|Hw]. exact Hw. }
    apply (count_occ_In eq_dec) in Hin. rewrite Hocc in Hin.
    destruct (Nat.eqb_spec (occurrences key sequence) 0); [lia|]. now subst v.
  - destruct (Nat.eqb_spec (occurrences key sequence) 0) as [|Hpos]; [reflexivity|].
    exfalso. assert (Hin : In key windows)
      by (apply (count_occ_In eq_dec); rewrite Hocc; lia).
    apply get_None in Hget. apply Hget, counted_keys. right. exact Hin.
Qed.

Lemma find_k_mers_counts_occurrences_witness :
  1 <= 2 /\
  exists d : Dict.t str Z,
    find_k_mers (str_of "AAAB") 2 = Ok d
    /\ forall key : str,
         len key = 2 ->
         Dict.get d key
         = if (occurrences key (str_of "AAAB") =? 0)%nat then None
           else Some (Z.of_nat (occurrences key (str_of "AAAB"))).
Proof.
  split; [lia | apply (@find_k_mers_counts_occurrences (str_of "AAAB") 2); lia].
Defined.

Lemma count_up_add_item (windows : list str) (d : Dict.t str Z) :
  fold_left count_up windows d
  = fold_left add_item (map (fun w => (w, 1)) windows) d.
Proof.
  revert d; induction windows as [|w windows IH]; intros d; simpl; [reflexivity|].
  apply IH.
Qed.

(** X9: the keys of the mapping returned by [find_k_mers] stand in the order
    in which the scanner first yields them, that is, by first occurrence in
    the sequence. The ranking of [find_top_k_mers] breaks ties by this
    order. *)
Theorem find_k_mers_insertion_order (sequence : str) (k : Z) :
  exists (windows : list str) (d : Dict.t str Z),
    substrings sequence k 1 = Ok windows
    /\ find_k_mers sequence k = Ok d
    /\ StronglySorted
         (fun a b => (first_index a windows < first_index b windows)%nat)
         (Dict.keys d).
Proof.
  destruct (find_k_mers_run sequence k) as (windows & Hs & Hd).
  exists windows, (fold_left count_up windows Dict.empty).
  split; [exact Hs|]. split; [exact Hd|].
  rewrite count_up_add_item.
  pose proof (aggregated_order (map (fun w : str => (w, 1)) windows)) as Hord.
  rewrite map_map, map_id in Hord. exact Hord.
Qed.

Lemma count_up_repeat (w : str) (n : nat) :
  fold_left count_up (repeat w (S n)) Dict.empty = [(w, Z.of_nat (S n))].
Proof.
  change (fold_left count_up (repeat w (S n)) Dict.empty)
    with (fold_left count_up (repeat w n) [(w, 1)]).
  replace (Z.of_nat (S n)) with (1 + Z.of_nat n) by lia.
  generalize 1 as c. induction n as [|n IH]; intros c; simpl.
  - now rewrite Z.add_0_r.
  - unfold count_up at 2, count_of. simpl.
    destruct (eq_dec w w) as [_|Hne]; [|congruence].
    rewrite IH. do 2 f_equal. lia.
Qed.

(** X10: outside the precondition [k >= 1]. A negative [k] gives the empty
    mapping; [k = 0] gives the empty mapping for the empty sequence and
    otherwise the single key [""] with the length of the sequence as count. *)
Theorem find_k_mers_degenerate (sequence : str) (k : Z) :
  (k < 0 -> find_k_mers sequence k = Ok Dict.empty)
  /\ (k = 0 ->
      find_k_mers sequence k
      = Ok (match sequence with [] => Dict.empty | _ :: _ => [([], len sequence)] end)).
Proof.
  split.
  - intros Hk. unfold find_k_mers, substrings. rewrite py_range_pos by lia.
    cbn [bind]. now rewrite substrings_loop_negative.
  - intros ->. unfold find_k_mers, substrings. rewrite py_range_pos by lia.
    cbn [bind]. rewrite substrings_loop_zero.
    + rewrite for_each_count_k_mer, length_map, length_seq.
      destruct sequence as [|b rest]; [reflexivity|].
      replace (if 0 <? len (b :: rest) then Z.to_nat ((len (b :: rest) - 1) / 1 + 1) else 0%nat)
        with (S (length rest)).
      * rewrite count_up_repeat. reflexivity.
      * unfold len. simpl length. rewrite Z.div_1_r.
        destruct (Z.ltb_spec 0 (Z.of_nat (S (length rest)))); lia.
    + apply Forall_forall. intros i Hi. apply in_map_iff in Hi.
      destruct Hi as (n & <- & _). lia.
Qed.

(** ** [apply_foreach]: results in order, first failure wins *)

Lemma apply_foreach_loop {A : Type} (analysis_func : str -> result A)
  (seqs : list str) (acc : list A) :
  (forall stats,
      for_each (fun stats seq => seq_stats <- analysis_func seq ;;
                                 Ok (stats ++ [seq_stats])) seqs acc = Ok stats ->
      exists results, stats = acc ++ results
                      /\ Forall2 (fun s a => analysis_func s = Ok a) seqs results)
  /\ (forall pre s post e,
         seqs = pre ++ s :: post ->
         (forall x, In x pre -> exists a, analysis_func x = Ok a) ->
         analysis_func s = Raise e ->
         for_each (fun stats seq => seq_stats <- analysis_func seq ;;
                                    Ok (stats ++ [seq_stats])) seqs acc = Raise e).
Proof.
  revert acc; induction seqs as [|x seqs IH]; intros acc; split.
  - simpl. intros stats [= <-]. exists []. rewrite app_nil_r. split; constructor.
  - intros pre s post e Heq. destruct pre; discriminate.
  - simpl. intros stats Hrun. destruct (analysis_func x) as [a|e] eqn:Hx; [|discriminate].
    cbn [bind] in Hrun. apply (proj1 (IH (acc ++ [a]))) in Hrun.
    destruct Hrun as (results & -> & Hall). exists (a :: results).
    rewrite <- app_assoc. split; [reflexivity|]. constructor; assumption.
  - intros pre s post e Heq Hpre Hs. destruct pre as [|p pre]; simpl in Heq.
    + injection Heq as Hx Hseqs. subst x seqs. simpl. now rewrite Hs.
    + injection Heq as Hx Hseqs. subst x seqs. simpl.
      destruct (Hpre p (or_introl eq_refl)) as [a ->]. cbn [bind].
      apply (proj2 (IH (acc ++ [a])) pre s post e); auto.
      intros y Hy. apply Hpre. right. exact Hy.
Qed.

(** X11: [apply_foreach] is all or nothing. What it returns holds, in dataset
    order, the result of the analysis of each sequence (so as many results
    as sequences); and when the analysis of a sequence fails after all
    earlier ones succeeded, [apply_foreach] fails with that error. *)
Theorem apply_foreach_all_or_nothing {A : Type} (seq_obj : seq_object)
  (analysis_func : str -> result A) :
  (forall stats,
      apply_foreach seq_obj analysis_func = Ok stats ->
      Forall2 (fun s a => analysis_func s = Ok a) (sequences seq_obj) stats
      /\ length stats = length (sequences seq_obj))
  /\ (forall pre s post e,
         sequences seq_obj = pre ++ s :: post ->
         (forall x, In x pre -> exists a, analysis_func x = Ok a) ->
         analysis_func s = Raise e ->
         apply_foreach seq_obj analysis_func = Raise e).
Proof.
  unfold apply_foreach.
  destruct (apply_foreach_loop analysis_func (sequences seq_obj) []) as [Hok Hfail].
  split; [|exact Hfail].
  intros stats Hrun. destruct (Hok stats Hrun) as (results & -> & Hall).
  simpl. split; [exact Hall|]. symmetry. eapply Forall2_length, Hall.
Qed.

(** ** [get_top_values] and the per-sequence mode of [find_top_k_mers] *)

Lemma insert_by_value_perm (x : str * Z) (l : list (str * Z)) :
  Permutation (insert_by_value x l) (x :: l).
Proof.
  induction l as [|y l IH]; simpl; [reflexivity|].
  destruct (snd x <? snd y); [|reflexivity].
  rewrite IH. apply perm_swap.
Qed.

Lemma sort_by_value_desc_perm (l : list (str * Z)) :
  Permutation (sort_by_value_desc l) l.
Proof.
  induction l as [|x l IH]; simpl; [reflexivity|].
  rewrite insert_by_value_perm. now constructor.
Qed.

Lemma insert_by_value_sorted (x : str * Z) (l : list (str * Z)) :
  StronglySorted (fun a b => snd b <= snd a) l ->
  StronglySorted (fun a b => snd b <= snd a) (insert_by_value x l).
Proof.
  induction 1 as [|y l Hl IH Hy]; simpl; [repeat constructor|].
  rewrite Forall_forall in Hy.
  destruct (Z.ltb_spec (snd x) (snd y)).
  - constructor; [exact IH|]. apply Forall_forall. intros z Hz.
    apply in_insert_by_value in Hz. destruct Hz as [->|Hz]; [lia|auto].
  - constructor; [constructor; [assumption|now apply Forall_forall]|].
    apply Forall_forall. intros z [<-|Hz]; [lia|]. specialize (Hy z Hz). lia.
Qed.

Lemma sort_by_value_desc_sorted (l : list (str * Z)) :
  StronglySorted (fun a b => snd b <= snd a) (sort_by_value_desc l).
Proof.
  induction l as [|x l IH]; simpl; [constructor|].
  now apply insert_by_value_sorted.
Qed.



Lemma get_top_values_firstn (N : nat) (d : Dict.t str Z) :
  get_top_values (Z.of_nat N) d = firstn N (sort_by_value_desc d).
Proof.
  unfold get_top_values, Dict.items. rewrite py_slice_window by lia.
  unfold window. simpl. now rewrite Nat.sub_0_r, Nat2Z.id.
Qed.

(** X12: [get_top_values] returns the [N] best entries. Together with some
    rest it is a rearrangement of the entries of the mapping, it has
    [min(N, number of entries)] entries, and no entry of the rest has a
    larger count than an entry that is returned. *)
Theorem get_top_values_best (N : nat) (d : Dict.t str Z) :
  exists rest,
    Permutation (get_top_values (Z.of_nat N) d ++ rest) (Dict.items d)
    /\ length (get_top_values (Z.of_nat N) d) = Nat.min N (length (Dict.items d))
    /\ forall a b, In a (get_top_values (Z.of_nat N) d) -> In b rest -> snd b <= snd a.
Proof.
  rewrite get_top_values_firstn. unfold Dict.items.
  exists (skipn N (sort_by_value_desc d)).
  split; [rewrite firstn_skipn; apply sort_by_value_desc_perm|].
  split.
  - rewrite length_firstn. f_equal. apply Permutation_length, sort_by_value_desc_perm.
  - pose proof (sort_by_value_desc_sorted d) as Hs.
    intros a b Ha Hb.
    apply In_nth_error in Ha, Hb. destruct Ha as [i Hi]. destruct Hb as [j Hj].
    assert (Hi' : (i < N)%nat).
    { assert (i < length (firstn N (sort_by_value_desc d)))%nat
        by (apply nth_error_Some; congruence).
      rewrite length_firstn in *. lia. }
    rewrite nth_error_firstn in Hi.
    destruct (Nat.ltb_spec i N); [|lia].
    rewrite nth_error_skipn in Hj.
    apply (StronglySorted_nth Hs (i := i) (j := N + j)); auto. lia.
Qed.



(** X14: a negative [top] does not select from the top: the slice [items[:top]]
    then drops the [-top] last entries of the full ranking and keeps all the
    others (none when the mapping has at most [-top] entries). *)
Theorem get_top_values_negative (top : Z) (d : Dict.t str Z) :
  top < 0 ->
  exists dropped,
    get_top_values top d ++ dropped = get_top_values (len d) d
    /\ len dropped = Z.min (- top) (len d).
Proof.
  intros Htop. pose proof (sort_by_value_desc_perm d) as Hperm.
  apply Permutation_length in Hperm.
  unfold len. rewrite get_top_values_firstn.
  unfold get_top_values, Dict.items, py_slice, clamp, len.
  destruct (Z.ltb_spec top 0); [|lia]. destruct (Z.ltb_spec 0 0); [lia|].
  rewrite Hperm. rewrite Z.min_l by lia. simpl Z.to_nat. simpl skipn.
  rewrite Nat.sub_0_r.
  set (keep := Z.to_nat (Z.max (top + Z.of_nat (length d)) 0)).
  exists (skipn keep (sort_by_value_desc d)).
  rewrite firstn_skipn. split.
  - symmetry. apply firstn_all2. lia.
  - rewrite length_skipn, Hperm. unfold keep. lia.
Qed.

Lemma get_top_values_negative_witness :
  -1 < 0 /\
  exists dropped,
    get_top_values (-1) [(str_of "AA", 2); (str_of "AB", 1)] ++ dropped
    = get_top_values (len [(str_of "AA", 2); (str_of "AB", 1)])
                     [(str_of "AA", 2); (str_of "AB", 1)]
    /\ len dropped = Z.min (- -1) (len [(str_of "AA", 2); (str_of "AB", 1)]).
Proof.
  split; [lia|].
  apply (@get_top_values_negative (-1) [(str_of "AA", 2); (str_of "AB", 1)]). lia.
Defined.

Lemma add_item_fresh (items : list (str * Z)) (acc : Dict.t str Z) :
  Dict.wf (acc ++ items) -> fold_left add_item items acc = acc ++ items.
Proof.
  revert acc; induction items as [|[key value] items IH]; intros acc Hwf; simpl.
  - now rewrite app_nil_r.
  - assert (Hfresh : ~ In key (Dict.keys acc)).
    { unfold Dict.wf, Dict.keys in *. rewrite map_app in Hwf. simpl in Hwf.
      apply NoDup_remove_2 in Hwf. rewrite in_app_iff in Hwf. tauto. }
    unfold add_item at 2, count_of. simpl.
    rewrite (proj2 (get_None acc key) Hfresh), set_absent by exact Hfresh. simpl.
    rewrite IH; rewrite <- app_assoc; [reflexivity|exact Hwf].
Qed.

(** X15: on a dataset of one sequence the two modes of [find_top_k_mers]
    agree, for every [top] and [k]: aggregating the counts of a single
    sequence changes neither the counts nor their order. *)
Theorem find_top_k_mers_single_sequence (seq_obj : seq_object) (s : str) (top k : Z) :
  sequences seq_obj = [s] ->
  find_top_k_mers seq_obj top k false = find_top_k_mers seq_obj top k true.
Proof.
  intros Hone. unfold find_top_k_mers, apply_foreach. rewrite Hone. simpl.
  destruct (find_k_mers_ok s k) as (d & -> & Hwf). cbn [bind]. simpl.
  unfold Dict.items. rewrite for_each_aggregate_item. cbn [bind].
  rewrite (add_item_fresh d Dict.empty) by exact Hwf. reflexivity.
Qed.

Lemma find_top_k_mers_single_sequence_witness :
  sequences {| num_sequences := 1; sequence_length := 4;
               sequences := [str_of "ABAB"] |} = [str_of "ABAB"] /\
  find_top_k_mers {| num_sequences := 1; sequence_length := 4;
                     sequences := [str_of "ABAB"] |} 2 2 false
  = find_top_k_mers {| num_sequences := 1; sequence_length := 4;
                       sequences := [str_of "ABAB"] |} 2 2 true.
Proof.
  split; [reflexivity|].
  apply (@find_top_k_mers_single_sequence _ (str_of "ABAB") 2 2). reflexivity.
Defined.

(** ** [find_max] and [find_min] on arbitrary records *)

Lemma extreme_loop_missing (better : Q -> bound -> bool) (stats : list StatRecord)
  (field : str) (post pre : list StatRecord) (state : extreme_state) :
  stats = pre ++ post ->
  Exists (fun r => ~ In field (Dict.keys r)) post ->
  for_each (extreme_step better stats field)
           (combine (seq (length pre) (length post)) post) state
  = Raise KeyError.
Proof.
  revert pre state; induction post as [|x post IH]; intros pre state Hsplit Hex.
  - inversion Hex.
  - simpl. destruct state as [[index value] ret_dict]. unfold extreme_step at 1.
    destruct (in_dec eq_dec field (Dict.keys x)) as [Hin|Hmiss].
    + destruct (in_keys_get _ _ Hin) as [v Hv]. unfold Dict.getitem. rewrite Hv.
      cbn [bind].
      assert (Hidx : py_index stats (Z.of_nat (length pre)) = Ok x).
      { destruct (@py_index_in_range _ stats (Z.of_nat (length pre))) as (a & Ha & Hn).
        - unfold len. rewrite Hsplit, length_app. simpl. lia.
        - rewrite Nat2Z.id, Hsplit, nth_error_app2, Nat.sub_diag in Hn by lia.
          simpl in Hn. congruence. }
      assert (Hrest : forall state1,
                 for_each (extreme_step better stats field)
                          (combine (seq (S (length pre)) (length post)) post) state1
                 = Raise KeyError).
      { intros state1.
        replace (S (length pre)) with (length (pre ++ [x]))
          by (rewrite length_app; simpl; lia).
        apply IH; [rewrite <- app_assoc; exact Hsplit|].
        inversion Hex; subst; [contradiction|assumption]. }
      destruct (better v value); [rewrite Hidx; cbn [bind]|]; apply Hrest.
    + apply get_None in Hmiss. unfold Dict.getitem. rewrite Hmiss. reflexivity.
Qed.

Lemma find_extreme_missing (better : Q -> bound -> bool) (init : bound)
  (stats : list StatRecord) (field : str) :
  stats <> [] ->
  Exists (fun r => ~ In field (Dict.keys r)) stats ->
  find_extreme better init stats field = Raise KeyError.
Proof.
  intros Hne Hex. unfold find_extreme, enumerate.
  destruct (@py_index_in_range _ stats 0) as (r0 & -> & _).
  { destruct stats; [congruence|]. unfold len. simpl length. lia. }
  cbn [bind].
  rewrite (@extreme_loop_missing better stats field stats [] _ eq_refl Hex).
  reflexivity.
Qed.

(** X16: [find_max] and [find_min] on records of any schemas. Both fail
    with [IndexError] on the empty list and with [KeyError] as soon as one
    record, wherever it stands, lacks the field; otherwise, every record
    carrying the field, they return the first index of the maximum and of
    the minimum with the record at that index. *)
Theorem find_max_min_outcome (stats : list StatRecord) (field : str) :
  (stats = [] ->
   find_max stats field = Raise IndexError /\ find_min stats field = Raise IndexError)
  /\ (stats <> [] -> (exists r, In r stats /\ ~ In field (Dict.keys r)) ->
      find_max stats field = Raise KeyError /\ find_min stats field = Raise KeyError)
  /\ (stats <> [] -> (forall r, In r stats -> In field (Dict.keys r)) ->
      (exists i r, find_max stats field = Ok (i, r) /\ first_max stats field i r)
      /\ (exists i r, find_min stats field = Ok (i, r) /\ first_min stats field i r)).
Proof.
  split; [intros ->; split; reflexivity|]. split.
  - intros Hne (r & Hr & Hmiss).
    assert (Hex : Exists (fun r => ~ In field (Dict.keys r)) stats)
      by (apply Exists_exists; eauto).
    split; apply find_extreme_missing; assumption.
  - intros Hne Hall. split; [apply find_max_first|apply find_min_first]; assumption.
Qed.

(** ** [reduce_avg]: missing fields *)

(** X17: a record that lacks a field of the first record does not make
    [reduce_avg] fail. When the fields of every record are among those of
    the first one, the result has the fields of the first record, in its
    order, and each is the float sum (from [0.0], left to right) of the
    values of the records that carry it, divided by the number of all
    records: a record without the field adds nothing to the sum and still
    counts in the divisor. This holds for every float arithmetic. *)
Theorem reduce_avg_missing_fields {F : Type} `{FloatArith F}
  (stats : list (Dict.t str F)) :
  stats <> [] ->
  Forall Dict.wf stats ->
  (forall r key, In r stats -> In key (Dict.keys r) ->
                 In key (Dict.keys (hd Dict.empty stats))) ->
  exists averaged,
    reduce_avg stats = Ok averaged
    /\ Dict.keys averaged = Dict.keys (hd Dict.empty stats)
    /\ forall key, In key (Dict.keys (hd Dict.empty stats)) ->
         Dict.get averaged key
         = Some (fdiv (fsum (present_values key stats)) (of_int (len stats))).
Proof.
  intros Hne Hwf Hsub. destruct stats as [|first rest]; [congruence|].
  simpl hd in *. now apply reduce_avg_subset.
Qed.

Lemma reduce_avg_missing_fields_witness :
  uneven_records <> [] /\ Forall Dict.wf uneven_records /\
  (forall r key, In r uneven_records -> In key (Dict.keys r) ->
                 In key (Dict.keys (hd Dict.empty uneven_records))) /\
  exists averaged,
    reduce_avg uneven_records = Ok averaged
    /\ Dict.keys averaged = Dict.keys (hd Dict.empty uneven_records)
    /\ forall key, In key (Dict.keys (hd Dict.empty uneven_records)) ->
         Dict.get averaged key
         = Some (fdiv (fsum (present_values key uneven_records))
                      (of_int (len uneven_records))).
Proof.
  assert (Hne : uneven_records <> []) by discriminate.
  assert (Hwf : Forall Dict.wf uneven_records).
  { repeat constructor; simpl; intuition discriminate. }
  assert (Hsub : forall r key, In r uneven_records -> In key (Dict.keys r) ->
                               In key (Dict.keys (hd Dict.empty uneven_records))).
  { intros r key [<-|[<-|[]]] Hkey; simpl in *; tauto. }
  split; [exact Hne|]. split; [exact Hwf|]. split; [exact Hsub|].
  exact (@reduce_avg_missing_fields float binary64 uneven_records Hne Hwf Hsub).
Defined.

(** ** The dinucleotide analyzer: frequencies, key order, odd lengths *)

Lemma count_if_key_nonneg (ws : list str) (counts : Dict.t str Z) :
  Forall (fun v => 0 <= v) (Dict.values counts) ->
  Forall (fun v => 0 <= v) (Dict.values (fold_left count_if_key ws counts)).
Proof.
  revert counts; induction ws as [|w ws IH]; intros counts Hall; simpl; [exact Hall|].
  apply IH. unfold count_if_key. destruct (py_in w (Dict.keys counts)); [|exact Hall].
  rewrite Forall_forall in *. intros v Hv. apply in_values_set in Hv.
  destruct Hv as [->|Hv]; [|auto].
  unfold count_of. destruct (Dict.get counts w) as [c|] eqn:Hc; [|lia].
  assert (0 <= c); [|lia]. apply Hall. apply get_Some_in in Hc.
  change c with (snd (w, c)). now apply in_map.
Qed.

(** The run of [get_dinucleotide_freqs], phase by phase. *)
Lemma get_dinucleotide_freqs_run (SETTINGS : Settings.t) (sequence : str) :
  let alphabet := Settings.valid_nucleobases SETTINGS in
  let total := matched_total alphabet sequence in
  exists counts : Dict.t str Z,
    Dict.wf counts
    /\ Dict.keys counts
       = Dict.keys (fold_left (fun (c : Dict.t str Z) (d : str) => Dict.set c d 0)
                              (dinucleotide_keys alphabet) Dict.empty)
    /\ Zsum (Dict.values counts) = total
    /\ Forall (fun v => 0 <= v) (Dict.values counts)
    /\ get_dinucleotide_freqs SETTINGS sequence
       = if total =? 0
         then match counts with
              | [] => Ok Dict.empty
              | _ :: _ => Raise ZeroDivisionError
              end
         else Ok (map (fun kv => (fst kv, (inject_Z (snd kv) / inject_Z total)%Q)) counts).
Proof.
  intros alphabet total.
  destruct (zero_counts (dinucleotide_keys alphabet)) as (Hwf0 & Hkeys0 & Hzero).
  set (counts0 := fold_left _ (dinucleotide_keys alphabet) Dict.empty) in *.
  set (counts := fold_left count_if_key (dinucleotide_windows sequence) counts0).
  assert (Hkeys : Dict.keys counts = Dict.keys counts0)
    by apply counted_dinucleotide_keys.
  assert (Hwf : Dict.wf counts) by (unfold Dict.wf; rewrite Hkeys; exact Hwf0).
  assert (Htotal : Zsum (Dict.values counts) = total).
  { unfold counts. rewrite counted_dinucleotide_sum.
    rewrite (Zsum_zero Hzero). unfold total, matched_total.
    rewrite (filter_ext _ (fun w => py_in w (dinucleotide_keys alphabet)));
      [reflexivity|]. intros w. apply py_in_ext, Hkeys0. }
  exists counts. split; [exact Hwf|]. split; [exact Hkeys|]. split; [exact Htotal|].
  split.
  - apply count_if_key_nonneg. eapply Forall_impl; [|exact Hzero].
    simpl. intros v ->. lia.
  - unfold get_dinucleotide_freqs. fold alphabet. fold (dinucleotide_keys alphabet).
    rewrite substrings_dinucleotides. cbn [bind].
    rewrite for_each_count_dinucleotide. cbn [bind].
    fold counts0. fold counts. rewrite py_sum_Zsum, Htotal. unfold Dict.items.
    now apply normalize_loop.
Qed.

Lemma Zsum_member_le (l : list Z) (x : Z) :
  Forall (fun v => 0 <= v) l -> In x l -> 0 <= x <= Zsum l.
Proof.
  induction 1 as [|y l Hy Hl IH]; simpl; [tauto|].
  assert (0 <= Zsum l) by (clear IH; induction Hl; simpl; lia).
  intros [->|Hin]; [lia|]. specialize (IH Hin). lia.
Qed.

Lemma Zsum_positive_member (l : list Z) :
  Forall (fun v => 0 <= v) l -> 0 < Zsum l -> Exists (fun v => 0 < v) l.
Proof.
  induction 1 as [|y l Hy Hl IH]; simpl; [lia|]. intros Hsum.
  destruct (Z_lt_le_dec 0 y) as [Hpos|Hle].
  - apply Exists_cons_hd. exact Hpos.
  - apply Exists_cons_tl. apply IH. lia.
Qed.

(** X19: the frequencies that [get_dinucleotide_freqs] returns all lie in
    [[0, 1]] and, unless the mapping is empty (empty alphabet), at least one
    of them is strictly positive: the result is never all zeros. *)
Theorem get_dinucleotide_freqs_distribution
  (SETTINGS : Settings.t) (sequence : str) (freqs : Dict.t str Q) :
  get_dinucleotide_freqs SETTINGS sequence = Ok freqs ->
  Forall (fun q => (0 <= q <= 1)%Q) (Dict.values freqs)
  /\ (freqs = [] \/ Exists (fun q => (0 < q)%Q) (Dict.values freqs)).
Proof.
  destruct (get_dinucleotide_freqs_run SETTINGS sequence)
    as (counts & Hwf & _ & Htotal & Hnonneg & ->).
  set (total := matched_total (Settings.valid_nucleobases SETTINGS) sequence) in *.
  destruct (Z.eqb_spec total 0) as [Hz|Hnz].
  - destruct counts; [|discriminate]. intros [= <-]. split; [constructor|auto].
  - intros [= <-].
    assert (Hpos : 0 < total).
    { assert (0 <= Zsum (Dict.values counts)); [|lia].
      clear - Hnonneg. induction Hnonneg; simpl; lia. }
    split.
    + apply Forall_forall. intros q Hq. unfold Dict.values in Hq.
      rewrite map_map in Hq. apply in_map_iff in Hq. destruct Hq as ([k c] & <- & Hin).
      simpl. assert (Hc : 0 <= c <= total).
      { rewrite <- Htotal. apply Zsum_member_le; [exact Hnonneg|].
        change c with (snd (k, c)). now apply in_map. }
      apply (@Qdiv_bounds c total 0 1); lia.
    + right.
      assert (Hex : Exists (fun v => 0 < v) (Dict.values counts)).
      { apply Zsum_positive_member; [exact Hnonneg|]. rewrite Htotal. exact Hpos. }
      apply Exists_exists in Hex. destruct Hex as (c & Hin & Hc).
      unfold Dict.values in Hin. apply in_map_iff in Hin.
      destruct Hin as ([k c'] & Hc' & Hin). simpl in Hc'. subst c'.
      apply Exists_exists. exists (inject_Z c / inject_Z total)%Q. split.
      * unfold Dict.values. rewrite map_map. apply in_map_iff.
        exists (k, c). split; [reflexivity|exact Hin].
      * apply Qlt_shift_div_l.
        -- change (inject_Z 0 < inject_Z total)%Q. rewrite <- Zlt_Qlt. exact Hpos.
        -- rewrite Qmult_0_l. change (inject_Z 0 < inject_Z c)%Q.
           rewrite <- Zlt_Qlt. exact Hc.
Qed.

Lemma get_dinucleotide_freqs_distribution_witness :
  get_dinucleotide_freqs ac_settings (str_of "ACAAX")
  = Ok [(str_of "AA", 1 # 2); (str_of "AC", 1 # 2);
        (str_of "CA", 0 # 2); (str_of "CC", 0 # 2)] /\
  (Forall (fun q => (0 <= q <= 1)%Q)
          (Dict.values [(str_of "AA", 1 # 2); (str_of "AC", 1 # 2);
                        (str_of "CA", 0 # 2); (str_of "CC", 0 # 2)])
   /\ ([(str_of "AA", 1 # 2); (str_of "AC", 1 # 2);
        (str_of "CA", 0 # 2); (str_of "CC", 0 # 2)] = []
       \/ Exists (fun q => (0 < q)%Q)
                 (Dict.values [(str_of "AA", 1 # 2); (str_of "AC", 1 # 2);
                               (str_of "CA", 0 # 2); (str_of "CC", 0 # 2)]))).
Proof.
  split; [reflexivity|].
  apply (@get_dinucleotide_freqs_distribution ac_settings (str_of "ACAAX")).
  reflexivity.
Defined.

Lemma app_inj_length {A : Type} (a a' b b' : list A) :
  length a = length a' -> a ++ b = a' ++ b' -> a = a' /\ b = b'.
Proof.
  revert a'; induction a as [|x a IH]; intros [|x' a'] Hlen Heq; simpl in *;
    try discriminate; [auto|].
  injection Heq as -> Heq. destruct (IH a' ltac:(lia) Heq) as [-> ->]. auto.
Qed.

Lemma NoDup_flat_map {A B : Type} (f : A -> list B) (l : list A) :
  NoDup l ->
  (forall x, In x l -> NoDup (f x)) ->
  (forall x y z, In x l -> In y l -> In z (f x) -> In z (f y) -> x = y) ->
  NoDup (flat_map f l).
Proof.
  induction 1 as [|x l Hx Hl IH]; intros Heach Hdisj; simpl; [constructor|].
  apply NoDup_app.
  - apply Heach. left. reflexivity.
  - apply IH.
    + intros y Hy. apply Heach. right. exact Hy.
    + intros a b z Ha Hb. apply Hdisj; right; assumption.
  - intros z Hz Hz'. apply in_flat_map in Hz'. destruct Hz' as (y & Hy & Hzy).
    assert (x = y)
      by (apply (Hdisj x y z); [left; reflexivity|right; exact Hy|exact Hz|exact Hzy]).
    subst y. contradiction.
Qed.

Lemma NoDup_map_inj {A B : Type} (f : A -> B) (l : list A) :
  (forall x y, f x = f y -> x = y) -> NoDup l -> NoDup (map f l).
Proof.
  intros Hinj. induction 1 as [|x l Hx Hl IH]; simpl; constructor; [|exact IH].
  rewrite in_map_iff. intros (y & Hy & Hin). apply Hinj in Hy. now subst y.
Qed.

Lemma dinucleotide_keys_NoDup (alphabet : list str) :
  NoDup alphabet ->
  (forall a b, In a alphabet -> In b alphabet -> length a = length b) ->
  NoDup (dinucleotide_keys alphabet).
Proof.
  intros Hnd Hlen. unfold dinucleotide_keys. apply NoDup_flat_map; [exact Hnd| |].
  - intros i Hi. apply NoDup_map_inj; [|exact Hnd].
    intros j j' Heq. now apply app_inv_head in Heq.
  - intros i i' z Hi Hi' Hz Hz'. apply in_map_iff in Hz, Hz'.
    destruct Hz as (j & <- & Hj). destruct Hz' as (j' & Heq & Hj').
    symmetry in Heq. apply app_inj_length in Heq; [tauto|]. now apply Hlen.
Qed.

Lemma zero_counts_fresh (keys : list str) (d : Dict.t str Z) :
  NoDup keys -> (forall k, In k keys -> ~ In k (Dict.keys d)) ->
  fold_left (fun (c : Dict.t str Z) (k : str) => Dict.set c k 0) keys d
  = d ++ map (fun k => (k, 0)) keys.
Proof.
  revert d; induction keys as [|k keys IH]; intros d Hnd Hfresh; simpl.
  - now rewrite app_nil_r.
  - inversion Hnd as [|? ? Hk Hks]; subst.
    rewrite set_absent by (apply Hfresh; left; reflexivity).
    rewrite IH; [now rewrite <- app_assoc|exact Hks|].
    intros k' Hk'. unfold Dict.keys. rewrite map_app, in_app_iff. simpl.
    intros [Hd|[<-|[]]]; [|contradiction]. apply (Hfresh k'); [right; exact Hk'|exact Hd].
Qed.

Lemma flat_map_length_const {A B : Type} (f : A -> list B) (n : nat) (l : list A) :
  (forall x, In x l -> length (f x) = n) -> length (flat_map f l) = (length l * n)%nat.
Proof.
  induction l as [|x l IH]; intros Hn; simpl; [reflexivity|].
  rewrite length_app, (Hn x (or_introl eq_refl)), IH; [reflexivity|].
  intros y Hy. apply Hn. right. exact Hy.
Qed.

(** X20: for an alphabet of pairwise distinct bases of one length (single
    characters, say) the mapping that [get_dinucleotide_freqs] returns has
    one entry per pair of bases, in row-major order of the alphabet (first
    base, then second base): [|alphabet|^2] entries. The confusion-matrix plot
    reshapes the values in this order. *)
Theorem get_dinucleotide_freqs_key_order
  (SETTINGS : Settings.t) (sequence : str) (freqs : Dict.t str Q) :
  let alphabet := Settings.valid_nucleobases SETTINGS in
  NoDup alphabet ->
  (forall a b, In a alphabet -> In b alphabet -> length a = length b) ->
  get_dinucleotide_freqs SETTINGS sequence = Ok freqs ->
  Dict.keys freqs = flat_map (fun i => map (fun j => i ++ j) alphabet) alphabet
  /\ length freqs = (length alphabet * length alphabet)%nat.
Proof.
  intros alphabet Hnd Hlen.
  destruct (get_dinucleotide_freqs_run SETTINGS sequence)
    as (counts & Hwf & Hkeys & _ & _ & ->).
  fold alphabet in Hkeys.
  rewrite zero_counts_fresh in Hkeys;
    [|apply dinucleotide_keys_NoDup; assumption|intros k _ []].
  simpl in Hkeys. unfold Dict.keys in Hkeys at 2. rewrite map_map, map_id in Hkeys.
  assert (Hcount : length counts = (length alphabet * length alphabet)%nat).
  { replace (length counts) with (length (Dict.keys counts)) by apply length_map.
    rewrite Hkeys. apply flat_map_length_const. intros i _. apply length_map. }
  fold (dinucleotide_keys alphabet).
  destruct (Z.eqb_spec (matched_total (Settings.valid_nucleobases SETTINGS) sequence) 0).
  - destruct counts; [|discriminate]. intros [= <-]. simpl in *. auto.
  - intros [= <-]. split.
    + unfold Dict.keys in *. rewrite map_map. exact Hkeys.
    + now rewrite length_map.
Qed.

Lemma get_dinucleotide_freqs_key_order_witness :
  NoDup (Settings.valid_nucleobases ac_settings) /\
  (forall a b, In a (Settings.valid_nucleobases ac_settings) ->
               In b (Settings.valid_nucleobases ac_settings) -> length a = length b) /\
  get_dinucleotide_freqs ac_settings (str_of "ACAAX")
  = Ok [(str_of "AA", 1 # 2); (str_of "AC", 1 # 2);
        (str_of "CA", 0 # 2); (str_of "CC", 0 # 2)] /\
  (Dict.keys [(str_of "AA", 1 # 2); (str_of "AC", 1 # 2);
              (str_of "CA", 0 # 2); (str_of "CC", 0 # 2)]
   = flat_map (fun i => map (fun j => i ++ j) (Settings.valid_nucleobases ac_settings))
              (Settings.valid_nucleobases ac_settings)
   /\ length [(str_of "AA", 1 # 2); (str_of "AC", 1 # 2);
              (str_of "CA", 0 # 2); (str_of "CC", 0 # 2)]
      = (length (Settings.valid_nucleobases ac_settings)
         * length (Settings.valid_nucleobases ac_settings))%nat).
Proof.
  assert (Hnd : NoDup (Settings.valid_nucleobases ac_settings)).
  { simpl. repeat constructor; simpl; intuition discriminate. }
  assert (Hlen : forall a b, In a (Settings.valid_nucleobases ac_settings) ->
                             In b (Settings.valid_nucleobases ac_settings) ->
                             length a = length b).
  { simpl. intros a b [<-|[<-|[]]] [<-|[<-|[]]]; reflexivity. }
  split; [exact Hnd|]. split; [exact Hlen|]. split; [reflexivity|].
  apply (@get_dinucleotide_freqs_key_order ac_settings (str_of "ACAAX") _ Hnd Hlen).
  reflexivity.
Defined.

Lemma dinucleotide_windows_odd (sequence : str) (c : ascii) :
  Nat.even (length sequence) = true ->
  dinucleotide_windows (sequence ++ [c]) = dinucleotide_windows sequence.
Proof.
  intros Heven. apply Nat.even_spec in Heven. destruct Heven as [m Hm].
  unfold dinucleotide_windows. rewrite length_app. simpl length.
  replace ((length sequence + 1) / 2)%nat with m.
  2:{ rewrite Hm. replace (2 * m + 1)%nat with (1 + m * 2)%nat by lia.
      rewrite Nat.div_add by lia. reflexivity. }
  replace (length sequence / 2)%nat with m
    by (rewrite Hm, Nat.mul_comm, Nat.div_mul; lia).
  apply map_ext_in. intros i Hi. apply in_seq in Hi. unfold window.
  rewrite skipn_app.
  replace (2 * i - length sequence)%nat with 0%nat by lia.
  change (skipn 0 [c]) with [c].
  rewrite firstn_app, length_skipn.
  replace (2 - (length sequence - 2 * i))%nat with 0%nat by lia.
  rewrite firstn_O. apply app_nil_r.
Qed.

(** X21: the analyzer reads a sequence two characters at a time, so the last
    character of a sequence of odd length is never looked at: appending one
    character to a sequence of even length changes nothing. *)
Theorem get_dinucleotide_freqs_ignores_odd_tail
  (SETTINGS : Settings.t) (sequence : str) (c : ascii) :
  Nat.even (length sequence) = true ->
  get_dinucleotide_freqs SETTINGS (sequence ++ [c])
  = get_dinucleotide_freqs SETTINGS sequence.
Proof.
  intros Heven. unfold get_dinucleotide_freqs.
  rewrite !substrings_dinucleotides, (dinucleotide_windows_odd _ c Heven).
  reflexivity.
Qed.

Lemma get_dinucleotide_freqs_ignores_odd_tail_witness :
  Nat.even (length (str_of "ACAA")) = true /\
  get_dinucleotide_freqs ac_settings (str_of "ACAA" ++ ["X"%char])
  = get_dinucleotide_freqs ac_settings (str_of "ACAA").
Proof.
  split; [reflexivity|].
  apply (@get_dinucleotide_freqs_ignores_odd_tail ac_settings (str_of "ACAA") "X").
  reflexivity.
Defined.

(** ** The palindrome detector: nothing missed, nothing twice *)

Section palindrome_more.
Variable sequence : str.
Variables min_substring_len min_bases : Z.

Local Abbreviation expand := (expand_frontier sequence min_substring_len min_bases).
Local Abbreviation record := (record_palindrome sequence min_substring_len min_bases).

(** The loop rule with an invariant that may mention the frontier. *)
Lemma expand_frontier_indexed_rule (P : Z -> Z -> palindrome_stats -> Prop) :
  (forall start end_ stats,
      0 <= start <= end_ -> end_ < len sequence ->
      P start end_ stats -> P (start - 1) (end_ + 1) (record start end_ stats)) ->
  forall start end_ stats,
    start <= end_ -> P start end_ stats ->
    exists stats' start' end',
      expand start end_ stats = Ok stats'
      /\ P start' end' stats' /\ start' + end' = start + end_.
Proof.
  intros Hbody start end_ stats.
  funelim (expand start end_ stats); intros Hle HP; try solve [eauto 10].
  - destruct (@frontier_matches_true sequence start end_) as [Hend _];
      [lia|assumption|].
    match goal with IH : forall P : _ -> _ -> _ -> Prop, _ |- _ =>
      destruct (IH P Hbody) as (stats' & s' & e' & Hrun & HP' & Hsum);
        [lia | apply Hbody; auto; lia |] end.
    exists stats', s', e'. split; [exact Hrun|]. split; [exact HP'|]. lia.
  - destruct (@frontier_matches_total sequence start end_) as [b Hb]; [lia|]. congruence.
Qed.

Lemma record_palindrome_cases (start end_ : Z) (stats : palindrome_stats) :
  0 <= start <= end_ -> end_ < len sequence ->
  let n := end_ - start + 1 in
  let sub := window sequence (Z.to_nat start) (Z.to_nat n) in
  (min_substring_len < n /\ min_bases <= Z.of_nat (distinct_chars sub)
   /\ record start end_ stats
      = {| num_palindromes := num_palindromes stats + 1;
           palindromes := palindromes stats
                          ++ [{| Palindrome.pos := start; Palindrome.length := n |}] |})
  \/ (~ (min_substring_len < n /\ min_bases <= Z.of_nat (distinct_chars sub))
      /\ record start end_ stats = stats).
Proof.
  intros Hr Hend n sub. unfold record_palindrome.
  rewrite py_slice_window by lia.
  replace (Z.to_nat (end_ + 1) - Z.to_nat start)%nat with (Z.to_nat n) by (unfold n; lia).
  fold sub.
  assert (Hlen : len sub = n)
    by (unfold sub, len in *; rewrite window_length; unfold n; lia).
  rewrite Hlen, Counter_len.
  destruct (Z.ltb_spec min_substring_len n);
    destruct (Z.leb_spec min_bases (Z.of_nat (distinct_chars sub))); simpl;
    [left; auto | right; split; [lia|reflexivity] ..].
Qed.

(** The detector only ever appends to the list of records. *)
Lemma expand_frontier_extends (start end_ : Z) (stats : palindrome_stats) :
  start <= end_ ->
  exists stats' extra,
    expand start end_ stats = Ok stats'
    /\ palindromes stats' = palindromes stats ++ extra.
Proof.
  intros Hle.
  destruct (@expand_frontier_indexed_rule
              (fun _ _ st => exists extra, palindromes st = palindromes stats ++ extra))
    with (start := start) (end_ := end_) (stats := stats)
    as (stats' & _ & _ & Hrun & [extra Hextra] & _).
  - intros s e st Hr Hend [extra Hextra].
    destruct (record_palindrome_cases st Hr Hend) as [(_ & _ & ->)|(_ & ->)]; simpl.
    + eexists. rewrite Hextra, <- app_assoc. reflexivity.
    + eauto.
  - exact Hle.
  - exists []. now rewrite app_nil_r.
  - eauto.
Qed.

Lemma centres_extend (centres : list nat) (stats : palindrome_stats) :
  exists stats' extra,
    for_each (fun stats i => stats <- expand i i stats ;; expand i (i + 1) stats)
             (map Z.of_nat centres) stats = Ok stats'
    /\ palindromes stats' = palindromes stats ++ extra.
Proof.
  revert stats; induction centres as [|i centres IH]; intros stats; simpl.
  - exists stats, []. now rewrite app_nil_r.
  - destruct (@expand_frontier_extends (Z.of_nat i) (Z.of_nat i) stats)
      as (s1 & x1 & -> & H1); [lia|]. cbn [bind].
    destruct (@expand_frontier_extends (Z.of_nat i) (Z.of_nat i + 1) s1)
      as (s2 & x2 & -> & H2); [lia|]. cbn [bind].
    destruct (IH s2) as (s3 & x3 & -> & H3).
    exists s3, (x1 ++ x2 ++ x3). split; [reflexivity|].
    rewrite H3, H2, H1, <- !app_assoc. reflexivity.
Qed.

(** Expanding from a centre reaches every frontier up to which the mirrored
    characters agree, and records it when it qualifies. *)
Lemma expand_frontier_reaches (d : nat) (a b : Z) (stats : palindrome_stats) :
  a <= b -> 0 <= a - Z.of_nat d -> b + Z.of_nat d < len sequence ->
  (forall j : Z, 0 <= j <= Z.of_nat d ->
                 nth_error sequence (Z.to_nat (a - j))
                 = nth_error sequence (Z.to_nat (b + j))) ->
  let start := a - Z.of_nat d in
  let n := b - a + 2 * Z.of_nat d + 1 in
  min_substring_len < n ->
  min_bases <= Z.of_nat (distinct_chars (window sequence (Z.to_nat start) (Z.to_nat n))) ->
  exists stats',
    expand a b stats = Ok stats'
    /\ In {| Palindrome.pos := start; Palindrome.length := n |} (palindromes stats').
Proof.
  revert a b stats; induction d as [|d IH]; intros a b stats Hab Hlo Hhi Hmirror start n
    Hlen Hbases.
  - assert (Hmatch : frontier_matches sequence a b = Ok true).
    { unfold frontier_matches. destruct (Z.ltb_spec b (len sequence)); [|lia].
      destruct (@py_index_in_range _ sequence a) as (x & -> & Hx); [lia|].
      destruct (@py_index_in_range _ sequence b) as (y & -> & Hy); [lia|].
      cbn [bind]. specialize (Hmirror 0 ltac:(lia)).
      rewrite Z.sub_0_r, Z.add_0_r, Hx, Hy in Hmirror. injection Hmirror as ->.
      destruct (eq_dec y y); congruence. }
    simp expand_frontier. destruct (Z_le_dec 0 a) as [Ha|]; [|lia]. simpl.
    rewrite Hmatch. simpl.
    destruct (@expand_frontier_extends (a - 1) (b + 1) (record a b stats))
      as (stats' & extra & Hrun & Hextra); [lia|].
    exists stats'. split; [exact Hrun|]. rewrite Hextra. apply in_or_app. left.
    destruct (@record_palindrome_cases a b stats) as [(_ & _ & ->)|(Hno & _)];
      [lia|lia| |].
    + simpl. apply in_or_app. right. left. f_equal; unfold start, n; lia.
    + exfalso. apply Hno. unfold start, n in *.
      replace (b - a + 1) with (b - a + 2 * Z.of_nat 0 + 1) by lia.
      replace a with (a - Z.of_nat 0) at 2 by lia. auto.
  - assert (Hmatch : frontier_matches sequence a b = Ok true).
    { unfold frontier_matches. destruct (Z.ltb_spec b (len sequence)); [|lia].
      destruct (@py_index_in_range _ sequence a) as (x & -> & Hx); [lia|].
      destruct (@py_index_in_range _ sequence b) as (y & -> & Hy); [lia|].
      cbn [bind]. specialize (Hmirror 0 ltac:(lia)).
      rewrite Z.sub_0_r, Z.add_0_r, Hx, Hy in Hmirror. injection Hmirror as ->.
      destruct (eq_dec y y); congruence. }
    simp expand_frontier. destruct (Z_le_dec 0 a) as [Ha|]; [|lia]. simpl.
    rewrite Hmatch. simpl.
    assert (Hmirror' : forall j : Z, 0 <= j <= Z.of_nat d ->
                         nth_error sequence (Z.to_nat (a - 1 - j))
                         = nth_error sequence (Z.to_nat (b + 1 + j))).
    { intros j Hj. specialize (Hmirror (j + 1) ltac:(lia)).
      replace (a - 1 - j) with (a - (j + 1)) by lia.
      replace (b + 1 + j) with (b + (j + 1)) by lia. exact Hmirror. }
    assert (Hstart : a - 1 - Z.of_nat d = start) by (unfold start; lia).
    assert (Hn : b + 1 - (a - 1) + 2 * Z.of_nat d + 1 = n) by (unfold n; lia).
    destruct (IH (a - 1) (b + 1) (record a b stats)) as (stats' & Hrun & Hin);
      [lia | lia | lia | exact Hmirror' | rewrite Hn; exact Hlen
       | rewrite Hstart, Hn; exact Hbases |].
    exists stats'. split; [exact Hrun|]. rewrite Hstart, Hn in Hin. exact Hin.
Qed.
End palindrome_more.

Lemma palindrome_mirror (s : str) (start n k : nat) :
  (start + n <= length s)%nat ->
  window s start n = rev (window s start n) ->
  (k < n)%nat ->
  nth_error s (start + k) = nth_error s (start + (n - 1 - k)).
Proof.
  intros Hfit Hpal Hk.
  assert (Hlen : length (window s start n) = n) by (rewrite window_length; lia).
  pose proof (f_equal (fun l => nth_error l k) Hpal) as Heq. simpl in Heq.
  rewrite nth_error_rev, Hlen in Heq.
  destruct (Nat.ltb_spec k n); [|lia].
  unfold window in Heq. rewrite !nth_error_firstn, !nth_error_skipn in Heq.
  destruct (Nat.ltb_spec k n); [|lia].
  destruct (Nat.ltb_spec (n - S k) n); [|lia].
  rewrite Heq. f_equal. lia.
Qed.

(** Every qualifying palindromic substring is reached from its centre. *)
Lemma find_palindromes_reports
  (sequence : str) (min_substring_len min_bases : Z) (start n : nat) :
  (1 <= n)%nat ->
  (start + n <= length sequence)%nat ->
  window sequence start n = rev (window sequence start n) ->
  min_substring_len < Z.of_nat n ->
  min_bases <= Z.of_nat (distinct_chars (window sequence start n)) ->
  exists stats,
    find_palindromes sequence min_substring_len min_bases = Ok stats
    /\ In {| Palindrome.pos := Z.of_nat start; Palindrome.length := Z.of_nat n |}
          (palindromes stats).
Proof.
  intros Hn Hfit Hpal Hlen Hbases.
  set (d := ((n - 1) / 2)%nat).
  assert (Hd : (n - 1 = 2 * d \/ n - 1 = 2 * d + 1)%nat).
  { unfold d. pose proof (Nat.div_mod_eq (n - 1) 2) as Hdm.
    pose proof (Nat.mod_upper_bound (n - 1) 2 ltac:(lia)). lia. }
  set (a := (start + d)%nat).
  set (b := (start + (n - 1 - d))%nat).
  assert (Hreach : forall stats,
             exists stats',
               expand_frontier sequence min_substring_len min_bases
                               (Z.of_nat a) (Z.of_nat b) stats = Ok stats'
               /\ In {| Palindrome.pos := Z.of_nat start; Palindrome.length := Z.of_nat n |}
                     (palindromes stats')).
  { intros stats.
    destruct (@expand_frontier_reaches sequence min_substring_len min_bases
                d (Z.of_nat a) (Z.of_nat b) stats) as (stats' & Hrun & Hin).
    - unfold a, b. lia.
    - unfold a. lia.
    - unfold b, len. lia.
    - intros j Hj.
      replace (Z.to_nat (Z.of_nat a - j)) with (start + (d - Z.to_nat j))%nat
        by (unfold a; lia).
      replace (Z.to_nat (Z.of_nat b + j))
        with (start + (n - 1 - (d - Z.to_nat j)))%nat by (unfold b; lia).
      apply palindrome_mirror; [exact Hfit|exact Hpal|lia].
    - replace (Z.of_nat b - Z.of_nat a + 2 * Z.of_nat d + 1) with (Z.of_nat n)
        by (unfold a, b; lia). exact Hlen.
    - replace (Z.of_nat a - Z.of_nat d) with (Z.of_nat start) by (unfold a; lia).
      replace (Z.of_nat b - Z.of_nat a + 2 * Z.of_nat d + 1) with (Z.of_nat n)
        by (unfold a, b; lia).
      rewrite !Nat2Z.id. exact Hbases.
    - exists stats'. split; [exact Hrun|].
      replace (Z.of_nat a - Z.of_nat d) with (Z.of_nat start) in Hin by (unfold a; lia).
      replace (Z.of_nat b - Z.of_nat a + 2 * Z.of_nat d + 1) with (Z.of_nat n) in Hin
        by (unfold a, b; lia).
      exact Hin. }
  unfold find_palindromes.
  assert (Hsplit : seq 0 (length sequence)
                   = seq 0 a ++ a :: seq (S a) (length sequence - S a)).
  { replace (length sequence) with (a + S (length sequence - S a))%nat at 1
      by (unfold a; lia).
    rewrite seq_app. reflexivity. }
  rewrite Hsplit, map_app, for_each_app.
  destruct (@centres_extend sequence min_substring_len min_bases (seq 0 a)
              {| num_palindromes := 0; palindromes := [] |}) as (s1 & x1 & -> & _).
  cbn [bind]. simpl map. simpl for_each.
  assert (Hcentre : exists s3,
             (stats <- expand_frontier sequence min_substring_len min_bases
                                       (Z.of_nat a) (Z.of_nat a) s1 ;;
              expand_frontier sequence min_substring_len min_bases
                              (Z.of_nat a) (Z.of_nat a + 1) stats) = Ok s3
             /\ In {| Palindrome.pos := Z.of_nat start; Palindrome.length := Z.of_nat n |}
                   (palindromes s3)).
  { destruct Hd as [Hodd|Heven].
    - assert (Hb : b = a) by (unfold a, b; lia). rewrite Hb in Hreach.
      destruct (Hreach s1) as (s2 & -> & Hin). cbn [bind].
      destruct (@expand_frontier_extends sequence min_substring_len min_bases
                  (Z.of_nat a) (Z.of_nat a + 1) s2) as (s3 & x3 & -> & Hx3); [lia|].
      exists s3. split; [reflexivity|]. rewrite Hx3. apply in_or_app. auto.
    - assert (Hb : Z.of_nat b = Z.of_nat a + 1) by (unfold a, b; lia).
      rewrite Hb in Hreach.
      destruct (@expand_frontier_extends sequence min_substring_len min_bases
                  (Z.of_nat a) (Z.of_nat a) s1) as (s2 & x2 & -> & _); [lia|].
      cbn [bind]. apply Hreach. }
  destruct Hcentre as (s3 & -> & Hin). cbn [bind].
  destruct (@centres_extend sequence min_substring_len min_bases
              (seq (S a) (length sequence - S a)) s3) as (s4 & x4 & -> & Hx4).
  exists s4. split; [reflexivity|]. rewrite Hx4. apply in_or_app. auto.
Qed.

(** X22: [find_palindromes] misses nothing. Every substring of the sequence,
    given by its start and its length [n >= 1], that reads the same in both
    directions, is longer than [min_substring_len] and has at least
    [min_bases] distinct characters, is among the reported records. *)
Theorem find_palindromes_complete
  (sequence : str) (min_substring_len min_bases : Z) (start n : nat) :
  (1 <= n)%nat ->
  (start + n <= length sequence)%nat ->
  window sequence start n = rev (window sequence start n) ->
  min_substring_len < Z.of_nat n ->
  min_bases <= Z.of_nat (distinct_chars (window sequence start n)) ->
  exists stats,
    find_palindromes sequence min_substring_len min_bases = Ok stats
    /\ In {| Palindrome.pos := Z.of_nat start; Palindrome.length := Z.of_nat n |}
          (palindromes stats).
Proof. apply find_palindromes_reports. Qed.

Lemma find_palindromes_complete_witness :
  (1 <= 6)%nat /\ (4 + 6 <= length (str_of "ABACACBBCA"))%nat
  /\ window (str_of "ABACACBBCA") 4 6 = rev (window (str_of "ABACACBBCA") 4 6)
  /\ 5 < Z.of_nat 6
  /\ 2 <= Z.of_nat (distinct_chars (window (str_of "ABACACBBCA") 4 6)) /\
  exists stats,
    find_palindromes (str_of "ABACACBBCA") 5 2 = Ok stats
    /\ In {| Palindrome.pos := Z.of_nat 4; Palindrome.length := Z.of_nat 6 |}
          (palindromes stats).
Proof.
  assert (H1 : (1 <= 6)%nat) by lia.
  assert (H2 : (4 + 6 <= length (str_of "ABACACBBCA"))%nat) by (simpl; lia).
  assert (H3 : window (str_of "ABACACBBCA") 4 6 = rev (window (str_of "ABACACBBCA") 4 6))
    by reflexivity.
  assert (H4 : 5 < Z.of_nat 6) by lia.
  assert (H5 : 2 <= Z.of_nat (distinct_chars (window (str_of "ABACACBBCA") 4 6)))
    by (vm_compute; discriminate).
  split; [exact H1|]. split; [exact H2|]. split; [exact H3|]. split; [exact H4|].
  split; [exact H5|].
  exact (@find_palindromes_complete (str_of "ABACACBBCA") 5 2 4 6 H1 H2 H3 H4 H5).
Defined.

(** ** The order of the palindrome records *)

Lemma centre_before_irrefl (r : Palindrome.t) : ~ centre_before r r.
Proof. unfold centre_before. lia. Qed.

Lemma StronglySorted_irrefl_NoDup {A : Type} (R : A -> A -> Prop) (l : list A) :
  (forall x, ~ R x x) -> StronglySorted R l -> NoDup l.
Proof.
  intros Hirr; induction 1 as [|x l Hs IH Hx]; constructor; [|assumption].
  intros Hin. rewrite Forall_forall in Hx. exact (Hirr x (Hx x Hin)).
Qed.

Ltac centre_order :=
  unfold centre_before; cbv zeta; cbn [Palindrome.pos Palindrome.length]; intros; lia.

Section palindrome_order.
Variable sequence : str.
Variables min_substring_len min_bases : Z.

Local Abbreviation expand := (expand_frontier sequence min_substring_len min_bases).
Local Abbreviation record := (record_palindrome sequence min_substring_len min_bases).

Lemma behind_frontier_step (start end_ : Z) (stats : palindrome_stats) :
  0 <= start <= end_ -> end_ < len sequence ->
  behind_frontier start end_ stats ->
  behind_frontier (start - 1) (end_ + 1) (record start end_ stats).
Proof.
  intros Hr Hend [Hs Hall].
  assert (Hall' : Forall (fun r => centre_before r
                            {| Palindrome.pos := start - 1;
                               Palindrome.length := end_ + 1 - (start - 1) + 1 |})
                         (palindromes stats)).
  { eapply Forall_impl; [|exact Hall]. centre_order. }
  destruct (@record_palindrome_cases sequence min_substring_len min_bases
              start end_ stats Hr Hend) as [(_ & _ & ->)|(_ & ->)].
  - split; simpl.
    + apply StronglySorted_snoc; assumption.
    + apply Forall_app. split; [exact Hall'|].
      constructor; [|constructor]. centre_order.
  - split; assumption.
Qed.

(** One expansion keeps the records in order and leaves them all at centres
    up to its own. *)
Lemma expand_frontier_order (start end_ : Z) (stats : palindrome_stats) :
  start <= end_ ->
  StronglySorted centre_before (palindromes stats) ->
  Forall (fun r => 2 * Palindrome.pos r + Palindrome.length r < start + end_ + 1)
         (palindromes stats) ->
  exists stats',
    expand start end_ stats = Ok stats'
    /\ StronglySorted centre_before (palindromes stats')
    /\ Forall (fun r => 2 * Palindrome.pos r + Palindrome.length r <= start + end_ + 1)
              (palindromes stats').
Proof.
  intros Hle Hs Hall.
  destruct (@expand_frontier_indexed_rule sequence min_substring_len min_bases
              behind_frontier behind_frontier_step start end_ stats Hle)
    as (stats' & s' & e' & Hrun & [Hs' Hall'] & Hsum).
  - split; [exact Hs|]. eapply Forall_impl; [|exact Hall].
    centre_order.
  - exists stats'. split; [exact Hrun|]. split; [exact Hs'|].
    eapply Forall_impl; [|exact Hall']. centre_order.
Qed.

Lemma centres_order (m a : nat) (stats : palindrome_stats) :
  StronglySorted centre_before (palindromes stats) ->
  Forall (fun r => 2 * Palindrome.pos r + Palindrome.length r < 2 * Z.of_nat a + 1)
         (palindromes stats) ->
  exists stats',
    for_each (fun stats i => stats <- expand i i stats ;; expand i (i + 1) stats)
             (map Z.of_nat (seq a m)) stats = Ok stats'
    /\ StronglySorted centre_before (palindromes stats').
Proof.
  revert a stats; induction m as [|m IH]; intros a stats Hs Hall; simpl.
  - eauto.
  - destruct (@expand_frontier_order (Z.of_nat a) (Z.of_nat a) stats)
      as (s1 & -> & Hs1 & Hall1); [lia|exact Hs| |].
    { eapply Forall_impl; [|exact Hall]. centre_order. }
    cbn [bind].
    destruct (@expand_frontier_order (Z.of_nat a) (Z.of_nat a + 1) s1)
      as (s2 & -> & Hs2 & Hall2); [lia|exact Hs1| |].
    { eapply Forall_impl; [|exact Hall1]. centre_order. }
    cbn [bind]. apply IH; [exact Hs2|].
    eapply Forall_impl; [|exact Hall2]. centre_order.
Qed.

Lemma find_palindromes_sorted :
  exists stats,
    find_palindromes sequence min_substring_len min_bases = Ok stats
    /\ StronglySorted centre_before (palindromes stats).
Proof.
  unfold find_palindromes. apply centres_order; simpl; constructor.
Qed.
End palindrome_order.

(** X23: the records of [find_palindromes] are listed by centre from left to
    right and, about one centre, from the shortest to the longest; so no
    record (start position and length) is reported twice. *)
Theorem find_palindromes_centre_order
  (sequence : str) (min_substring_len min_bases : Z) :
  exists stats,
    find_palindromes sequence min_substring_len min_bases = Ok stats
    /\ StronglySorted centre_before (palindromes stats)
    /\ NoDup (palindromes stats).
Proof.
  destruct (find_palindromes_sorted sequence min_substring_len min_bases)
    as (stats & Hrun & Hs).
  exists stats. split; [exact Hrun|]. split; [exact Hs|].
  eapply StronglySorted_irrefl_NoDup; [exact centre_before_irrefl|exact Hs].
Qed.

Lemma find_palindromes_sound (sequence : str) (min_substring_len min_bases : Z) :
  exists stats,
    find_palindromes sequence min_substring_len min_bases = Ok stats
    /\ num_palindromes stats = len (palindromes stats)
    /\ Forall (qualifies sequence min_substring_len min_bases) (palindromes stats).
Proof.
  apply find_palindromes_rule with
    (P := fun stats =>
            num_palindromes stats = len (palindromes stats)
            /\ Forall (qualifies sequence min_substring_len min_bases)
                      (palindromes stats));
    [|split; [reflexivity|constructor]].
  intros start end_ stats Hr Hend Hm [Hnum Hall].
  destruct (@record_palindrome_cases sequence min_substring_len min_bases
              start end_ stats Hr Hend) as [(Hlen & Hbases & ->)|(_ & ->)];
    [|split; assumption].
  cbn [num_palindromes palindromes]. split.
  - unfold len in *. rewrite length_app. simpl. lia.
  - apply Forall_app; split; [assumption|]. constructor; [|constructor].
    unfold qualifies; cbn [Palindrome.pos Palindrome.length].
    repeat split; try lia; try assumption.
    apply mirrored_palindrome; [unfold len in *; lia|].
    replace (Z.of_nat (Z.to_nat start) - 1) with (start - 1) by lia.
    replace (Z.of_nat (Z.to_nat start + Z.to_nat (end_ - start + 1)))
      with (end_ + 1) by lia.
    assumption.
Qed.

(** What [find_palindromes] returns, in full: the qualifying palindromic
    substrings, each once, in the order of their centres. *)
Lemma find_palindromes_characterised (sequence : str) (min_substring_len min_bases : Z) :
  exists stats,
    find_palindromes sequence min_substring_len min_bases = Ok stats
    /\ num_palindromes stats = len (palindromes stats)
    /\ StronglySorted centre_before (palindromes stats)
    /\ forall r, In r (palindromes stats)
                 <-> qualifies sequence min_substring_len min_bases r.
Proof.
  destruct (find_palindromes_sound sequence min_substring_len min_bases)
    as (stats & Hrun & Hnum & Hall).
  destruct (find_palindromes_sorted sequence min_substring_len min_bases)
    as (stats' & Hrun' & Hs).
  assert (stats' = stats) by congruence. subst stats'.
  exists stats. split; [exact Hrun|]. split; [exact Hnum|]. split; [exact Hs|].
  intros r. split.
  - rewrite Forall_forall in Hall. apply Hall.
  - intros (Hpos & Hone & Hfit & Hpal & Hlen & Hbases).
    destruct r as [p n]. cbn [Palindrome.pos Palindrome.length] in *.
    destruct (@find_palindromes_reports sequence min_substring_len min_bases
                (Z.to_nat p) (Z.to_nat n)) as (stats' & Hrun'' & Hin);
      try (unfold len in *; lia); try assumption.
    assert (stats' = stats) by congruence. subst stats'.
    rewrite !Z2Nat.id in Hin by lia. exact Hin.
Qed.

(** ** The script's reports *)

Lemma Forall2_nth_error {A B : Type} (R : A -> B -> Prop) (l1 : list A) (l2 : list B) :
  Forall2 R l1 l2 ->
  forall i a, nth_error l1 i = Some a -> exists b, nth_error l2 i = Some b /\ R a b.
Proof.
  induction 1 as [|x y l1 l2 Hxy _ IH]; intros [|i] a; simpl; try discriminate.
  - intros [= <-]. eauto.
  - apply IH.
Qed.

Lemma Forall2_nth_error_r {A B : Type} (R : A -> B -> Prop) (l1 : list A) (l2 : list B) :
  Forall2 R l1 l2 ->
  forall i b, nth_error l2 i = Some b -> exists a, nth_error l1 i = Some a /\ R a b.
Proof.
  induction 1 as [|x y l1 l2 Hxy _ IH]; intros [|i] b; simpl; try discriminate.
  - intros [= <-]. eauto.
  - apply IH.
Qed.

(** The loops [for i, stats in enumerate(...)] of the script that store one
    entry per index. *)
Lemma index_report_loop {A V : Type}
  (body : Dict.t nat V -> nat * A -> result (Dict.t nat V))
  (cond : A -> bool) (f : nat -> A -> V) (all : list A) :
  forall (a : nat) (d : Dict.t nat V),
    (forall d k st, nth_error all k = Some st ->
                    body d ((a + k)%nat, st)
                    = Ok (if cond st then Dict.set d (a + k)%nat (f (a + k)%nat st)
                          else d)) ->
    exists d',
      for_each body (combine (seq a (length all)) all) d = Ok d'
      /\ forall i,
           Dict.get d' i
           = match (if (a <=? i)%nat then nth_error all (i - a) else None) with
             | Some st => if cond st then Some (f i st) else Dict.get d i
             | None => Dict.get d i
             end.
Proof.
  induction all as [|st all IH]; intros a d Hbody.
  - exists d. split; [reflexivity|]. intros i.
    destruct (a <=? i)%nat; [destruct (i - a)%nat|]; reflexivity.
  - cbn [length seq combine for_each].
    pose proof (Hbody d 0%nat st eq_refl) as H0. rewrite Nat.add_0_r in H0.
    rewrite H0. cbn [bind].
    destruct (IH (S a) (if cond st then Dict.set d a (f a st) else d))
      as (d' & Hrun & Hget).
    { intros d0 k st' Hk. specialize (Hbody d0 (S k) st' Hk).
      replace (S a + k)%nat with (a + S k)%nat by lia. exact Hbody. }
    exists d'. split; [exact Hrun|]. intros i. rewrite Hget.
    destruct (Nat.leb_spec (S a) i) as [Hlt|Hge].
    + destruct (Nat.leb_spec a i); [|lia].
      replace (i - a)%nat with (S (i - S a)) by lia. cbn [nth_error].
      assert (Hother : Dict.get (if cond st then Dict.set d a (f a st) else d) i
                       = Dict.get d i).
      { destruct (cond st); [|reflexivity]. apply get_set_other. lia. }
      rewrite Hother. reflexivity.
    + destruct (Nat.leb_spec a i) as [Hle|Hgt].
      * assert (i = a) by lia. subst i. rewrite Nat.sub_diag. cbn [nth_error].
        destruct (cond st); [apply get_set_same|reflexivity].
      * destruct (cond st); [|reflexivity]. apply get_set_other. lia.
Qed.

Lemma nth_error_Some_lt {A : Type} (l : list A) (i : nat) (a : A) :
  nth_error l i = Some a -> (i < length l)%nat.
Proof. intros Hi. apply nth_error_Some. congruence. Qed.

Lemma for_each_total_in {A S : Type} (body : S -> A -> result S) (f : S -> A -> S)
  (xs : list A) (acc : S) :
  (forall s a, In a xs -> body s a = Ok (f s a)) ->
  for_each body xs acc = Ok (fold_left f xs acc).
Proof.
  revert acc; induction xs as [|x xs IH]; intros acc Hb; simpl; [reflexivity|].
  rewrite Hb by (left; reflexivity). simpl.
  apply IH. intros s a Ha. apply Hb. right. exact Ha.
Qed.

Lemma fold_left_snoc_map {A B : Type} (g : A -> B) (l : list A) (acc : list B) :
  fold_left (fun acc x => acc ++ [g x]) l acc = acc ++ map g l.
Proof.
  revert acc; induction l as [|x l IH]; intros acc; simpl.
  - now rewrite app_nil_r.
  - rewrite IH, <- app_assoc. reflexivity.
Qed.


Lemma dict_of_snoc {K V : Type} `{EqDec K} (pairs : list (K * V)) (kv : K * V) :
  dict_of (pairs ++ [kv]) = Dict.set (dict_of pairs) (fst kv) (snd kv).
Proof. unfold dict_of. now rewrite fold_left_app. Qed.

(** A dictionary comprehension keeps, for every key, the value of its last
    pair. *)
Lemma dict_of_last {K V : Type} `{EqDec K} (pairs : list (K * V)) (k : K) :
  (Dict.get (dict_of pairs) k = None
   /\ forall kv, In kv pairs -> fst kv <> k)
  \/ exists l1 v l2,
       pairs = l1 ++ (k, v) :: l2
       /\ (forall kv, In kv l2 -> fst kv <> k)
       /\ Dict.get (dict_of pairs) k = Some v.
Proof.
  induction pairs as [|[k' v'] pairs IH] using rev_ind.
  - left. split; [reflexivity|]. intros kv [].
  - rewrite dict_of_snoc. cbn [fst snd].
    destruct (eq_dec k' k) as [->|Hne].
    + right. exists pairs, v', []. split; [reflexivity|].
      split; [intros kv []|]. apply get_set_same.
    + rewrite get_set_other by congruence.
      destruct IH as [[Hnone Hfresh]|(l1 & v & l2 & -> & Hfresh & Hget)].
      * left. split; [exact Hnone|]. intros kv Hin.
        apply in_app_or in Hin. destruct Hin as [Hin|[<-|[]]]; [auto|exact Hne].
      * right. exists l1, v, (l2 ++ [(k', v')]).
        split; [now rewrite <- app_assoc|]. split; [|exact Hget].
        intros kv Hin. apply in_app_or in Hin.
        destruct Hin as [Hin|[<-|[]]]; [auto|exact Hne].
Qed.

Lemma StronglySorted_app_before {A : Type} (R : A -> A -> Prop) (l1 l2 : list A) (x : A) :
  StronglySorted R (l1 ++ x :: l2) -> forall y, In y l1 -> R y x.
Proof.
  induction l1 as [|z l1 IH]; simpl; intros Hs y Hy; [contradiction|].
  inversion Hs as [|? ? Hs' Hall]; subst.
  destruct Hy as [->|Hy]; [|eauto].
  rewrite Forall_forall in Hall. apply Hall. apply in_or_app. right. left. reflexivity.
Qed.

(** The entry of the palindrome report for one sequence. *)
Lemma palindrome_dict_longest (SETTINGS : Settings.t) (s : str) (stats : palindrome_stats)
  (p : Z) (w : str) :
  find_palindromes s (Settings.min_basepair_len SETTINGS) (Settings.min_bases SETTINGS)
  = Ok stats ->
  Dict.get (dict_of
              (map (fun r => (Palindrome.pos r,
                              py_slice s (Palindrome.pos r)
                                       (Palindrome.pos r + Palindrome.length r)))
                   (palindromes stats))) p = Some w
  <-> longest_palindrome_at SETTINGS s p w.
Proof.
  intros Hrun.
  destruct (find_palindromes_characterised s (Settings.min_basepair_len SETTINGS)
              (Settings.min_bases SETTINGS)) as (stats' & Hrun' & _ & Hs & Hiff).
  assert (stats' = stats) by congruence. subst stats'.
  set (g := fun r => (Palindrome.pos r,
                      py_slice s (Palindrome.pos r)
                               (Palindrome.pos r + Palindrome.length r))).
  assert (Hslice : forall r,
             qualifies s (Settings.min_basepair_len SETTINGS)
                       (Settings.min_bases SETTINGS) r ->
             snd (g r) = window s (Z.to_nat (Palindrome.pos r))
                                (Z.to_nat (Palindrome.length r))
             /\ len (snd (g r)) = Palindrome.length r).
  { intros r (Hpos & Hone & Hfit & _). unfold g; cbn [snd].
    rewrite py_slice_window by lia.
    replace (Z.to_nat (Palindrome.pos r + Palindrome.length r)
             - Z.to_nat (Palindrome.pos r))%nat
      with (Z.to_nat (Palindrome.length r)) by lia.
    split; [reflexivity|]. unfold len in *. rewrite window_length. lia. }
  assert (Hlast : forall pl1 r pl2,
             palindromes stats = pl1 ++ r :: pl2 ->
             (forall kv, In kv (map g pl2) -> fst kv <> Palindrome.pos r) ->
             forall n, qualifies s (Settings.min_basepair_len SETTINGS)
                                 (Settings.min_bases SETTINGS)
                                 {| Palindrome.pos := Palindrome.pos r;
                                    Palindrome.length := n |} ->
                       n <= Palindrome.length r).
  { intros pl1 r pl2 Hsplit Hfresh n Hq.
    apply Hiff in Hq. rewrite Hsplit in Hq, Hs.
    apply in_app_or in Hq. destruct Hq as [Hq|[Hq|Hq]].
    - pose proof (StronglySorted_app_before _ _ _ Hs _ Hq) as Hcb.
      revert Hcb. centre_order.
    - rewrite Hq. cbn [Palindrome.length]. lia.
    - exfalso. apply (Hfresh (g {| Palindrome.pos := Palindrome.pos r;
                                   Palindrome.length := n |}));
        [apply in_map; exact Hq|reflexivity]. }
  split.
  - intros Hget.
    destruct (dict_of_last (map g (palindromes stats)) p)
      as [[Hnone _]|(l1 & v & l2 & Hsplit & Hfresh & Hget')]; [congruence|].
    assert (v = w) by congruence. subst v.
    apply map_eq_app in Hsplit. destruct Hsplit as (pl1 & pl2' & Hpals & Hl1 & Hl2).
    apply map_eq_cons in Hl2. destruct Hl2 as (r & pl2 & -> & Hr & Hl2).
    assert (Hq : qualifies s (Settings.min_basepair_len SETTINGS)
                           (Settings.min_bases SETTINGS) r).
    { apply Hiff. rewrite Hpals. apply in_or_app. right. left. reflexivity. }
    destruct (Hslice r Hq) as [Hw Hlen].
    assert (Hp : Palindrome.pos r = p) by (apply (f_equal fst) in Hr; exact Hr).
    assert (Hv : snd (g r) = w) by (apply (f_equal snd) in Hr; exact Hr).
    rewrite Hv in Hw, Hlen. rewrite Hp in Hw.
    unfold longest_palindrome_at. cbv zeta. split; [|split].
    + rewrite Hw at 1. f_equal. unfold len in Hlen. lia.
    + rewrite Hlen, <- Hp. destruct r; exact Hq.
    + intros n Hn. rewrite Hlen. rewrite <- Hp in Hn.
      apply (Hlast pl1 r pl2 Hpals); [|exact Hn].
      rewrite Hl2, Hp. exact Hfresh.
  - intros (Hw & Hok & Hmax).
    pose proof (proj2 (Hiff _) Hok) as Hin.
    destruct (dict_of_last (map g (palindromes stats)) p)
      as [[_ Hfresh]|(l1 & v & l2 & Hsplit & Hfresh & Hget)].
    + exfalso. apply (Hfresh (g {| Palindrome.pos := p; Palindrome.length := len w |}));
        [apply in_map; exact Hin|reflexivity].
    + rewrite Hget. apply f_equal.
      apply map_eq_app in Hsplit. destruct Hsplit as (pl1 & pl2' & Hpals & Hl1 & Hl2).
      apply map_eq_cons in Hl2. destruct Hl2 as (r & pl2 & -> & Hr & Hl2).
      assert (Hq : qualifies s (Settings.min_basepair_len SETTINGS)
                             (Settings.min_bases SETTINGS) r).
      { apply Hiff. rewrite Hpals. apply in_or_app. right. left. reflexivity. }
      destruct (Hslice r Hq) as [Hv Hlen].
      assert (Hp : Palindrome.pos r = p) by (apply (f_equal fst) in Hr; exact Hr).
      assert (Hv' : snd (g r) = v) by (apply (f_equal snd) in Hr; exact Hr).
      rewrite Hv' in Hv, Hlen. rewrite Hp in Hv.
      assert (Hle : Palindrome.length r <= len w).
      { apply Hmax. rewrite <- Hp. destruct r; exact Hq. }
      assert (Hge : len w <= Palindrome.length r).
      { rewrite <- Hp in Hok.
        apply (Hlast pl1 r pl2 Hpals); [|exact Hok].
        rewrite Hl2, Hp. exact Hfresh. }
      rewrite Hv. etransitivity; [|symmetry; exact Hw].
      apply f_equal. unfold len in *. lia.
Qed.

Lemma set_nonempty {K V : Type} `{EqDec K} (d : Dict.t K V) (k : K) (v : V) :
  Dict.set d k v <> [].
Proof.
  destruct d as [|[k' v'] d]; simpl; [discriminate|].
  destruct (eq_dec k k'); discriminate.
Qed.

Lemma dict_of_nonempty {K V : Type} `{EqDec K} (pairs : list (K * V)) :
  pairs <> [] -> dict_of pairs <> [].
Proof.
  intros Hne. destruct (exists_last Hne) as (l & kv & ->).
  rewrite dict_of_snoc. apply set_nonempty.
Qed.

(** X24: the palindrome report of the script. It is always produced; it has
    an entry for a sequence exactly when the sequence has a qualifying
    palindrome, and the entry maps a start position to the longest
    qualifying palindromic substring that starts there: shorter ones with
    the same start are overwritten. *)
Theorem seq_dict_longest_palindromes (SETTINGS : Settings.t) (seq_obj : seq_object) :
  exists report,
    Main.seq_dict SETTINGS seq_obj = Ok report
    /\ (forall i s,
           nth_error (sequences seq_obj) i = Some s ->
           forall p w,
             (exists d, Dict.get report i = Some d /\ Dict.get d p = Some w)
             <-> longest_palindrome_at SETTINGS s p w)
    /\ (forall i d,
           Dict.get report i = Some d ->
           d <> [] /\ (i < length (sequences seq_obj))%nat).
Proof.
  unfold Main.seq_dict.
  destruct (@apply_foreach_total _ seq_obj
              (fun seq => find_palindromes seq (Settings.min_basepair_len SETTINGS)
                                           (Settings.min_bases SETTINGS))
              (fun _ => True)) as (all & -> & Hall & _).
  { intros s.
    destruct (find_palindromes_sorted s (Settings.min_basepair_len SETTINGS)
                (Settings.min_bases SETTINGS)) as (stats & Hrun & _).
    eauto. }
  cbn [bind]. unfold enumerate.
  set (g := fun (s : str) (r : Palindrome.t) =>
              (Palindrome.pos r,
               py_slice s (Palindrome.pos r) (Palindrome.pos r + Palindrome.length r))).
  set (f := fun (i : nat) (stats : palindrome_stats) =>
              dict_of (map (g (nth i (sequences seq_obj) [])) (palindromes stats))).
  match goal with
  | |- exists report, for_each ?body _ _ = Ok report /\ _ =>
      destruct (@index_report_loop _ _ body (fun stats => 0 <? num_palindromes stats)
                  f all 0%nat Dict.empty) as (report & Hrun & Hget)
  end.
  { intros d k stats Hk. cbn [Nat.add].
    destruct (0 <? num_palindromes stats); [|reflexivity].
    destruct (Forall2_nth_error_r Hall _ Hk) as (s & Hs & _).
    destruct (@py_index_in_range _ (sequences seq_obj) (Z.of_nat k)) as (s' & Hidx & Hs').
    { unfold len. apply nth_error_Some_lt in Hs. lia. }
    rewrite Nat2Z.id in Hs'. assert (s' = s) by congruence. subst s'.
    rewrite (@for_each_total_in _ _ _ (fun acc p => acc ++ [g s p]))
      by (intros acc p _; rewrite Hidx; reflexivity).
    cbn [bind]. rewrite fold_left_snoc_map. cbn [app]. unfold f.
    rewrite (nth_error_nth _ _ _ Hs). reflexivity. }
  assert (Hentry : forall i,
             Dict.get report i
             = match nth_error all i with
               | Some stats => if 0 <? num_palindromes stats then Some (f i stats)
                               else None
               | None => None
               end).
  { intros i. rewrite Hget. cbn [Nat.leb]. rewrite Nat.sub_0_r.
    destruct (nth_error all i) as [stats|]; [|reflexivity].
    destruct (0 <? num_palindromes stats); reflexivity. }
  exists report. split; [exact Hrun|]. split.
  - intros i s Hs p w.
    destruct (Forall2_nth_error Hall _ Hs) as (stats & Hstats & Hfind).
    rewrite Hentry, Hstats. unfold f. rewrite (nth_error_nth _ _ _ Hs).
    pose proof (@palindrome_dict_longest SETTINGS s stats p w Hfind) as Hlong.
    fold (g s) in Hlong. split.
    + intros (d & Hd & Hw).
      destruct (0 <? num_palindromes stats); [|discriminate].
      injection Hd as <-. apply Hlong. exact Hw.
    + intros Hw. apply Hlong in Hw.
      destruct (find_palindromes_characterised s (Settings.min_basepair_len SETTINGS)
                  (Settings.min_bases SETTINGS)) as (stats' & Hrun' & Hnum & _).
      assert (stats' = stats) by congruence. subst stats'.
      destruct (palindromes stats) as [|r rest] eqn:Hpals; [discriminate|].
      destruct (Z.ltb_spec 0 (num_palindromes stats)) as [_|Hzero].
      * eauto.
      * unfold len in Hnum. simpl in Hnum. lia.
  - intros i d Hd. rewrite Hentry in Hd.
    destruct (nth_error all i) as [stats|] eqn:Hstats; [|discriminate].
    destruct (Forall2_nth_error_r Hall _ Hstats) as (s & Hs & Hfind).
    destruct (Z.ltb_spec 0 (num_palindromes stats)) as [Hpos|]; [|discriminate].
    injection Hd as <-. split; [|apply nth_error_Some_lt in Hs; exact Hs].
    destruct (find_palindromes_characterised s (Settings.min_basepair_len SETTINGS)
                (Settings.min_bases SETTINGS)) as (stats' & Hrun' & Hnum & _).
    assert (stats' = stats) by congruence. subst stats'.
    unfold f. apply dict_of_nonempty.
    destruct (palindromes stats); [unfold len in Hnum; simpl in Hnum; lia|discriminate].
Qed.

(** [apply_foreach] either returns one result per sequence or passes on the
    error of a sequence. *)
Lemma apply_foreach_cases {A : Type} (seq_obj : seq_object)
  (analysis_func : str -> result A) :
  (exists stats,
      apply_foreach seq_obj analysis_func = Ok stats
      /\ Forall2 (fun s a => analysis_func s = Ok a) (sequences seq_obj) stats)
  \/ (exists e s,
         In s (sequences seq_obj) /\ analysis_func s = Raise e
         /\ apply_foreach seq_obj analysis_func = Raise e).
Proof.
  unfold apply_foreach.
  enough (Hgen : forall acc,
             (exists results,
                 for_each (fun stats seq => seq_stats <- analysis_func seq ;;
                                            Ok (stats ++ [seq_stats]))
                          (sequences seq_obj) acc = Ok (acc ++ results)
                 /\ Forall2 (fun s a => analysis_func s = Ok a)
                            (sequences seq_obj) results)
             \/ (exists e s,
                    In s (sequences seq_obj) /\ analysis_func s = Raise e
                    /\ for_each (fun stats seq => seq_stats <- analysis_func seq ;;
                                                  Ok (stats ++ [seq_stats]))
                                (sequences seq_obj) acc = Raise e)).
  { destruct (Hgen []) as [(results & Hrun & Hall)|Hfail]; [left|right; exact Hfail].
    exists results. split; assumption. }
  induction (sequences seq_obj) as [|s seqs IH]; intros acc.
  - left. exists []. split; [simpl; now rewrite app_nil_r|constructor].
  - cbn [for_each]. destruct (analysis_func s) as [a|e] eqn:Hs; cbn [bind].
    + destruct (IH (acc ++ [a])) as [(results & Hrun & Hall)|(e & s' & Hin & He & Hrun)].
      * left. exists (a :: results). rewrite Hrun, <- app_assoc.
        split; [reflexivity|]. constructor; assumption.
      * right. exists e, s'. split; [right; exact Hin|]. split; assumption.
    + right. exists e, s. split; [left; reflexivity|]. split; [exact Hs|reflexivity].
Qed.

Lemma get_gc_stats_default (sequence : str) :
  (str_count sequence "C" + str_count sequence "G" = 0
   /\ get_gc_stats sequence None = Raise ZeroDivisionError)
  \/ (0 < str_count sequence "C" + str_count sequence "G"
      /\ exists gc_distribution gc_skew,
           get_gc_stats sequence None
           = Ok [(str_of "gc_distribution", gc_distribution);
                 (str_of "gc_skew", gc_skew)]).
Proof.
  pose proof (str_count_nonneg sequence "C") as Hc.
  pose proof (str_count_nonneg sequence "G") as Hg.
  pose proof (@gc_count_le_valid sequence None I) as Hvalid.
  rewrite get_gc_stats_eq. unfold truediv.
  destruct (Z.eqb_spec (total_valid sequence None) 0) as [Htv|Htv]; cbn [bind].
  - left. split; [lia|reflexivity].
  - destruct (Z.eqb_spec (str_count sequence "G" + str_count sequence "C") 0)
      as [Hgc|Hgc]; cbn [bind].
    + left. split; [lia|reflexivity].
    + right. split; [lia|]. eauto.
Qed.

(** X25: the GC block of the script. It fails with [ZeroDivisionError] when
    some sequence holds no [C] and no [G], with [IndexError] when the dataset
    has no sequence, and in no other way; otherwise all five entries are
    computed, and the average has the two GC fields. *)
Theorem gc_dict_outcome (seq_obj : seq_object) :
  let has_gc (s : str) := 0 < str_count s "C" + str_count s "G" in
  match Main.gc_dict seq_obj with
  | Ok report =>
      sequences seq_obj <> [] /\ Forall has_gc (sequences seq_obj)
      /\ Dict.keys (Main.avg_gc report) = [str_of "gc_distribution"; str_of "gc_skew"]
  | Raise e =>
      (e = ZeroDivisionError /\ Exists (fun s => ~ has_gc s) (sequences seq_obj))
      \/ (e = IndexError /\ sequences seq_obj = [])
  end.
Proof.
  intros has_gc. unfold Main.gc_dict.
  destruct (apply_foreach_cases seq_obj (fun seq => get_gc_stats seq None))
    as [(all & -> & Hall)|(e & s & Hin & He & ->)]; cbn [bind].
  - assert (Hgc : Forall has_gc (sequences seq_obj)
                  /\ Forall (fun r => Dict.keys r
                                      = [str_of "gc_distribution"; str_of "gc_skew"]) all).
    { clear - Hall. induction Hall as [|s r seqs all Hs _ [IH1 IH2]];
        [split; constructor|].
      destruct (get_gc_stats_default s) as [[_ Hfail]|(Hpos & d & k & Hrun)];
        [congruence|].
      split; constructor; try assumption.
      assert (r = [(str_of "gc_distribution", d); (str_of "gc_skew", k)]) by congruence.
      subst r. reflexivity. }
    destruct Hgc as [Hgc Hkeys]. rewrite Forall_forall in Hkeys.
    destruct all as [|first rest] eqn:Hstats.
    + right. inversion Hall. split; reflexivity.
    + rewrite <- Hstats in *.
      assert (Hne : all <> []) by (rewrite Hstats; discriminate).
      assert (Hfirst : In first all) by (rewrite Hstats; left; reflexivity).
      assert (Hwf : Forall Dict.wf all).
      { apply Forall_forall. intros r Hr. unfold Dict.wf. rewrite (Hkeys r Hr).
        repeat constructor; simpl; intuition discriminate. }
      destruct (@reduce_avg_subset Q rational first rest) as (averaged & Havg & Hk & _).
      { pose proof Hwf as Hwf'. rewrite Hstats in Hwf'. exact Hwf'. }
      { intros r key Hr Hkey.
        assert (Hr' : In r all) by (rewrite Hstats; exact Hr).
        rewrite (Hkeys r Hr') in Hkey. rewrite (Hkeys first Hfirst). exact Hkey. }
      assert (Havg' : reduce_avg all = Ok averaged) by (rewrite Hstats; exact Havg).
      rewrite Havg'. cbn [bind].
      assert (Hdist : forall r, In r all -> In (str_of "gc_distribution") (Dict.keys r)).
      { intros r Hr. rewrite (Hkeys r Hr). left. reflexivity. }
      assert (Hskew : forall r, In r all -> In (str_of "gc_skew") (Dict.keys r)).
      { intros r Hr. rewrite (Hkeys r Hr). right. left. reflexivity. }
      destruct (@find_max_first all _ Hne Hdist) as (i1 & r1 & -> & _). cbn [bind].
      destruct (@find_max_first all _ Hne Hskew) as (i2 & r2 & -> & _). cbn [bind].
      destruct (@find_min_first all _ Hne Hdist) as (i3 & r3 & -> & _). cbn [bind].
      destruct (@find_min_first all _ Hne Hskew) as (i4 & r4 & -> & _). cbn [bind].
      cbn [Main.avg_gc]. split; [|split; [exact Hgc|]].
      * intros Hnil. rewrite Hnil in Hall. inversion Hall. congruence.
      * rewrite Hk. apply Hkeys. exact Hfirst.
  - left. destruct (get_gc_stats_default s) as [[Hzero Hfail]|(_ & d & k & Hrun)];
      [|congruence].
    split; [congruence|]. apply Exists_exists. exists s. split; [exact Hin|].
    unfold has_gc. lia.
Qed.

(** The entry of the invalid-base report for one sequence. *)
Lemma invalid_dict_entry (SETTINGS : Settings.t) (s : str) (pos : nat) (c : ascii) :
  Dict.get (dict_of
              (map (fun e => (Invalid.pos e, Invalid.base e))
                   (invalid_bases (find_invalid_bases SETTINGS s)))) pos = Some c
  <-> nth_error s pos = Some c /\ ~ In [c] (Settings.valid_nucleobases SETTINGS).
Proof.
  rewrite find_invalid_bases_eq. cbn [invalid_bases].
  set (h := fun e => (Invalid.pos e, Invalid.base e)).
  set (entries := invalid_from (Settings.valid_nucleobases SETTINGS) 0 s).
  assert (Hentry : forall e, In e entries <->
                             nth_error s (Invalid.pos e) = Some (Invalid.base e)
                             /\ ~ In [Invalid.base e] (Settings.valid_nucleobases SETTINGS)).
  { intros e. unfold entries. rewrite in_invalid_from, Nat.sub_0_r.
    split; [tauto|]. intros [? ?]. split; [lia|tauto]. }
  assert (Hlast : forall v,
             (exists l1 l2, map h entries = l1 ++ (pos, v) :: l2) ->
             nth_error s pos = Some v
             /\ ~ In [v] (Settings.valid_nucleobases SETTINGS)).
  { intros v (l1 & l2 & Hsplit).
    assert (Hin : In (pos, v) (map h entries))
      by (rewrite Hsplit; apply in_or_app; right; left; reflexivity).
    apply in_map_iff in Hin. destruct Hin as (e & He & Hin).
    apply Hentry in Hin. unfold h in He. injection He as <- <-. exact Hin. }
  split.
  - intros Hget.
    destruct (dict_of_last (map h entries) pos)
      as [[Hnone _]|(l1 & v & l2 & Hsplit & _ & Hget')]; [congruence|].
    assert (v = c) by congruence. subst v. apply Hlast. eauto.
  - intros Hc.
    assert (Hin : In {| Invalid.pos := pos; Invalid.base := c |} entries)
      by (apply Hentry; exact Hc).
    destruct (dict_of_last (map h entries) pos)
      as [[_ Hfresh]|(l1 & v & l2 & Hsplit & _ & Hget)].
    + exfalso. apply (Hfresh (h {| Invalid.pos := pos; Invalid.base := c |}));
        [apply in_map; exact Hin|reflexivity].
    + rewrite Hget. apply f_equal.
      destruct (Hlast v) as [Hv _]; [eauto|]. destruct Hc as [Hc _]. congruence.
Qed.

(** X26: the invalid-base report of the script. It is always produced; it has
    an entry for a sequence exactly when the sequence holds a character
    outside the alphabet, and the entry maps exactly the positions of such
    characters to the character found there. *)
Theorem invalid_dict_positions (SETTINGS : Settings.t) (seq_obj : seq_object) :
  exists report,
    Main.invalid_dict SETTINGS seq_obj = Ok report
    /\ (forall i s,
           nth_error (sequences seq_obj) i = Some s ->
           forall pos c,
             (exists d, Dict.get report i = Some d /\ Dict.get d pos = Some c)
             <-> nth_error s pos = Some c
                 /\ ~ In [c] (Settings.valid_nucleobases SETTINGS))
    /\ (forall i d,
           Dict.get report i = Some d ->
           d <> [] /\ (i < length (sequences seq_obj))%nat).
Proof.
  unfold Main.invalid_dict.
  destruct (@apply_foreach_total _ seq_obj
              (fun seq => Ok (find_invalid_bases SETTINGS seq))
              (fun _ => True)) as (all & -> & Hall & _); [eauto|].
  cbn [bind]. unfold enumerate.
  set (h := fun e => (Invalid.pos e, Invalid.base e)).
  set (f := fun (i : nat) (stat : invalid_stats) =>
              dict_of (map h (invalid_bases stat))).
  match goal with
  | |- exists report, for_each ?body _ _ = Ok report /\ _ =>
      destruct (@index_report_loop _ _ body (fun stat => 0 <? num_invalid stat)
                  f all 0%nat Dict.empty) as (report & Hrun & Hget)
  end.
  { intros d k stat Hk. cbn [Nat.add].
    destruct (0 <? num_invalid stat); [|reflexivity].
    destruct (Forall2_nth_error_r Hall _ Hk) as (s & Hs & [= Hstat]).
    destruct (@py_index_in_range _ (sequences seq_obj) (Z.of_nat k)) as (s' & Hidx & Hs').
    { unfold len. apply nth_error_Some_lt in Hs. lia. }
    rewrite Nat2Z.id in Hs'. assert (s' = s) by congruence. subst s'.
    rewrite (@for_each_total_in _ _ _ (fun acc e => acc ++ [h e])).
    - cbn [bind]. rewrite fold_left_snoc_map. reflexivity.
    - intros acc e He. rewrite Hidx. cbn [bind].
      rewrite <- Hstat, find_invalid_bases_eq in He. cbn [invalid_bases] in He.
      apply in_invalid_from in He. destruct He as (_ & Hnth & _).
      rewrite Nat.sub_0_r in Hnth.
      destruct (@py_index_in_range _ s (Z.of_nat (Invalid.pos e))) as (c & -> & Hc).
      { unfold len. apply nth_error_Some_lt in Hnth. lia. }
      rewrite Nat2Z.id in Hc. assert (c = Invalid.base e) by congruence. subst c.
      reflexivity. }
  assert (Hentry : forall i,
             Dict.get report i
             = match nth_error all i with
               | Some stat => if 0 <? num_invalid stat then Some (f i stat) else None
               | None => None
               end).
  { intros i. rewrite Hget. cbn [Nat.leb]. rewrite Nat.sub_0_r.
    destruct (nth_error all i) as [stat|]; [|reflexivity].
    destruct (0 <? num_invalid stat); reflexivity. }
  exists report. split; [exact Hrun|]. split.
  - intros i s Hs pos c.
    destruct (Forall2_nth_error Hall _ Hs) as (stat & Hstat & [= <-]).
    rewrite Hentry, Hstat. unfold f.
    pose proof (invalid_dict_entry SETTINGS s pos c) as Hpos. fold h in Hpos.
    split.
    + intros (d & Hd & Hc).
      destruct (0 <? num_invalid (find_invalid_bases SETTINGS s)); [|discriminate].
      injection Hd as <-. apply Hpos. exact Hc.
    + intros Hc. apply Hpos in Hc. revert Hc.
      rewrite find_invalid_bases_eq. cbn [invalid_bases num_invalid].
      destruct (invalid_from (Settings.valid_nucleobases SETTINGS) 0 s) as [|e rest];
        [discriminate|].
      intros Hc.
      destruct (Z.ltb_spec 0 (len (e :: rest))) as [_|Hzero];
        [eauto|unfold len in Hzero; simpl in Hzero; lia].
  - intros i d Hd. rewrite Hentry in Hd.
    destruct (nth_error all i) as [stat|] eqn:Hstat; [|discriminate].
    destruct (Forall2_nth_error_r Hall _ Hstat) as (s & Hs & [= <-]).
    destruct (Z.ltb_spec 0 (num_invalid (find_invalid_bases SETTINGS s))) as [Hpos|];
      [|discriminate].
    injection Hd as <-. split; [|apply nth_error_Some_lt in Hs; exact Hs].
    unfold f. apply dict_of_nonempty.
    rewrite find_invalid_bases_eq in Hpos |- *. cbn [invalid_bases num_invalid] in *.
    destruct (invalid_from (Settings.valid_nucleobases SETTINGS) 0 s);
      [unfold len in Hpos; simpl in Hpos; lia|discriminate].
Qed.

(** ** The dinucleotide block of the script *)

(** Either a sequence can be normalised and its record has the keys of the
    key space, or it cannot and [ZeroDivisionError] is raised. *)
Lemma get_dinucleotide_freqs_cases (SETTINGS : Settings.t) (sequence : str) :
  (has_pair SETTINGS sequence
   /\ exists freqs,
        get_dinucleotide_freqs SETTINGS sequence = Ok freqs
        /\ Dict.wf freqs
        /\ Dict.keys freqs
           = Dict.keys (fold_left (fun (c : Dict.t str Z) (d : str) => Dict.set c d 0)
                                  (dinucleotide_keys (Settings.valid_nucleobases SETTINGS))
                                  Dict.empty))
  \/ (~ has_pair SETTINGS sequence
      /\ get_dinucleotide_freqs SETTINGS sequence = Raise ZeroDivisionError).
Proof.
  destruct (get_dinucleotide_freqs_run SETTINGS sequence)
    as (counts & Hwf & Hkeys & Htotal & Hnonneg & ->).
  destruct (zero_counts (dinucleotide_keys (Settings.valid_nucleobases SETTINGS)))
    as (_ & Hkeys0 & _).
  unfold has_pair.
  set (total := matched_total (Settings.valid_nucleobases SETTINGS) sequence) in *.
  set (K := Dict.keys (fold_left _ (dinucleotide_keys _) Dict.empty)) in *.
  assert (Htot : 0 <= total) by (unfold total, matched_total; apply len_nonneg).
  destruct (Z.eqb_spec total 0) as [Hz|Hnz].
  - destruct counts as [|kv counts].
    + left. split.
      * left. destruct (dinucleotide_keys (Settings.valid_nucleobases SETTINGS))
          as [|key keys]; [reflexivity|].
        exfalso. assert (Hin : In key K) by (apply Hkeys0; left; reflexivity).
        rewrite <- Hkeys in Hin. exact Hin.
      * exists Dict.empty. split; [reflexivity|]. split; [constructor|exact Hkeys].
    + right. split; [|reflexivity]. intros [Hnil|Hpos]; [|lia].
      assert (Hin : In (fst kv) K) by (rewrite <- Hkeys; left; reflexivity).
      apply Hkeys0 in Hin. rewrite Hnil in Hin. exact Hin.
  - left. split; [right; lia|]. eexists. split; [reflexivity|].
    assert (Hk : Dict.keys (map (fun kv : str * Z =>
                                   (fst kv, (inject_Z (snd kv) / inject_Z total)%Q))
                                counts) = Dict.keys counts).
    { unfold Dict.keys. rewrite map_map. reflexivity. }
    split; [unfold Dict.wf; rewrite Hk; exact Hwf|].
    etransitivity; [exact Hk|exact Hkeys].
Qed.

(** X27: the dinucleotide block of the script. It succeeds exactly when the
    dataset is not empty and every sequence can be normalised (one of its
    two-character windows is a key, or the alphabet is empty); then it holds
    the record of every sequence, in order, and the average has the keys of
    each of them. It fails with [ZeroDivisionError] when some sequence cannot
    be normalised, with [IndexError] when the dataset has no sequence, and in
    no other way: the average never meets a missing field. *)
Theorem dnt_dict_outcome (SETTINGS : Settings.t) (seq_obj : seq_object) :
  match Main.dnt_dict SETTINGS seq_obj with
  | Ok report =>
      sequences seq_obj <> []
      /\ Forall (has_pair SETTINGS) (sequences seq_obj)
      /\ Forall2 (fun s freqs => get_dinucleotide_freqs SETTINGS s = Ok freqs)
                 (sequences seq_obj) (Main.all_dnt_stats report)
      /\ Forall (fun freqs => Dict.keys freqs = Dict.keys (Main.avg_dnt report))
                (Main.all_dnt_stats report)
  | Raise e =>
      (e = ZeroDivisionError
       /\ Exists (fun s => ~ has_pair SETTINGS s) (sequences seq_obj))
      \/ (e = IndexError /\ sequences seq_obj = [])
  end.
Proof.
  unfold Main.dnt_dict.
  destruct (apply_foreach_cases seq_obj (get_dinucleotide_freqs SETTINGS))
    as [(all & -> & Hall)|(e & s & Hin & He & ->)]; cbn [bind].
  - set (K := Dict.keys (fold_left (fun (c : Dict.t str Z) (d : str) => Dict.set c d 0)
                                   (dinucleotide_keys (Settings.valid_nucleobases SETTINGS))
                                   Dict.empty)).
    assert (Hrec : Forall (has_pair SETTINGS) (sequences seq_obj)
                   /\ Forall (fun r : Dict.t str Q => Dict.wf r /\ Dict.keys r = K) all).
    { clear - Hall. induction Hall as [|s r seqs all Hs _ [IH1 IH2]];
        [split; constructor|].
      destruct (get_dinucleotide_freqs_cases SETTINGS s)
        as [(Hpair & r' & Hrun & Hwf & Hk)|(_ & Hfail)]; [|congruence].
      assert (r' = r) by congruence. subst r'.
      split; constructor; try assumption. split; assumption. }
    destruct Hrec as [Hpair Hrec]. rewrite Forall_forall in Hrec.
    destruct all as [|first rest].
    + right. inversion Hall. split; reflexivity.
    + destruct (@reduce_avg_subset Q rational first rest) as (averaged & Havg & Hk & _).
      { apply Forall_forall. intros r Hr. apply (Hrec r Hr). }
      { intros r key Hr Hkey.
        destruct (Hrec r Hr) as [_ Hkr]. destruct (Hrec first (or_introl eq_refl)) as [_ Hk1].
        rewrite Hk1. rewrite Hkr in Hkey. exact Hkey. }
      rewrite Havg. cbn [bind Main.all_dnt_stats Main.avg_dnt].
      split; [|split; [exact Hpair|split; [exact Hall|]]].
      * intros Hnil. rewrite Hnil in Hall. inversion Hall.
      * apply Forall_forall. intros r Hr.
        destruct (Hrec r Hr) as [_ Hkr]. destruct (Hrec first (or_introl eq_refl)) as [_ Hk1].
        rewrite Hk, Hkr, Hk1. reflexivity.
  - left. destruct (get_dinucleotide_freqs_cases SETTINGS s)
      as [(_ & r & Hrun & _)|(Hno & Hfail)]; [congruence|].
    split; [congruence|]. apply Exists_exists. exists s. split; assumption.
Qed.

(** ** The image rows *)

(** Case analysis on the computation that hypothesis [H] matches on. *)
Ltac scrutinee H k :=
  match type of H with
  | match ?c with Ok _ => _ | Raise _ => _ end => k c
  end.

Section seq_to_img_facts.
Context {C : Type}.
Variable lookup : Dict.t str C.

Lemma image_row (seq : str) (acc : list C) :
  match for_each (fun row (base : ascii) =>
                    match Dict.getitem lookup [base] with
                    | Ok colour => Ok (row ++ [colour])
                    | Raise KeyError =>
                        colour <- Dict.getitem lookup (str_of "X") ;;
                        Ok (row ++ [colour])
                    | Raise e => Raise e
                    end) seq acc with
  | Ok row => exists pixels, row = acc ++ pixels /\ Forall2 (pixel_of lookup) seq pixels
  | Raise e =>
      e = KeyError /\ Dict.get lookup (str_of "X") = None
      /\ Exists (fun base => Dict.get lookup [base] = None) seq
  end.
Proof.
  revert acc; induction seq as [|base seq IH]; intros acc; cbn [for_each].
  - exists []. split; [now rewrite app_nil_r|constructor].
  - unfold Dict.getitem at 1.
    destruct (Dict.get lookup [base]) as [colour|] eqn:Hbase; cbn [bind].
    + specialize (IH (acc ++ [colour])).
      destruct (for_each _ seq (acc ++ [colour])) as [row|e].
      * destruct IH as (pixels & -> & Hpixels). exists (colour :: pixels).
        rewrite <- app_assoc. split; [reflexivity|].
        constructor; [left; exact Hbase|exact Hpixels].
      * destruct IH as (He & HX & Hex). repeat split; try assumption.
        apply Exists_cons_tl. exact Hex.
    + unfold Dict.getitem at 1.
      destruct (Dict.get lookup (str_of "X")) as [colour|] eqn:HX; cbn [bind].
      * specialize (IH (acc ++ [colour])).
        destruct (for_each _ seq (acc ++ [colour])) as [row|e].
        -- destruct IH as (pixels & -> & Hpixels). exists (colour :: pixels).
           rewrite <- app_assoc. split; [reflexivity|].
           constructor; [right; split; assumption|exact Hpixels].
        -- destruct IH as (He & HX' & Hex). congruence.
      * repeat split; try reflexivity. apply Exists_cons_hd. exact Hbase.
Qed.
End seq_to_img_facts.

(** X28: the rows of the image that [seq_to_img] builds. When they are built
    there is one row per sequence and one pixel per base, the colour of the
    base or, for a base without a colour, the colour of [X]. They fail to be
    built only with [KeyError], and exactly when [X] has no colour and some
    sequence holds a base without a colour. *)
Theorem seq_to_img_rows_outcome {C : Type}
  (sequences : list str) (colours : list C) (bases : list str) :
  let lookup := colour_lookup bases colours in
  match seq_to_img_rows sequences colours bases with
  | Ok rows => Forall2 (Forall2 (pixel_of lookup)) sequences rows
  | Raise e =>
      e = KeyError /\ Dict.get lookup (str_of "X") = None
      /\ Exists (Exists (fun base => Dict.get lookup [base] = None)) sequences
  end.
Proof.
  intros lookup. unfold seq_to_img_rows. fold lookup.
  enough (Hgen : forall acc,
             match for_each
                     (fun rows seq =>
                        row <- for_each
                                 (fun row (base : ascii) =>
                                    match Dict.getitem lookup [base] with
                                    | Ok colour => Ok (row ++ [colour])
                                    | Raise KeyError =>
                                        colour <- Dict.getitem lookup (str_of "X") ;;
                                        Ok (row ++ [colour])
                                    | Raise e => Raise e
                                    end) seq [] ;;
                        Ok (rows ++ [row])) sequences acc with
             | Ok rows => exists more, rows = acc ++ more
                                       /\ Forall2 (Forall2 (pixel_of lookup)) sequences more
             | Raise e =>
                 e = KeyError /\ Dict.get lookup (str_of "X") = None
                 /\ Exists (Exists (fun base => Dict.get lookup [base] = None)) sequences
             end).
  { specialize (Hgen []). scrutinee Hgen ltac:(fun c => destruct c as [rows|e]); [|exact Hgen].
    destruct Hgen as (more & -> & Hmore). exact Hmore. }
  induction sequences as [|seq sequences IH]; intros acc; cbn [for_each].
  - exists []. split; [now rewrite app_nil_r|constructor].
  - pose proof (image_row lookup seq []) as Hrow.
    scrutinee Hrow ltac:(fun c => destruct c as [row|e]); cbn [bind].
    + destruct Hrow as (pixels & -> & Hpixels). cbn [app].
      specialize (IH (acc ++ [pixels])).
      scrutinee IH ltac:(fun c => destruct c as [rows|e]).
      * destruct IH as (more & -> & Hmore). exists (pixels :: more).
        rewrite <- app_assoc. split; [reflexivity|]. constructor; assumption.
      * destruct IH as (He & HX & Hex). repeat split; try assumption.
        apply Exists_cons_tl. exact Hex.
    + destruct Hrow as (He & HX & Hex). repeat split; try assumption.
      apply Exists_cons_hd. exact Hex.
Qed.
